(** * mjoy-go: transaction signer and transaction pool

    A shallow embedding of

    - the signer of package [transaction] (sender recovery, the memoised
      [Sender], [SignatureValues], [deriveChainId]), and
    - the pool of package [txprocessor] ([tx_pool.go], [tx_journal.go]),

    together with the properties of the specification that concern them.

    Conventions.  A [*big.Int] is a [Z]; a [uint64] is a [Z] in
    [0, 2^64) and every operation that can leave that range has its
    wrap-around written out; a [byte] is a [Byte.byte]; byte strings are
    [list byte]; Go maps are [gmap]s; a Go [error] result is a [result].

    A method that mutates its receiver returns the receiver after the
    call.  The pool is modelled under its lock, one operation at a time;
    every [go pool.txFeed.Send(...)] adds its event to the list
    [txFeed], in the order in which the statements are run: each send
    is a goroutine of its own, so the list tells which events are sent
    and how many, not the order in which they arrive.  The reading of the clock
    ([time.Now]) is an argument [now] of the operations that promote,
    one reading for a call.  Logging and the metrics counters are left
    out. *)

From stdpp Require Import base decidable option list gmap strings sorting.
From Stdlib Require Import ZArith Lia.
From Stdlib Require Import Strings.Byte.

Local Open Scope Z_scope.

(** ** Bytes and big integers *)

Abbreviation byte := Byte.byte.

#[global] Instance byte_eq_dec : EqDecision byte := Byte.byte_eq_dec.

#[global] Instance byte_countable : Countable byte.
Proof.
  refine (inj_countable' Byte.to_N (λ n, default x00 (Byte.of_N n)) _).
  intros b. by rewrite Byte.of_to_N.
Defined.

(** The numeric value of a byte, in [0, 256). *)
Definition byte_val (b : byte) : Z := Z.of_N (Byte.to_N b).

(** Go's conversion [byte(x)] of an unsigned integer: truncation to the
    low eight bits. *)
Definition to_byte (z : Z) : byte :=
  default x00 (Byte.of_N (Z.to_N (z mod 256))).

(** Addition on [byte] wraps modulo 256. *)
Definition byte_add (a : byte) (k : Z) : byte := to_byte (byte_val a + k).

Definition two64 : Z := 2 ^ 64.

(** [big.Int.BitLen]: the length of the absolute value in bits, 0 for 0. *)
Definition BitLen (x : Z) : Z :=
  if decide (x = 0) then 0 else Z.log2 (Z.abs x) + 1.

(** [big.Int.Uint64]: the low 64 bits of the absolute value. *)
Definition Uint64 (x : Z) : Z := Z.abs x mod two64.

(** [big.Int.SetBytes]: the bytes read as a big-endian unsigned integer. *)
Definition SetBytes (bs : list byte) : Z :=
  fold_left (λ acc b, acc * 256 + byte_val b) bs 0.

Fixpoint le_bytes (fuel : nat) (n : Z) : list byte :=
  match fuel with
  | O => []
  | S fuel' =>
      if decide (n <= 0) then []
      else to_byte (n mod 256) :: le_bytes fuel' (n / 256)
  end.

(** [big.Int.Bytes]: the absolute value as a big-endian byte string
    without leading zeros. *)
Definition Bytes (x : Z) : list byte :=
  rev (le_bytes (S (Z.to_nat (Z.log2 (Z.abs x)))) (Z.abs x)).

(** ** Sorting

    Insertion into a list kept in ascending order of [key], after the
    entries of equal key. *)
Fixpoint insertBy {A} (key : A → Z) (x : A) (l : list A) : list A :=
  match l with
  | [] => [x]
  | y :: l' => if decide (key x < key y) then x :: l else y :: insertBy key x l'
  end.
Definition sortBy {A} (key : A → Z) (l : list A) : list A :=
  foldr (insertBy key) [] l.

(** ** Errors and results *)

Definition Hash := list byte.      (* types.Hash, [32]byte *)
Definition Address := list byte.   (* types.Address, [20]byte *)

Inductive error :=
  (* package transaction *)
  | ErrInvalidChainId
  | ErrInvalidSig
  | ErrInvalidPublicKey            (* errors.New("invalid public key") *)
  | ErrWrongSigSize (got : nat)    (* "wrong size for signature: got %d, want 65" *)
  | ErrCrypto (code : nat)         (* an error of the crypto library *)
  (* package txprocessor *)
  | ErrInvalidSender
  | ErrNonceTooLow
  | ErrWrongTransactionAmount
  | ErrInsufficientFunds
  | ErrNegativeValue
  | ErrOversizedData
  | ErrKnownTransaction (h : Hash) (* "known transaction: 0x%x" *)
  | ErrPoolFull                    (* "pool.all > config.GlobalQueue" *)
  | errNoActiveJournal.

Inductive result (A : Type) :=
  | Ok (a : A)
  | Err (e : error).
Arguments Ok {A} a.
Arguments Err {A} e.

Definition is_Ok {A} (r : result A) : bool :=
  match r with Ok _ => true | Err _ => false end.

(** ** External collaborators

    The hash function, the structured encoder and ECDSA over secp256k1
    are libraries outside the program; the development is parametric in
    them. *)

(** The values handed to [msgp.Writer.WriteIntf]. *)
Record txdata := {
  AccountNonce : Z;               (* uint64 *)
  Recipient : option Address;     (* nil: contract creation *)
  Amount : option Z;              (* *types.BigInt, may be nil *)
  Payload : list byte;
  tx_V : Z;                       (* Data.V, Data.R, Data.S: the signature *)
  tx_R : Z;
  tx_S : Z;
}.

Inductive intf :=
  | IUint64 (n : Z)
  | IAddress (a : Address)
  | IBigInt (z : option Z)
  | IBytes (bs : list byte)
  | IUint (n : Z)
  | ITxdata (d : txdata).

Class Crypto := {
  (** [sha3.NewKeccak256] / [crypto.Keccak256] *)
  Keccak256 : list byte → list byte;
  (** [msgp.Writer.WriteIntf] followed by [Flush] *)
  WriteIntf : intf → list byte;
  (** [crypto.Sign(hash, prv)]; a private key is its scalar *)
  Sign : list byte → Z → result (list byte);
  (** [crypto.Ecrecover(hash, sig)] *)
  Ecrecover : list byte → list byte → result (list byte);
  (** [crypto.FromECDSAPub(&prv.PublicKey)] *)
  FromECDSAPub : Z → list byte;
}.

(** * Package [transaction]: the signer *)

Section signer.
Context `{Crypto}.

Record MSigner := { chainId : Z; chainIdMul : Z }.

(** [sigCache] caches the derived sender and holds the signer used to
    derive it. *)
Record sigCache := { sc_signer : MSigner; sc_from : Address }.

(** A transaction: its data and the cache [tx.from]. *)
Record Transaction := { Data : txdata; from : option sigCache }.

Definition set_from (tx : Transaction) (c : option sigCache) : Transaction :=
  {| Data := Data tx; from := c |}.

(** [NewMSigner]; a nil chain id is read as zero. *)
Definition NewMSigner (chainId : option Z) : MSigner :=
  let chainId := default 0 chainId in
  {| chainId := chainId; chainIdMul := chainId * 2 |}.

(** [MakeSigner] returns a signer based on the given chain config and
    block number; of the config it reads [ChainId], and it uses the
    latest signer whatever the block number. *)
Definition MakeSigner (config : option Z) (blockNumber : Z) : MSigner :=
  NewMSigner config.

(** [MSigner.Equal]: [MSigner] is the only implementation of [Signer],
    so the type assertion succeeds and the chain ids are compared. *)
Definition MSigner_Equal (s s2 : MSigner) : bool :=
  bool_decide (chainId s2 = chainId s).

Definition big8 : Z := 8.

(** [deriveChainId] derives the chain id from the given v parameter. *)
Definition deriveChainId (v : Z) : Z :=
  if decide (BitLen v <= 64) then
    let v := Uint64 v in
    if decide (v = 27 ∨ v = 28) then 0
    else ((v - 35) mod two64) / 2
  else
    (v - 35) / 2.

(** Modelled from the spec: [Transaction.ChainId], of the missing
    [transaction.go]; the chain id a transaction embeds is the one its
    [v] encodes (section 3, "v encodes chain-id per 4.1"). *)
Definition ChainId (tx : Transaction) : Z := deriveChainId (tx_V (Data tx)).

(** [MSigner.Hash]: the hash to be signed by the sender. *)
Definition MSigner_Hash (s : MSigner) (tx : Transaction) : Hash :=
  let d := Data tx in
  let itfcs :=
    [ IUint64 (AccountNonce d);
      IAddress (default (replicate 20 x00) (Recipient d));
      IBigInt (Amount d);
      IBytes (Payload d);
      IBigInt (Some (chainId s)); IUint 0; IUint 0 ] in
  Keccak256 (concat (WriteIntf <$> itfcs)).

(** The order of the secp256k1 group and its half. *)
Definition secp256k1N : Z :=
  0xFFFFFFFFFFFFFFFFFFFFFFFFFFFFFFFEBAAEDCE6AF48A03BBFD25E8CD0364141.
Definition secp256k1halfN : Z := secp256k1N / 2.

(** Modelled from the spec: [crypto.ValidateSignatureValues], of the
    missing package [mjoy.io/utils/crypto]: r, s and the recovery id are
    checked against the curve order, with the homestead bound on s; the
    recovery id is 0 or 1 (section 4.1, sender recovery, step 3). *)
Definition ValidateSignatureValues (v : byte) (r s : Z) (homestead : bool) : bool :=
  if decide (r < 1 ∨ s < 1) then false
  else if homestead && bool_decide (s > secp256k1halfN) then false
  else bool_decide (r < secp256k1N) && bool_decide (s < secp256k1N)
       && (bool_decide (v = x00) || bool_decide (v = x01)).

(** [copy(sig[32-len(r):32], r)] into a zeroed buffer; the values that
    pass [ValidateSignatureValues] have at most 32 bytes. *)
Definition pad32 (bs : list byte) : list byte :=
  replicate (32 - length bs) x00 ++ bs.

(** [copy(addr[:], src)] into a zeroed [types.Address]. *)
Definition copy20 (src : list byte) : Address :=
  take 20 (src ++ replicate 20 x00).

Definition recoverPlain (sighash : Hash) (R S Vb : Z) (homestead : bool)
  : result Address :=
  if decide (BitLen Vb > 8) then Err ErrInvalidSig
  else
    let V := to_byte ((Uint64 Vb - 27) mod two64) in
    if negb (ValidateSignatureValues V R S homestead) then Err ErrInvalidSig
    else
      (* encode the signature in uncompressed format *)
      let sig := pad32 (Bytes R) ++ pad32 (Bytes S) ++ [V] in
      (* recover the public key from the signature *)
      match Ecrecover sighash sig with
      | Err e => Err e
      | Ok pub =>
          match pub with
          | [] => Err ErrInvalidPublicKey
          | tag :: key =>
              if decide (tag ≠ x04) then Err ErrInvalidPublicKey
              else Ok (copy20 (drop 12 (Keccak256 key)))
          end
      end.

(** [MSigner.Sender] *)
Definition MSigner_Sender (s : MSigner) (tx : Transaction) : result Address :=
  if decide (ChainId tx ≠ chainId s) then Err ErrInvalidChainId
  else
    let V := tx_V (Data tx) - chainIdMul s in
    let V := V - big8 in
    recoverPlain (MSigner_Hash s tx) (tx_R (Data tx)) (tx_S (Data tx)) V true.

(** [MSigner.SignatureValues]: the raw R, S, V values of a signature in
    the [R || S || V] format where V is 0 or 1. *)
Definition SignatureValues (s : MSigner) (tx : Transaction) (sig : list byte)
  : result (Z * Z * Z) :=
  if decide (length sig ≠ 65%nat) then Err (ErrWrongSigSize (length sig))
  else
    let v64 := default x00 (sig !! 64%nat) in
    let R := SetBytes (take 32 sig) in
    let S := SetBytes (take 32 (drop 32 sig)) in
    let V := SetBytes [byte_add v64 27] in
    let V :=
      if decide (Z.sgn (chainId s) ≠ 0)
      then byte_val (byte_add v64 35) + chainIdMul s
      else V in
    Ok (R, S, V).

(** Modelled from the spec: [Transaction.WithSignature], of the missing
    [transaction.go]: "a new transaction with the given signature"; the
    copy carries the signature values of the signer and no cached
    sender. *)
Definition WithSignature (tx : Transaction) (s : MSigner) (sig : list byte)
  : result Transaction :=
  match SignatureValues s tx sig with
  | Err e => Err e
  | Ok (r, s', v) =>
      let d := Data tx in
      Ok {| Data := {| AccountNonce := AccountNonce d; Recipient := Recipient d;
                       Amount := Amount d; Payload := Payload d;
                       tx_V := v; tx_R := r; tx_S := s' |};
            from := None |}
  end.

(** [SignTx] signs the transaction using the given signer and private key. *)
Definition SignTx (tx : Transaction) (s : MSigner) (prv : Z) : result Transaction :=
  let h := MSigner_Hash s tx in
  match Sign h prv with
  | Err e => Err e
  | Ok sig => WithSignature tx s sig
  end.

(** [Sender] returns the address derived from the signature.  It may
    use and it fills the cache [tx.from]; the second component is the
    transaction after the call. *)
Definition Sender (signer : MSigner) (tx : Transaction)
  : result Address * Transaction :=
  let derive :=
    match MSigner_Sender signer tx with
    | Err e => (Err e, tx)
    | Ok addr => (Ok addr, set_from tx (Some {| sc_signer := signer; sc_from := addr |}))
    end in
  match from tx with
  | Some sc =>
      (* a cache filled by another signer is invalidated *)
      if MSigner_Equal (sc_signer sc) signer then (Ok (sc_from sc), tx)
      else derive
  | None => derive
  end.

(** Modelled from the spec: [crypto.PubkeyToAddress], the address of a
    private key: "the low 20 bytes of Keccak-256 of the 64-byte public
    key (excluding the leading tag byte)". *)
Definition PubkeyToAddress (prv : Z) : Address :=
  copy20 (drop 12 (Keccak256 (drop 1 (FromECDSAPub prv)))).

(** The transactions that can exist for given data: a fresh one (as
    decoded or as returned by [WithSignature]), and whatever calls of
    [Sender] make of it. *)
Inductive cached (d : txdata) : Transaction → Prop :=
  | cached_fresh : cached d {| Data := d; from := None |}
  | cached_Sender tx c :
      cached d tx → cached d (Sender (NewMSigner c) tx).2.

End signer.

(** * Package [txprocessor]: the transaction pool *)

(** ** Configuration *)

(** A [time.Duration] is a number of nanoseconds, a [time.Time] a number
    of nanoseconds since the zero time. *)
Definition Second : Z := 1000000000.
Definition Hour : Z := 3600 * Second.

Record TxPoolConfig := {
  NoLocals : bool;      (* Whether local transaction handling should be disabled *)
  Journal : string;     (* Journal of local transactions to survive node restarts *)
  Rejournal : Z;        (* Time interval to regenerate the local transaction journal *)
  AccountSlots : Z;     (* uint64 *)
  GlobalSlots : Z;      (* uint64 *)
  AccountQueue : Z;     (* uint64 *)
  GlobalQueue : Z;      (* uint64 *)
  Lifetime : Z;         (* Maximum amount of time non-executable transaction are queued *)
}.

Definition DefaultTxPoolConfig : TxPoolConfig :=
  {| NoLocals := false;
     Journal := "transactions.msgp";
     Rejournal := Hour;
     AccountSlots := 16;
     GlobalSlots := 4096;
     AccountQueue := 64;
     GlobalQueue := 1024;
     Lifetime := 3 * Hour |}.

Definition set_Rejournal (conf : TxPoolConfig) (d : Z) : TxPoolConfig :=
  {| NoLocals := NoLocals conf; Journal := Journal conf; Rejournal := d;
     AccountSlots := AccountSlots conf; GlobalSlots := GlobalSlots conf;
     AccountQueue := AccountQueue conf; GlobalQueue := GlobalQueue conf;
     Lifetime := Lifetime conf |}.

(** [sanitize] checks the provided user configurations and changes
    anything that's unreasonable or unworkable. *)
Definition sanitize (config : TxPoolConfig) : TxPoolConfig :=
  let conf := config in
  if decide (Rejournal conf < Second) then set_Rejournal conf Second
  else conf.

(** ** Per-account transaction lists

    [tx_list.go] is not among the sources; the list is modelled from
    section 4.2 of the specification.  The nonce-keyed map is kept as a
    list in ascending nonce order with one entry per nonce, which is
    also the result of [Flatten]. *)

Definition Nonce (tx : Transaction) : Z := AccountNonce (Data tx).

(** Modelled from the spec: [Transaction.Value], the amount (section 3). *)
Definition Value (tx : Transaction) : option Z := Amount (Data tx).

(** Modelled from the spec: [Transaction.Cost], "cost (= amount, in this
    system)". *)
Definition Cost (tx : Transaction) : Z := default 0 (Amount (Data tx)).

#[global] Instance txdata_eq_dec : EqDecision txdata.
Proof. solve_decision. Defined.

Record txList := { strict : bool; items : list Transaction }.

Definition newTxList (strict : bool) : txList :=
  {| strict := strict; items := [] |}.

Definition set_items (l : txList) (its : list Transaction) : txList :=
  {| strict := strict l; items := its |}.

(** [txSortedMap.Get]: the entry at a nonce. *)
Definition txList_Get (l : txList) (nonce : Z) : option Transaction :=
  find (λ t, bool_decide (Nonce t = nonce)) (items l).

(** Modelled from the spec: [txList.Add(tx, priceBump)] inserts tx at
    its nonce; "any replacement is accepted because fee logic is absent;
    old is returned if a prior tx existed at that nonce".  Returns
    (inserted, displaced or none) and the list after the call. *)
Definition txList_Add (l : txList) (tx : Transaction) (priceBump : Z)
  : bool * option Transaction * txList :=
  let old := txList_Get l (Nonce tx) in
  let others := filter (λ t, Nonce t ≠ Nonce tx) (items l) in
  (true, old, set_items l (insertBy Nonce tx others)).

(** Modelled from the spec: [Overlaps(tx)] is true iff a tx already
    exists at that nonce. *)
Definition Overlaps (l : txList) (tx : Transaction) : bool :=
  bool_decide (is_Some (txList_Get l (Nonce tx))).

(** Modelled from the spec: [Forward(threshold)] removes and returns
    every tx with nonce < threshold. *)
Definition Forward (l : txList) (threshold : Z) : list Transaction * txList :=
  (filter (λ t, Nonce t < threshold) (items l),
   set_items l (filter (λ t, ¬ Nonce t < threshold) (items l))).

(** Modelled from the spec: [Filter(balance, gasLimit)] removes every tx
    whose cost > balance; for strict lists it also removes every tx
    whose nonce is after the first removed nonce, returned as invalids. *)
Definition Filter (l : txList) (costLimit : Z) (gasLimit : Z)
  : list Transaction * list Transaction * txList :=
  let removed := filter (λ t, Cost t > costLimit) (items l) in
  let kept := filter (λ t, ¬ Cost t > costLimit) (items l) in
  match removed with
  | first :: _ =>
      if strict l then
        (removed, filter (λ t, Nonce t > Nonce first) kept,
         set_items l (filter (λ t, ¬ Nonce t > Nonce first) kept))
      else (removed, [], set_items l kept)
  | [] => ([], [], set_items l kept)
  end.

Fixpoint run_from (next : Z) (l : list Transaction)
  : list Transaction * list Transaction :=
  match l with
  | t :: l' =>
      if decide (Nonce t = next)
      then let '(r, rest) := run_from (next + 1) l' in (t :: r, rest)
      else ([], l)
  | [] => ([], [])
  end.

(** Modelled from the spec: [Ready(startNonce)] removes and returns the
    contiguous prefix starting at startNonce (no gaps). *)
Definition Ready (l : txList) (start : Z) : list Transaction * txList :=
  let below := filter (λ t, Nonce t < start) (items l) in
  let '(ready, rest) := run_from start (filter (λ t, ¬ Nonce t < start) (items l)) in
  (ready, set_items l (below ++ rest)).

(** Modelled from the spec: [Cap(n)] trims to the n lowest nonces,
    returning the removed overflow. *)
Definition Cap (l : txList) (threshold : Z) : list Transaction * txList :=
  (drop (Z.to_nat threshold) (items l),
   set_items l (take (Z.to_nat threshold) (items l))).

(** Modelled from the spec: [Remove(tx)] removes the exact tx; for
    strict lists the txs of subsequent nonces are returned as invalids.
    Returns (removed, invalids) and the list after the call. *)
Definition txList_Remove (l : txList) (tx : Transaction)
  : bool * list Transaction * txList :=
  match txList_Get l (Nonce tx) with
  | Some t =>
      if decide (Data t = Data tx) then
        let others := filter (λ t, Nonce t ≠ Nonce tx) (items l) in
        if strict l then
          (true, filter (λ t, Nonce t > Nonce tx) others,
           set_items l (filter (λ t, ¬ Nonce t > Nonce tx) others))
        else (true, [], set_items l others)
      else (false, [], l)
  | None => (false, [], l)
  end.

Definition Flatten (l : txList) : list Transaction := items l.
Definition Len (l : txList) : Z := Z.of_nat (length (items l)).
Definition Empty (l : txList) : bool := bool_decide (Len l = 0).

(** ** Collaborators of the pool *)

(** Modelled from the spec: the StateDB collaborator (section 6),
    [GetNonce(address)] and [GetBalance(address)]; an account that the
    state does not hold has nonce 0 and balance 0. *)
Record StateDB := { nonces : gmap Address Z; balances : gmap Address Z }.

Definition GetNonce (db : StateDB) (addr : Address) : Z :=
  default 0 (nonces db !! addr).
Definition GetBalance (db : StateDB) (addr : Address) : Z :=
  default 0 (balances db !! addr).

(** Modelled from the spec: the ManagedState collaborator (section 6),
    "an in-memory overlay that never writes back". *)
Record ManagedState := { ms_db : StateDB; ms_nonces : gmap Address Z }.

Definition ManageState (db : StateDB) : ManagedState :=
  {| ms_db := db; ms_nonces := ∅ |}.
Definition ms_GetNonce (ms : ManagedState) (addr : Address) : Z :=
  match ms_nonces ms !! addr with
  | Some n => n
  | None => GetNonce (ms_db ms) addr
  end.
Definition ms_SetNonce (ms : ManagedState) (addr : Address) (nonce : Z)
  : ManagedState :=
  {| ms_db := ms_db ms; ms_nonces := <[addr := nonce]> (ms_nonces ms) |}.

(** The blockchain collaborator ([blockChain]).  [Header.Hash()] is kept
    as a field. *)
Record Header := {
  HeaderHash : Hash; ParentHash : Hash; Number : Z; StateHash : Hash;
}.
Record Block := { BlockHeader : Header; Transactions : list Transaction }.
Record blockChain := {
  CurrentBlock : Block;
  GetBlock : Hash → Z → option Block;
  StateAt : Hash → result StateDB;
}.

(** ** The journal ([tx_journal.go])

    The journal file is part of the record: [file] is the content of
    the file at [path] ([None]: no such file), as the sequence of
    transactions written to it; for the file found at start, as the
    sequence of transactions that [load] decodes from it.  Operations
    of the file system are taken to succeed. *)
Inductive WriteCloser := devNull | fileSink.

Record txJournal := {
  path : string;
  writer : option WriteCloser;
  file : option (list Transaction);
}.

Definition newTxJournal (path : string) (disk : option (list Transaction))
  : txJournal :=
  {| path := path; writer := None; file := disk |}.

(** [insert] adds the specified transaction to the local disk journal. *)
Definition journal_insert (journal : txJournal) (tx : Transaction)
  : txJournal * option error :=
  match writer journal with
  | None => (journal, Some errNoActiveJournal)
  | Some devNull => (journal, None)
  | Some fileSink =>
      ({| path := path journal; writer := writer journal;
          file := Some (default [] (file journal) ++ [tx]) |}, None)
  end.

(** [rotate] regenerates the transaction journal based on the current
    contents of the transaction pool.  [all] is the map of the source as
    the list of its entries in the order in which the loop ranges over
    them, an order that the source does not fix. *)
Definition journal_rotate (journal : txJournal)
    (all : list (Address * list Transaction)) : txJournal :=
  {| path := path journal; writer := Some fileSink;
     file := Some (concat (snd <$> all)) |}.

(** [close] flushes the transaction journal contents to disk and closes
    the file. *)
Definition journal_close (journal : txJournal) : txJournal :=
  {| path := path journal; writer := None; file := file journal |}.

(** ** The pool state *)

Record TxPool := {
  config : TxPoolConfig;
  chain : blockChain;
  signer : MSigner;
  currentState : StateDB;        (* Current state in the blockchain head *)
  pendingState : ManagedState;   (* Pending state tracking virtual nonces *)
  locals : gset Address;         (* Set of local senders to exempt from eviction rules *)
  journal : option txJournal;    (* Journal of local transaction to back up to disk *)
  pending : gmap Address txList; (* All currently processable transactions *)
  queue : gmap Address txList;   (* Queued but non-processable transactions *)
  beats : gmap Address Z;        (* Last heartbeat from each known account *)
  all : gmap Hash Transaction;   (* All transactions to allow lookups *)
  txFeed : list Transaction;     (* The [TxPreEvent]s handed to the feed *)
}.

Definition set_states (p : TxPool) (cs : StateDB) (ps : ManagedState) : TxPool :=
  {| config := config p; chain := chain p; signer := signer p;
     currentState := cs; pendingState := ps; locals := locals p;
     journal := journal p; pending := pending p; queue := queue p;
     beats := beats p; all := all p; txFeed := txFeed p |}.
Definition set_pendingState (p : TxPool) (ps : ManagedState) : TxPool :=
  set_states p (currentState p) ps.
Definition set_locals (p : TxPool) (ls : gset Address) : TxPool :=
  {| config := config p; chain := chain p; signer := signer p;
     currentState := currentState p; pendingState := pendingState p; locals := ls;
     journal := journal p; pending := pending p; queue := queue p;
     beats := beats p; all := all p; txFeed := txFeed p |}.
Definition set_journal (p : TxPool) (j : option txJournal) : TxPool :=
  {| config := config p; chain := chain p; signer := signer p;
     currentState := currentState p; pendingState := pendingState p; locals := locals p;
     journal := j; pending := pending p; queue := queue p;
     beats := beats p; all := all p; txFeed := txFeed p |}.
Definition set_pending (p : TxPool) (m : gmap Address txList) : TxPool :=
  {| config := config p; chain := chain p; signer := signer p;
     currentState := currentState p; pendingState := pendingState p; locals := locals p;
     journal := journal p; pending := m; queue := queue p;
     beats := beats p; all := all p; txFeed := txFeed p |}.
Definition set_queue (p : TxPool) (m : gmap Address txList) : TxPool :=
  {| config := config p; chain := chain p; signer := signer p;
     currentState := currentState p; pendingState := pendingState p; locals := locals p;
     journal := journal p; pending := pending p; queue := m;
     beats := beats p; all := all p; txFeed := txFeed p |}.
Definition set_beats (p : TxPool) (m : gmap Address Z) : TxPool :=
  {| config := config p; chain := chain p; signer := signer p;
     currentState := currentState p; pendingState := pendingState p; locals := locals p;
     journal := journal p; pending := pending p; queue := queue p;
     beats := m; all := all p; txFeed := txFeed p |}.
Definition set_all (p : TxPool) (m : gmap Hash Transaction) : TxPool :=
  {| config := config p; chain := chain p; signer := signer p;
     currentState := currentState p; pendingState := pendingState p; locals := locals p;
     journal := journal p; pending := pending p; queue := queue p;
     beats := beats p; all := m; txFeed := txFeed p |}.
Definition set_txFeed (p : TxPool) (evs : list Transaction) : TxPool :=
  {| config := config p; chain := chain p; signer := signer p;
     currentState := currentState p; pendingState := pendingState p; locals := locals p;
     journal := journal p; pending := pending p; queue := queue p;
     beats := beats p; all := all p; txFeed := evs |}.

(** [go pool.txFeed.Send(core.TxPreEvent{tx})]: the event is handed to
    the feed; the goroutines deliver in no fixed order. *)
Definition send (p : TxPool) (tx : Transaction) : TxPool :=
  set_txFeed p (txFeed p ++ [tx]).

Section pool.
Context `{Crypto}.

(** [msgpHash] (package common): the Keccak-256 of the encoding. *)
Definition msgpHash (x : intf) : Hash := Keccak256 (WriteIntf x).

(** Modelled from the spec: [Transaction.Hash], "Keccak-256 of canonical
    encoding incl. signature" (section 3). *)
Definition tx_Hash (tx : Transaction) : Hash := msgpHash (ITxdata (Data tx)).

(** Modelled from the spec: [Transaction.Size], "byte length of
    encoding" (section 3). *)
Definition tx_Size (tx : Transaction) : Z :=
  Z.of_nat (length (WriteIntf (ITxdata (Data tx)))).

Definition zeroAddress : Address := replicate 20 x00.

(** [from, _ := transaction.Sender(pool.signer, tx)]: the address, or
    the zero address when the error is dropped.  Only the result is
    kept: the call may fill [tx.from], which does not change any later
    result (lemma [Sender_again]). *)
Definition pool_Sender (pool : TxPool) (tx : Transaction) : result Address :=
  (Sender (signer pool) tx).1.

Definition sender_of (pool : TxPool) (tx : Transaction) : Address :=
  match pool_Sender pool tx with
  | Ok addr => addr
  | Err _ => zeroAddress
  end.

(** [accountSet.contains] *)
Definition contains (accounts : gset Address) (addr : Address) : bool :=
  bool_decide (addr ∈ accounts).

(** [accountSet.containsTx] *)
Definition containsTx (pool : TxPool) (tx : Transaction) : bool :=
  match pool_Sender pool tx with
  | Ok addr => contains (locals pool) addr
  | Err _ => false
  end.

(** [accountSet.add] *)
Definition accountSet_add (accounts : gset Address) (addr : Address)
  : gset Address :=
  {[ addr ]} ∪ accounts.

(** [stats] retrieves the number of pending and the number of queued
    transactions. *)
Definition stats (pool : TxPool) : Z * Z :=
  (foldr (λ al n, Len al.2 + n) 0 (map_to_list (pending pool)),
   foldr (λ al n, Len al.2 + n) 0 (map_to_list (queue pool))).

(** [local] retrieves all currently known local transactions, grouped by
    origin account and sorted by nonce. *)
Definition local (pool : TxPool) : list (Address * list Transaction) :=
  (λ addr,
     (addr, from_option Flatten [] (pending pool !! addr)
            ++ from_option Flatten [] (queue pool !! addr)))
  <$> filter (λ addr, is_Some (pending pool !! addr) ∨ is_Some (queue pool !! addr))
             (elements (locals pool)).

(** [validateTx] checks whether a transaction is valid according to the
    consensus rules and adheres to some heuristic limits of the local
    node. *)
Definition validateTx (pool : TxPool) (tx : Transaction) (local : bool)
  : option error :=
  (* Heuristic limit, reject transactions over 32KB to prevent DOS attacks *)
  if decide (tx_Size tx > 32 * 1024) then Some ErrOversizedData
  else
    match Value tx with
    | None => Some ErrWrongTransactionAmount
    | Some value =>
        if decide (Z.sgn value < 0) then Some ErrNegativeValue
        else
          (* Make sure the transaction is signed properly *)
          match pool_Sender pool tx with
          | Err _ => Some ErrInvalidSender
          | Ok from =>
              (* Ensure the transaction adheres to nonce ordering *)
              if decide (GetNonce (currentState pool) from > Nonce tx)
              then Some ErrNonceTooLow
              (* Transactor should have enough funds to cover the costs *)
              else if decide (GetBalance (currentState pool) from < Cost tx)
              then Some ErrInsufficientFunds
              else None
          end
    end.

(** [journalTx] adds the specified transaction to the local disk journal
    if it is deemed to have been sent from a local account. *)
Definition journalTx (pool : TxPool) (from : Address) (tx : Transaction)
  : TxPool :=
  match journal pool with
  | None => pool
  | Some j =>
      if negb (contains (locals pool) from) then pool
      else set_journal pool (Some (journal_insert j tx).1)
  end.

(** [enqueueTx] inserts a new transaction into the non-executable
    transaction queue. *)
Definition enqueueTx (pool : TxPool) (hash : Hash) (tx : Transaction)
  : TxPool * bool :=
  let from := sender_of pool tx in
  let list := default (newTxList false) (queue pool !! from) in
  let '(_, old, list) := txList_Add list tx 0 in
  let pool := set_queue pool (<[from := list]> (queue pool)) in
  match old with
  | Some _ => (pool, true)
  | None => (set_all pool (<[hash := tx]> (all pool)), false)
  end.

(** [add] validates a transaction and inserts it into the non-executable
    queue for later pending promotion and execution. *)
Definition add (pool : TxPool) (tx : Transaction) (local : bool)
  : TxPool * result bool :=
  (* If the transaction is already known, discard it *)
  let hash := tx_Hash tx in
  if decide (is_Some (all pool !! hash)) then (pool, Err (ErrKnownTransaction hash))
  else
    (* If the transaction fails basic validation, discard it *)
    match validateTx pool tx local with
    | Some err => (pool, Err err)
    | None =>
        if decide (Z.of_nat (size (all pool)) mod two64
                   >= (GlobalSlots (config pool) + GlobalQueue (config pool)) mod two64)
        then (pool, Err ErrPoolFull)
        else
          let from := sender_of pool tx in
          let enqueue :=
            (* New transaction isn't replacing a pending one, push into queue *)
            let '(pool, replace) := enqueueTx pool hash tx in
            (* Mark local addresses and journal local transactions *)
            let pool :=
              if local then set_locals pool (accountSet_add (locals pool) from)
              else pool in
            let pool := journalTx pool from tx in
            (pool, Ok replace) in
          match pending pool !! from with
          | Some list =>
              if Overlaps list tx then
                (* the transaction is replacing an already pending one *)
                let '(_, old, list) := txList_Add list tx 0 in
                let pool := set_pending pool (<[from := list]> (pending pool)) in
                match old with
                | Some _ => (pool, Ok true)
                | None =>
                    let pool := set_all pool (<[tx_Hash tx := tx]> (all pool)) in
                    let pool := journalTx pool from tx in
                    (send pool tx, Ok true)
                end
              else enqueue
          | None => enqueue
          end
    end.

(** [promoteTx] adds a transaction to the pending (processable) list of
    transactions.  [now] is the reading of the clock. *)
Definition promoteTx (now : Z) (pool : TxPool) (addr : Address) (hash : Hash)
    (tx : Transaction) : TxPool :=
  let list := default (newTxList true) (pending pool !! addr) in
  let '(inserted, old, list) := txList_Add list tx 0 in
  let pool := set_pending pool (<[addr := list]> (pending pool)) in
  if negb inserted then
    (* An older transaction was better, discard this *)
    set_all pool (delete hash (all pool))
  else
    (* Failsafe to work around direct pending inserts (tests) *)
    let pool :=
      if decide (all pool !! hash = None)
      then set_all pool (<[hash := tx]> (all pool)) else pool in
    (* Set the potentially new pending nonce and notify any subsystems *)
    let pool := set_beats pool (<[addr := now]> (beats pool)) in
    let pool :=
      set_pendingState pool
        (ms_SetNonce (pendingState pool) addr ((Nonce tx + 1) mod two64)) in
    send pool tx.

(** [removeTx] removes a single transaction from the queue, moving all
    subsequent transactions back to the future queue. *)
Definition removeTx (pool : TxPool) (hash : Hash) : TxPool :=
  match all pool !! hash with
  | None => pool
  | Some tx =>
      let addr := sender_of pool tx in
      (* Remove it from the list of known transactions *)
      let pool := set_all pool (delete hash (all pool)) in
      let future (pool : TxPool) :=
        (* Transaction is in the future queue *)
        match queue pool !! addr with
        | Some future =>
            let future := (txList_Remove future tx).2 in
            if Empty future then set_queue pool (delete addr (queue pool))
            else set_queue pool (<[addr := future]> (queue pool))
        | None => pool
        end in
      match pending pool !! addr with
      | Some pending_list =>
          let '(removed, invalids, pending_list) := txList_Remove pending_list tx in
          if removed then
            let pool := set_pending pool (<[addr := pending_list]> (pending pool)) in
            let pool :=
              (* If no more transactions are left, remove the list *)
              if Empty pending_list then
                set_beats (set_pending pool (delete addr (pending pool)))
                          (delete addr (beats pool))
              else
                (* Otherwise postpone any invalidated transactions *)
                foldl (λ pool tx, (enqueueTx pool (tx_Hash tx) tx).1) pool invalids in
            (* Update the account nonce if needed *)
            if decide (ms_GetNonce (pendingState pool) addr > Nonce tx)
            then set_pendingState pool (ms_SetNonce (pendingState pool) addr (Nonce tx))
            else pool
          else future pool
      | None => future pool
      end
  end.

(** Deleting the hashes of dropped transactions from [pool.all]. *)
Definition forget (pool : TxPool) (txs : list Transaction) : TxPool :=
  foldl (λ pool tx, set_all pool (delete (tx_Hash tx) (all pool))) pool txs.

(** The conversion [int(x)] of a [uint64]. *)
Definition to_int (x : Z) : Z :=
  if decide (x mod two64 < 2 ^ 63) then x mod two64 else x mod two64 - two64.

(** The first loop of [promoteExecutables], for one account. *)
Definition promoteAccount (now : Z) (pool : TxPool) (addr : Address) : TxPool :=
  match queue pool !! addr with
  | None => pool (* Just in case someone calls with a non existing account *)
  | Some list =>
      (* Drop all transactions that are deemed too old (low nonce) *)
      let '(olds, list) := Forward list (GetNonce (currentState pool) addr) in
      let pool := forget pool olds in
      (* Drop all transactions that are too costly (low balance) *)
      let '(drops, _, list) := Filter list (GetBalance (currentState pool) addr) 0 in
      let pool := forget pool drops in
      (* Gather all executable transactions and promote them *)
      let '(readies, list) := Ready list (ms_GetNonce (pendingState pool) addr) in
      let pool :=
        foldl (λ pool tx, promoteTx now pool addr (tx_Hash tx) tx) pool readies in
      (* Drop all transactions over the allowed limit *)
      let '(pool, list) :=
        if negb (contains (locals pool) addr) then
          let '(caps, list) := Cap list (to_int (AccountQueue (config pool))) in
          (forget pool caps, list)
        else (pool, list) in
      (* Delete the entire queue entry if it became empty. *)
      if Empty list then set_queue pool (delete addr (queue pool))
      else set_queue pool (<[addr := list]> (queue pool))
  end.

(** [list.Cap(list.Len() - 1)] on the pending list of an offender, with
    the bookkeeping of the dropped transaction. *)
Definition dropLast (pool : TxPool) (addr : Address) : TxPool :=
  let list := default (newTxList true) (pending pool !! addr) in
  let '(caps, list) := Cap list (Len list - 1) in
  let pool := set_pending pool (<[addr := list]> (pending pool)) in
  foldl (λ pool tx,
           (* Drop the transaction from the global pools too *)
           let pool := set_all pool (delete (tx_Hash tx) (all pool)) in
           (* Update the account nonce to the dropped transaction *)
           if decide (ms_GetNonce (pendingState pool) addr > Nonce tx)
           then set_pendingState pool (ms_SetNonce (pendingState pool) addr (Nonce tx))
           else pool)
        pool caps.

Definition pendingLen (pool : TxPool) (addr : Address) : Z :=
  from_option Len 0 (pending pool !! addr).

(** One round over [offenders]: every list loses its last transaction
    and [pending] is decremented. *)
Definition shrinkAll (pool : TxPool) (pending : Z) (offenders : list Address)
  : TxPool * Z :=
  foldl (λ '(pool, pending) addr, (dropLast pool addr, (pending - 1) mod two64))
        (pool, pending) offenders.

(** [for pending > GlobalSlots && pool.pending[last].Len() > threshold]:
    every round shortens the list of [last] by one, so the loop runs at
    most as many rounds as that list is long; [fuel] is that length. *)
Fixpoint equalize (fuel : nat) (pool : TxPool) (pending : Z)
    (round : list Address) (last : Address) (threshold : Z) : TxPool * Z :=
  match fuel with
  | O => (pool, pending)
  | S fuel =>
      if decide (pending > GlobalSlots (config pool) ∧ pendingLen pool last > threshold)
      then
        let '(pool, pending) := shrinkAll pool pending round in
        equalize fuel pool pending round last threshold
      else (pool, pending)
  end.

(** Gradually drop transactions from offenders: [spammers] in the order
    in which the priority queue pops them. *)
Fixpoint penalize (spammers : list Address) (offenders : list Address)
    (pool : TxPool) (pending : Z) : TxPool * Z * list Address :=
  match spammers with
  | [] => (pool, pending, offenders)
  | offender :: spammers =>
      if decide (pending > GlobalSlots (config pool)) then
        (* Retrieve the next offender if not local address *)
        let offenders := offenders ++ [offender] in
        (* Equalize balances until all the same or below threshold *)
        let '(pool, pending) :=
          match last (removelast offenders) with
          | Some prev =>
              (* Calculate the equalization threshold for all current offenders *)
              let threshold := pendingLen pool offender in
              equalize (Z.to_nat (pendingLen pool prev)) pool pending
                       (removelast offenders) prev threshold
          | None => (pool, pending)
          end in
        penalize spammers offenders pool pending
      else (pool, pending, offenders)
  end.

(** The pending limit of [promoteExecutables].  Go leaves the order of a
    map iteration and of equal priorities open; here the accounts are
    taken in the order of [map_to_list] and popped by decreasing length
    of their list. *)
Definition enforcePendingLimit (pool : TxPool) : TxPool :=
  let total := (stats pool).1 mod two64 in
  if decide (total > GlobalSlots (config pool)) then
    (* Assemble a spam order to penalize large transactors first *)
    let spammers :=
      sortBy (λ addr, - pendingLen pool addr)
        (filter (λ addr, ¬ contains (locals pool) addr
                         ∧ pendingLen pool addr > AccountSlots (config pool))
                (map_to_list (pending pool)).*1) in
    let '(pool, total, offenders) := penalize spammers [] pool total in
    (* If still above threshold, reduce to limit or min allowance *)
    match last offenders with
    | Some lastOffender =>
        (equalize (Z.to_nat (pendingLen pool lastOffender)) pool total
                  offenders lastOffender (AccountSlots (config pool))).1
    | None => pool
    end
  else pool.

(** [addressByHeartbeat] is an account address tagged with its last
    activity timestamp. *)
Record addressByHeartbeat := { address : Address; heartbeat : Z }.

(** [for i := len(txs) - 1; i >= 0 && drop > 0; i--]: [txs] comes
    reversed. *)
Fixpoint dropTail (pool : TxPool) (txs : list Transaction) (drop : Z)
  : TxPool * Z :=
  match txs with
  | [] => (pool, drop)
  | tx :: txs =>
      if decide (drop > 0)
      then dropTail (removeTx pool (tx_Hash tx)) txs (drop - 1)
      else (pool, drop)
  end.

(** Drop transactions until the total is below the limit or only locals
    remain.  The loop takes [addresses[len(addresses)-1]] and shortens
    the slice: it walks the sorted slice from its end, so [addresses]
    comes reversed. *)
Fixpoint evict (addresses : list addressByHeartbeat) (drop : Z) (pool : TxPool)
  : TxPool :=
  match addresses with
  | [] => pool
  | addr :: addresses =>
      if decide (drop > 0) then
        let list := default (newTxList false) (queue pool !! address addr) in
        let size := Len list in
        (* Drop all transactions if they are less than the overflow *)
        if decide (size <= drop) then
          let pool := foldl (λ pool tx, removeTx pool (tx_Hash tx)) pool (Flatten list) in
          evict addresses (drop - size) pool
        else
          (* Otherwise drop only last few transactions *)
          let '(pool, drop) := dropTail pool (reverse (Flatten list)) drop in
          evict addresses drop pool
      else pool
  end.

(** [sort.Sort(addresses)] with [Less] the order of the heartbeats; of
    the orders that [sort.Sort] may produce for equal heartbeats the
    stable one is taken. *)
Definition sortByHeartbeat (l : list addressByHeartbeat) : list addressByHeartbeat :=
  sortBy heartbeat l.

(** The queue limit of [promoteExecutables]. *)
Definition enforceQueueLimit (pool : TxPool) : TxPool :=
  let queued := (stats pool).2 mod two64 in
  if decide (queued > GlobalQueue (config pool)) then
    (* Sort all accounts with queued transactions by heartbeat *)
    let addresses :=
      (λ addr, {| address := addr; heartbeat := default 0 (beats pool !! addr) |})
      <$> filter (λ addr, ¬ contains (locals pool) addr) (* don't drop locals *)
                 (map_to_list (queue pool)).*1 in
    let addresses := sortByHeartbeat addresses in
    evict (reverse addresses) (queued - GlobalQueue (config pool)) pool
  else pool.

(** [promoteExecutables] moves transactions that have become processable
    from the future queue to the set of pending transactions. *)
Definition promoteExecutables (now : Z) (pool : TxPool)
    (accounts : option (list Address)) : TxPool :=
  (* Gather all the accounts potentially needing updates *)
  let accounts := default (map_to_list (queue pool)).*1 accounts in
  (* Iterate over all accounts and promote any executable transactions *)
  let pool := foldl (promoteAccount now) pool accounts in
  (* If the pending limit is overflown, start equalizing allowances *)
  let pool := enforcePendingLimit pool in
  (* If we've queued more transactions than the hard limit, drop oldest ones *)
  enforceQueueLimit pool.

(** The body of the loop of [demoteUnexecutables], for one account. *)
Definition demoteAccount (pool : TxPool) (addr : Address) : TxPool :=
  match pending pool !! addr with
  | None => pool
  | Some list =>
      let nonce := GetNonce (currentState pool) addr in
      (* Drop all transactions that are deemed too old (low nonce) *)
      let '(olds, list) := Forward list nonce in
      let pool := forget pool olds in
      (* Drop all transactions that are too costly (low balance), and
         queue any invalids back for later *)
      let '(drops, invalids, list) :=
        Filter list (GetBalance (currentState pool) addr) 0 in
      let pool := forget pool drops in
      let pool :=
        foldl (λ pool tx, (enqueueTx pool (tx_Hash tx) tx).1) pool invalids in
      (* If there's a gap in front, warn (should never happen) and
         postpone all transactions *)
      let '(pool, list) :=
        if decide (Len list > 0 ∧ txList_Get list nonce = None) then
          let '(caps, list) := Cap list 0 in
          (foldl (λ pool tx, (enqueueTx pool (tx_Hash tx) tx).1) pool caps, list)
        else (pool, list) in
      (* Delete the entire queue entry if it became empty. *)
      if Empty list then
        set_beats (set_pending pool (delete addr (pending pool)))
                  (delete addr (beats pool))
      else set_pending pool (<[addr := list]> (pending pool))
  end.

(** [demoteUnexecutables] removes invalid and processed transactions
    from the pools executable/pending queue and any subsequent
    transactions that become unexecutable are moved back into the
    future queue. *)
Definition demoteUnexecutables (pool : TxPool) : TxPool :=
  foldl demoteAccount pool (map_to_list (pending pool)).*1.

(** [addTx] enqueues a single transaction into the pool if it is valid. *)
Definition addTx (now : Z) (pool : TxPool) (tx : Transaction) (local : bool)
  : TxPool * option error :=
  (* Try to inject the transaction and update any state *)
  match add pool tx local with
  | (pool, Err err) => (pool, Some err)
  | (pool, Ok replace) =>
      (* If we added a new transaction, run promotion checks and return *)
      if negb replace then
        let from := sender_of pool tx in
        (promoteExecutables now pool (Some [from]), None)
      else (pool, None)
  end.

(** [addTxsLocked] attempts to queue a batch of transactions if they
    are valid, whilst assuming the transaction pool lock is already
    held. *)
Definition addTxsLocked (now : Z) (pool : TxPool) (txs : list Transaction)
    (local : bool) : TxPool * list (option error) :=
  (* Add the batch of transaction, tracking the accepted ones *)
  let '(pool, dirty, errs) :=
    foldl (λ '(pool, dirty, errs) tx,
             match add pool tx local with
             | (pool, Ok replace) =>
                 if negb replace
                 then (pool, {[ sender_of pool tx ]} ∪ dirty, errs ++ [None])
                 else (pool, dirty, errs ++ [None])
             | (pool, Err err) => (pool, dirty, errs ++ [Some err])
             end)
          (pool, (∅ : gset Address), []) txs in
  (* Only reprocess the internal state if something was actually added *)
  if decide (dirty ≠ ∅)
  then (promoteExecutables now pool (Some (elements dirty)), errs)
  else (pool, errs).

(** [addTxs] attempts to queue a batch of transactions if they are valid. *)
Definition addTxs := addTxsLocked.

(** [AddLocal] enqueues a single transaction into the pool if it is
    valid, marking the sender as a local one in the mean time. *)
Definition AddLocal (now : Z) (pool : TxPool) (tx : Transaction)
  : TxPool * option error :=
  addTx now pool tx (negb (NoLocals (config pool))).

(** [AddRemote] enqueues a single transaction into the pool if it is valid. *)
Definition AddRemote (now : Z) (pool : TxPool) (tx : Transaction)
  : TxPool * option error :=
  addTx now pool tx false.

(** [AddLocals] enqueues a batch of transactions into the pool if they
    are valid. *)
Definition AddLocals (now : Z) (pool : TxPool) (txs : list Transaction)
  : TxPool * list (option error) :=
  addTxs now pool txs (negb (NoLocals (config pool))).

(** [AddRemotes] enqueues a batch of transactions into the pool if they
    are valid. *)
Definition AddRemotes (now : Z) (pool : TxPool) (txs : list Transaction)
  : TxPool * list (option error) :=
  addTxs now pool txs false.

(** [TxStatus] is the current status of a transaction as seen by the pool. *)
Inductive TxStatus :=
  TxStatusUnknown | TxStatusQueued | TxStatusPending | TxStatusIncluded.

(** [Status] returns the status (unknown/pending/queued) of a batch of
    transactions identified by their hashes. *)
Definition Status (pool : TxPool) (hashes : list Hash) : list TxStatus :=
  (λ hash,
     match all pool !! hash with
     | Some tx =>
         let from := sender_of pool tx in
         match pending pool !! from with
         | Some list =>
             if decide (is_Some (txList_Get list (Nonce tx)))
             then TxStatusPending else TxStatusQueued
         | None => TxStatusQueued
         end
     | None => TxStatusUnknown
     end) <$> hashes.

(** [Get] returns a transaction if it is contained in the pool and nil
    otherwise. *)
Definition Get (pool : TxPool) (hash : Hash) : option Transaction :=
  all pool !! hash.

(** [State] returns the virtual managed state of the transaction pool. *)
Definition State (pool : TxPool) : ManagedState := pendingState pool.

(** [Stats] retrieves the current pool stats, namely the number of
    pending and the number of queued (non-executable) transactions. *)
Definition Stats (pool : TxPool) : Z * Z := stats pool.

(** [Content] retrieves the data content of the transaction pool,
    returning all the pending as well as queued transactions, grouped
    by account and sorted by nonce. *)
Definition Content (pool : TxPool)
  : gmap Address (list Transaction) * gmap Address (list Transaction) :=
  (Flatten <$> pending pool, Flatten <$> queue pool).

(** [Pending] retrieves all currently processable transactions, grouped
    by origin account and sorted by nonce; its error is always nil. *)
Definition Pending (pool : TxPool) : gmap Address (list Transaction) :=
  Flatten <$> pending pool.

(** [Stop] terminates the transaction pool: of the state kept here it
    closes the journal. *)
Definition Stop (pool : TxPool) : TxPool :=
  set_journal pool (journal_close <$> journal pool).

(** Handle inactive account transaction eviction: the [evict.C] case of
    [loop]. *)
Definition evictTick (now : Z) (pool : TxPool) : TxPool :=
  foldl (λ pool addr,
           (* Skip local transactions from the eviction mechanism *)
           if contains (locals pool) addr then pool
           (* Any non-locals old enough should be removed *)
           else if decide (now - default 0 (beats pool !! addr)
                           > Lifetime (config pool))
           then foldl (λ pool tx, removeTx pool (tx_Hash tx)) pool
                      (from_option Flatten [] (queue pool !! addr))
           else pool)
        pool (map_to_list (queue pool)).*1.

(** *** Reorganisations: [reset] *)

(** How a walk over the chain ends: with a result, with the error
    "Unrooted chain seen by tx pool", with a dereference of nil, or not
    within the number of rounds that the block numbers allow. *)
Inductive outcome (A : Type) :=
  | Done (a : A)
  | Unrooted
  | Panic
  | Exhausted.
Arguments Done {A} a.
Arguments Unrooted {A}.
Arguments Panic {A}.
Arguments Exhausted {A}.

Definition NumberU64 (b : Block) : Z := Number (BlockHeader b).

(** [pool.chain.GetBlock(b.ParentHash(), b.NumberU64()-1)] *)
Definition parentOf (chain : blockChain) (b : Block) : option Block :=
  GetBlock chain (ParentHash (BlockHeader b)) ((NumberU64 b - 1) mod two64).

(** [for b.NumberU64() > other.NumberU64()]: the first two loops of the
    walk, which gather the transactions of the longer branch. *)
Fixpoint rewind (fuel : nat) (chain : blockChain) (b : Block) (other : Z)
    (txs : list Transaction) : outcome (Block * list Transaction) :=
  match fuel with
  | O => Exhausted
  | S fuel =>
      if decide (NumberU64 b > other) then
        let txs := txs ++ Transactions b in
        match parentOf chain b with
        | None => Unrooted
        | Some b => rewind fuel chain b other txs
        end
      else Done (b, txs)
  end.

(** [for rem.Hash() != add.Hash()]: the third loop. *)
Fixpoint meet (fuel : nat) (chain : blockChain) (rem add : Block)
    (discarded included : list Transaction)
  : outcome (list Transaction * list Transaction) :=
  match fuel with
  | O => Exhausted
  | S fuel =>
      if decide (HeaderHash (BlockHeader rem) ≠ HeaderHash (BlockHeader add)) then
        let discarded := discarded ++ Transactions rem in
        match parentOf chain rem with
        | None => Unrooted
        | Some rem =>
            let included := included ++ Transactions add in
            match parentOf chain add with
            | None => Unrooted
            | Some add => meet fuel chain rem add discarded included
            end
        end
      else Done (discarded, included)
  end.

(** Modelled from the spec: [transaction.TxDifference], "the set
    reinject = discarded \ included" (section 4.5), by hash. *)
Definition TxDifference (a b : list Transaction) : list Transaction :=
  filter (λ tx, tx_Hash tx ∉ tx_Hash <$> b) a.

(** The transactions to reinject after a change from [oldHead] to
    [newHead]. *)
Definition reorg (chain : blockChain) (oldHead newHead : Header)
  : outcome (list Transaction) :=
  (* If the reorg is too deep, avoid doing it (will happen during fast sync) *)
  let oldNum := Number oldHead in
  let newNum := Number newHead in
  (* the difference is taken on float64, exact below 2^53 *)
  let depth := Z.abs (oldNum - newNum) in
  if decide (depth > 64) then Done []
  else
    (* Reorg seems shallow enough to pull in all transactions into memory *)
    match GetBlock chain (HeaderHash oldHead) oldNum,
          GetBlock chain (HeaderHash newHead) newNum with
    | Some rem, Some add =>
        match rewind (S (Z.to_nat (NumberU64 rem))) chain rem (NumberU64 add) [] with
        | Done (rem, discarded) =>
            match rewind (S (Z.to_nat (NumberU64 add))) chain add (NumberU64 rem) [] with
            | Done (add, included) =>
                match meet (S (S (Z.to_nat (NumberU64 rem)))) chain rem add
                           discarded included with
                | Done (discarded, included) => Done (TxDifference discarded included)
                | Unrooted => Unrooted
                | Panic => Panic
                | Exhausted => Exhausted
                end
            | Unrooted => Unrooted
            | Panic => Panic
            | Exhausted => Exhausted
            end
        | Unrooted => Unrooted
        | Panic => Panic
        | Exhausted => Exhausted
        end
    | _, _ => Panic (* rem.NumberU64() or add.NumberU64() on nil *)
    end.

(** Update all accounts to the latest known pending nonce;
    [txs[len(txs)-1]] of an empty list is a run-time panic. *)
Definition latestNonces (pool : TxPool) : option TxPool :=
  foldl (λ pool '(addr, list),
           pool ← pool;
           tx ← last (Flatten list);
           Some (set_pendingState pool
                   (ms_SetNonce (pendingState pool) addr ((Nonce tx + 1) mod two64))))
        (Some pool) (map_to_list (pending pool)).

(** [reset] retrieves the current state of the blockchain and ensures
    the content of the transaction pool is valid with regard to the
    chain state.  [None]: the call panics, or its walk does not end. *)
Definition reset (now : Z) (pool : TxPool) (oldHead newHead : option Header)
  : option TxPool :=
  (* If we're reorging an old state, reinject all dropped transactions *)
  let reinject :=
    match oldHead, newHead with
    | Some oldHead, Some newHead =>
        if decide (HeaderHash oldHead ≠ ParentHash newHead)
        then reorg (chain pool) oldHead newHead
        else Done []
    | Some _, None => Panic (* newHead.ParentHash on nil *)
    | None, _ => Done []
    end in
  match reinject with
  | Panic | Exhausted => None
  | Unrooted => Some pool
  | Done reinject =>
      (* Initialize the internal state to the current head *)
      let newHead := default (BlockHeader (CurrentBlock (chain pool))) newHead in
      match StateAt (chain pool) (StateHash newHead) with
      | Err _ => Some pool
      | Ok statedb =>
          let pool := set_states pool statedb (ManageState statedb) in
          (* Inject any transactions discarded due to reorgs *)
          let pool := (addTxsLocked now pool reinject false).1 in
          (* validate the pool of pending transactions *)
          let pool := demoteUnexecutables pool in
          pool ← latestNonces pool;
          (* Check the queue and move transactions over to the pending
             if possible or remove those that have become invalid *)
          Some (promoteExecutables now pool None)
      end
  end.

(** [lockedReset] is a wrapper around [reset] to allow calling it in a
    thread safe manner. *)
Definition lockedReset := reset.

(** [journal.load(pool.AddLocal)]: the transactions that the loop
    decodes from the journal file are added while the writer is the
    null sink. *)
Definition journal_load (now : Z) (pool : TxPool) : TxPool :=
  match journal pool with
  | None => pool
  | Some j =>
      match file j with
      | None => pool (* Skip the parsing if the journal file doesn't exist at all *)
      | Some txs =>
          let with_writer (pool : TxPool) (w : option WriteCloser) :=
            set_journal pool
              ((λ j, {| path := path j; writer := w; file := file j |})
               <$> journal pool) in
          (* Temporarily discard any journal additions *)
          let pool := with_writer pool (Some devNull) in
          (* Inject all transactions from the journal into the pool *)
          let pool := foldl (λ pool tx, (AddLocal now pool tx).1) pool txs in
          with_writer pool None
      end
  end.

(** [NewTxPool] creates a new transaction pool to gather, sort and
    filter inbound transactions from the network.  [disk] is the
    journal file found at start, as the sequence of transactions that
    the calls of [msgp.Decode] in [load] yield from it (every call sets
    up a buffered reader of its own, so these need not be all the
    transactions that were written).  The pool record holds its states by
    value, so the state of the head is loaded before [reset] loads it;
    [None]: the state does not load (the pool of the source is left
    with nil states) or [reset] panics. *)
Definition NewTxPool (now : Z) (disk : option (list Transaction))
    (config : TxPoolConfig) (chainconfig : option Z) (chain : blockChain)
  : option TxPool :=
  let config := sanitize config in
  let head := BlockHeader (CurrentBlock chain) in
  match StateAt chain (StateHash head) with
  | Err _ => None
  | Ok statedb =>
      (* Create the transaction pool with its initial settings *)
      let pool :=
        {| config := config; chain := chain;
           signer := NewMSigner chainconfig;
           currentState := statedb; pendingState := ManageState statedb;
           locals := ∅; journal := None;
           pending := ∅; queue := ∅; beats := ∅; all := ∅; txFeed := [] |} in
      pool ← reset now pool None (Some head);
      (* If local transactions and journaling is enabled, load from disk *)
      if negb (NoLocals config) && bool_decide (Journal config ≠ "") then
        let pool := set_journal pool (Some (newTxJournal (Journal config) disk)) in
        let pool := journal_load now pool in
        Some (set_journal pool
                ((λ j, journal_rotate j (local pool)) <$> journal pool))
      else Some pool
  end.

End pool.

Arguments Done {A} a.
Arguments Unrooted {A}.
Arguments Panic {A}.
Arguments Exhausted {A}.

(** * Statements

    The definitions that the properties below are stated with. *)

(** ** What the signer relies on from ECDSA over secp256k1

    A signature is 65 bytes [R || S || V] with V the recovery id 0 or 1,
    r and s are within the homestead bounds, recovery from a signature
    yields the uncompressed public key of the signing key, and that key
    starts with the tag byte 4. *)
Class CryptoLaws `{Crypto} : Prop := {
  Sign_sound h prv sig :
    Sign h prv = Ok sig →
    length sig = 65%nat
    ∧ (sig !! 64%nat = Some x00 ∨ sig !! 64%nat = Some x01)
    ∧ 1 <= SetBytes (take 32 sig) < secp256k1N
    ∧ 1 <= SetBytes (take 32 (drop 32 sig)) <= secp256k1halfN
    ∧ Ecrecover h sig = Ok (FromECDSAPub prv);
  FromECDSAPub_tag prv : ∃ key, FromECDSAPub prv = x04 :: key;
}.

(** The byte string without its leading zero bytes. *)
Fixpoint strip (bs : list byte) : list byte :=
  match bs with
  | b :: bs' => if decide (b = x00) then strip bs' else bs
  | [] => []
  end.

(** The part of the pool that only [add], [reset] and the journal
    operations touch. *)
Record frame (p q : TxPool) : Prop := {
  frame_config : config q = config p;
  frame_chain : chain q = chain p;
  frame_signer : signer q = signer p;
  frame_locals : locals q = locals p;
  frame_journal : journal q = journal p;
}.

Section statements.
Context `{Crypto}.

(** What a cache holds was derived from the data it sits on, by a
    signer made by [NewMSigner]. *)
Definition cache_sound (tx : Transaction) : Prop :=
  ∀ sc, from tx = Some sc →
    (∃ c, sc_signer sc = NewMSigner c)
    ∧ MSigner_Sender (sc_signer sc) tx = Ok (sc_from sc).

(** The conditions of validation in the order of section 4.5 of the
    specification, each with the error of its failure. *)
Definition checks (pool : TxPool) (tx : Transaction) : list (bool * error) :=
  [ (bool_decide (tx_Size tx > 32 * 1024), ErrOversizedData);
    (bool_decide (Value tx = None), ErrWrongTransactionAmount);
    (bool_decide (default 0 (Value tx) < 0), ErrNegativeValue);
    (negb (is_Ok (pool_Sender pool tx)), ErrInvalidSender);
    (bool_decide (GetNonce (currentState pool) (sender_of pool tx) > Nonce tx),
     ErrNonceTooLow);
    (bool_decide (GetBalance (currentState pool) (sender_of pool tx) < Cost tx),
     ErrInsufficientFunds) ].

(** "First failure wins". *)
Definition first_failure (cs : list (bool * error)) : option error :=
  snd <$> find fst cs.

(** The list of [addr] in [m] holds [tx]. *)
Definition held (m : gmap Address txList) (addr : Address) (tx : Transaction)
  : Prop :=
  ∃ l, m !! addr = Some l ∧ tx ∈ items l.

(** The invariant of section 8: [all] is exactly the union of the
    pending and queued lists. *)
Definition all_is_union (pool : TxPool) : Prop :=
  (∀ hash tx, all pool !! hash = Some tx →
     (held (pending pool) (sender_of pool tx) tx
      ∧ ¬ held (queue pool) (sender_of pool tx) tx)
     ∨ (held (queue pool) (sender_of pool tx) tx
        ∧ ¬ held (pending pool) (sender_of pool tx) tx))
  ∧ (∀ addr tx, held (pending pool) addr tx ∨ held (queue pool) addr tx →
       all pool !! tx_Hash tx = Some tx).

(** The pool states that sequences of operations lead to. *)
Inductive reachable (init : TxPool) : TxPool → Prop :=
  | reach_init : reachable init init
  | reach_add pool tx local :
      reachable init pool → reachable init (add pool tx local).1
  | reach_addTx now pool tx local :
      reachable init pool → reachable init (addTx now pool tx local).1
  | reach_addTxsLocked now pool txs local :
      reachable init pool → reachable init (addTxsLocked now pool txs local).1
  | reach_promoteExecutables now pool accounts :
      reachable init pool → reachable init (promoteExecutables now pool accounts)
  | reach_demoteUnexecutables pool :
      reachable init pool → reachable init (demoteUnexecutables pool)
  | reach_removeTx pool hash :
      reachable init pool → reachable init (removeTx pool hash)
  | reach_reset now pool oldHead newHead pool' :
      reachable init pool → reset now pool oldHead newHead = Some pool' →
      reachable init pool'.

(** ** How a pool is organised

    Every list is filed under the account that its transactions recover
    to with the signer of the pool. *)
Definition filed_by_sender (pool : TxPool) : Prop :=
  ∀ addr l tx,
    pending pool !! addr = Some l ∨ queue pool !! addr = Some l →
    tx ∈ items l → pool_Sender pool tx = Ok addr.

(** Pending lists are strict ([newTxList(true)]), queued lists are not
    ([newTxList(false)]). *)
Definition list_modes (pool : TxPool) : Prop :=
  (∀ addr l, pending pool !! addr = Some l → strict l = true)
  ∧ (∀ addr l, queue pool !! addr = Some l → strict l = false).

(** [all] holds a transaction under its own hash. *)
Definition hash_keyed (pool : TxPool) : Prop :=
  ∀ hash tx, all pool !! hash = Some tx → tx_Hash tx = hash.

(** A heartbeat is kept only for an account with a pending list. *)
Definition beats_pending (pool : TxPool) : Prop :=
  ∀ addr, is_Some (beats pool !! addr) → is_Some (pending pool !! addr).

Record organised (pool : TxPool) : Prop := {
  organised_filed : filed_by_sender pool;
  organised_modes : list_modes pool;
  organised_keyed : hash_keyed pool;
  organised_beats : beats_pending pool;
}.

(** ** Admission and the journal *)

(** The data of a transaction with another recipient. *)
Definition with_Recipient (d : txdata) (to : option Address) : txdata :=
  {| AccountNonce := AccountNonce d; Recipient := to; Amount := Amount d;
     Payload := Payload d; tx_V := tx_V d; tx_R := tx_R d; tx_S := tx_S d |}.

(** The first loop of [addTxsLocked], for one transaction. *)
Definition inject (local : bool)
  : TxPool * gset Address * list (option error) → Transaction
    → TxPool * gset Address * list (option error) :=
  λ '(pool, dirty, errs) tx,
    match add pool tx local with
    | (pool, Ok replace) =>
        if negb replace
        then (pool, {[ sender_of pool tx ]} ∪ dirty, errs ++ [None])
        else (pool, dirty, errs ++ [None])
    | (pool, Err err) => (pool, dirty, errs ++ [Some err])
    end.

(** No journal file is open for writing. *)
Definition closed (pool : TxPool) : Prop :=
  ∀ j, journal pool = Some j → writer j ≠ Some fileSink.

(** The number of transactions in a map of lists, as [stats] counts
    them. *)
Definition count_of (m : gmap Address txList) : Z :=
  foldr (λ al n, Len al.2 + n) 0 (map_to_list m).

(** ** Lists and accounts *)

(** A list with the mode of [l] and no other transactions. *)
Definition part_of (l' l : txList) : Prop :=
  strict l' = strict l ∧ items l' ⊆ items l.

(** What [demoteUnexecutables] leaves in a pending list, for the chain
    state [db]. *)
Definition executable (db : StateDB) (addr : Address) (l : txList) : Prop :=
  items l ≠ []
  ∧ is_Some (txList_Get l (GetNonce db addr))
  ∧ ∀ tx, tx ∈ items l →
      GetNonce db addr <= Nonce tx ∧ Cost tx <= GetBalance db addr.


(** The pool keeps its configuration, its chain and its signer, and it
    forgets no local account. *)
Record settled (p q : TxPool) : Prop := {
  settled_config : config q = config p;
  settled_chain : chain q = chain p;
  settled_signer : signer q = signer p;
  settled_locals : locals p ⊆ locals q;
}.

(** ** The states of a pool

    A head whose block number is below 2^53, where the depth of a
    reorganisation, which [reset] takes on [float64], is exact. *)
Definition low_number (head : option Header) : Prop :=
  ∀ h, head = Some h → 0 <= Number h < 2 ^ 53.

(** A pool that holds no transaction. *)
Definition holds_nothing (pool : TxPool) : Prop :=
  pending pool = ∅ ∧ queue pool = ∅ ∧ beats pool = ∅ ∧ all pool = ∅.

(** The pool states that the operations of the pool and the ticks of
    its eviction timer lead to, with heads of low numbers. *)
Inductive operated (init : TxPool) : TxPool → Prop :=
  | operated_init : operated init init
  | operated_add pool tx local :
      operated init pool → operated init (add pool tx local).1
  | operated_addTx now pool tx local :
      operated init pool → operated init (addTx now pool tx local).1
  | operated_addTxs now pool txs local :
      operated init pool → operated init (addTxs now pool txs local).1
  | operated_promoteExecutables now pool accounts :
      operated init pool → operated init (promoteExecutables now pool accounts)
  | operated_demoteUnexecutables pool :
      operated init pool → operated init (demoteUnexecutables pool)
  | operated_removeTx pool hash :
      operated init pool → operated init (removeTx pool hash)
  | operated_evictTick now pool :
      operated init pool → operated init (evictTick now pool)
  | operated_reset now pool oldHead newHead pool' :
      operated init pool → low_number oldHead → low_number newHead →
      reset now pool oldHead newHead = Some pool' →
      operated init pool'.

(** ** Chains

    A block is found under its own number, and the numbers stay below
    the largest [uint64]. *)
Definition numbered (chain : blockChain) : Prop :=
  ∀ hash n b, GetBlock chain hash n = Some b →
    NumberU64 b = n ∧ 0 <= n < two64 - 1.

End statements.

(** ** Test vectors

    A small instance of the external collaborators, on which the model
    runs, and the pools of the scenarios of section 8.  The public key
    of a private key is a fixed pattern around the low byte of the key;
    the hash keeps the first 32 bytes of its input. *)
Module Vectors.

Definition key_of (prv : Z) : list byte :=
  replicate 31 x01 ++ [to_byte prv] ++ replicate 32 x01.

#[export] Instance crypto : Crypto := {|
  Keccak256 bs := take 32 (bs ++ replicate 32 x00);
  WriteIntf x :=
    match x with
    | IUint64 n => [to_byte n]
    | IAddress a => a
    | IBigInt z => [to_byte (default 0 z)]
    | IBytes bs => bs
    | IUint n => [to_byte n]
    | ITxdata d =>
        [to_byte (AccountNonce d); to_byte (default 0 (Amount d));
         to_byte (tx_R d); to_byte (tx_S d); to_byte (tx_V d)] ++ Payload d
    end;
  Sign h prv := Ok (key_of prv ++ [x00]);
  Ecrecover h sig := Ok (x04 :: take 64 sig);
  FromECDSAPub prv := x04 :: key_of prv;
|}.

Definition signer1 : MSigner := NewMSigner (Some 1).

Definition unsigned (nonce amount : Z) (payload : list byte) : Transaction :=
  {| Data := {| AccountNonce := nonce; Recipient := None; Amount := Some amount;
                Payload := payload; tx_V := 0; tx_R := 0; tx_S := 0 |};
     from := None |}.

Definition signed (prv nonce amount : Z) (payload : list byte) : Transaction :=
  match SignTx (unsigned nonce amount payload) signer1 prv with
  | Ok tx => tx
  | Err _ => unsigned nonce amount payload
  end.

(** Three accounts, by their private keys 10, 11 and 12. *)
Definition A : Address := PubkeyToAddress 10.
Definition B : Address := PubkeyToAddress 11.
Definition C : Address := PubkeyToAddress 12.

(** A chain state in which the three accounts have the given nonce and
    a balance of 100. *)
Definition state (nonce : Z) : StateDB :=
  {| nonces := {[ A := nonce; B := nonce; C := nonce ]};
     balances := {[ A := 100; B := 100; C := 100 ]} |}.

Definition genesis : Header :=
  {| HeaderHash := [x01]; ParentHash := []; Number := 0; StateHash := [x02] |}.

Definition chainAt (nonce : Z) : blockChain :=
  {| CurrentBlock := {| BlockHeader := genesis; Transactions := [] |};
     GetBlock := λ _ _, None;
     StateAt := λ _, Ok (state nonce) |}.

Definition emptyPool (config : TxPoolConfig) (nonce : Z) : TxPool :=
  {| config := config; chain := chainAt nonce; signer := signer1;
     currentState := state nonce; pendingState := ManageState (state nonce);
     locals := ∅; journal := None; pending := ∅; queue := ∅; beats := ∅;
     all := ∅; txFeed := [] |}.

Definition withoutLocals : TxPoolConfig :=
  {| NoLocals := true; Journal := ""; Rejournal := Hour;
     AccountSlots := 16; GlobalSlots := 4096; AccountQueue := 64;
     GlobalQueue := 1024; Lifetime := 3 * Hour |}.

Definition smallQueue : TxPoolConfig :=
  {| NoLocals := true; Journal := ""; Rejournal := Hour;
     AccountSlots := 16; GlobalSlots := 4096; AccountQueue := 64;
     GlobalQueue := 2; Lifetime := 3 * Hour |}.

(** S2: two transactions of A at nonce 5; the first is admitted and
    promoted, then the second is submitted. *)
Definition first5 : Transaction := signed 10 5 1 [].
Definition second5 : Transaction := signed 10 5 1 [x01].

Definition admitted : TxPool :=
  (addTx 1 (emptyPool withoutLocals 5) first5 false).1.
Definition replaced : TxPool := (add admitted second5 false).1.

(** S3: the state nonce of A is 10 and nonce 9 is submitted. *)
Definition ninth : Transaction := signed 10 9 1 [].

(** S5: A, B and C each have a pending transaction, promoted at the
    times 10, 20 and 30, and A and B have a queued one; then C submits
    one that stays queued. *)
Definition remotes (pool : TxPool) (txs : list (Z * Transaction)) : TxPool :=
  foldl (λ pool '(now, tx), (AddRemote now pool tx).1) pool txs.

Definition twoQueued : TxPool :=
  remotes (emptyPool smallQueue 5)
    [ (10, signed 10 5 1 []); (20, signed 11 5 1 []); (30, signed 12 5 1 []);
      (40, signed 10 7 1 []); (50, signed 11 7 1 []) ].

Definition overfull : TxPool := (add twoQueued (signed 12 7 1 []) false).1.
Definition thirdQueued : TxPool := (AddRemote 60 twoQueued (signed 12 7 1 [])).1.

(** S1: the state nonce of A is 5; nonces 6 and 7 are submitted, then
    nonce 5. *)
Definition gapFilled : TxPool :=
  remotes (emptyPool withoutLocals 5)
    [ (1, signed 10 6 1 []); (2, signed 10 7 1 []); (3, first5) ].

(** Two pending transactions of A, and the removal of the first. *)
Definition sixth : Transaction := signed 10 6 1 [].
Definition twoPending : TxPool :=
  remotes (emptyPool withoutLocals 5) [ (1, first5); (2, sixth) ].
Definition headRemoved : TxPool := removeTx twoPending (tx_Hash first5).

(** S6: A is local, B is not; both have one queued transaction; the
    eviction ticks after four hours. *)
Definition withLocals : TxPoolConfig :=
  {| NoLocals := false; Journal := ""; Rejournal := Hour;
     AccountSlots := 16; GlobalSlots := 4096; AccountQueue := 64;
     GlobalQueue := 1024; Lifetime := 3 * Hour |}.
Definition idle : TxPool :=
  (AddRemote 2 (AddLocal 1 (emptyPool withLocals 5) (signed 10 7 1 [])).1
     (signed 11 7 1 [])).1.
Definition evicted : TxPool := evictTick (4 * Hour) idle.

(** The first transaction of A after a call of [Sender] with the signer
    of the chain: the cache holds the address. *)
Definition hit : Transaction :=
  (Sender signer1 {| Data := Data first5; from := None |}).2.

(** A transaction of A signed for the chain of id 2, and that
    transaction after a call of [Sender] with the signer of that chain:
    the cache holds the address for a signer of another chain id. *)
Definition foreign : Transaction :=
  match SignTx (unsigned 5 1 []) (NewMSigner (Some 2)) 10 with
  | Ok tx => tx
  | Err _ => unsigned 5 1 []
  end.
Definition crossed : Transaction :=
  (Sender (NewMSigner (Some 2)) {| Data := Data foreign; from := None |}).2.

(** A transaction of A that waits in the queue for nonces 5 and 6. *)
Definition seventh : Transaction := signed 10 7 1 [].

(** Pools with a journal: one whose file is open for writing, and one
    as [NewTxPool] has it before loading, with a file on the disk. *)
Definition withJournal : TxPoolConfig :=
  {| NoLocals := false; Journal := "transactions.msgp"; Rejournal := Hour;
     AccountSlots := 16; GlobalSlots := 4096; AccountQueue := 64;
     GlobalQueue := 1024; Lifetime := 3 * Hour |}.
Definition unloaded : TxPool :=
  set_journal (emptyPool withJournal 5)
    (Some (newTxJournal "transactions.msgp" (Some [first5]))).

(** A fork of one block above the first block: the old head holds a
    transaction that the new head does not. *)
Definition oldHeader : Header :=
  {| HeaderHash := [x0a]; ParentHash := [x01]; Number := 1; StateHash := [x02] |}.
Definition newHeader : Header :=
  {| HeaderHash := [x0b]; ParentHash := [x01]; Number := 1; StateHash := [x02] |}.
Definition forked : blockChain :=
  {| CurrentBlock := {| BlockHeader := newHeader; Transactions := [] |};
     GetBlock := λ hash number,
       if decide (hash = [x01]) then
         Some {| BlockHeader := genesis; Transactions := [] |}
       else if decide (hash = [x0a]) then
         Some {| BlockHeader := oldHeader; Transactions := [first5] |}
       else if decide (hash = [x0b]) then
         Some {| BlockHeader := newHeader; Transactions := [] |}
       else None;
     StateAt := λ _, Ok (state 5) |}.

End Vectors.

(** * Properties *)

(** ** Bytes and big integers *)

Lemma byte_val_range (b : byte) : 0 <= byte_val b < 256.
Proof. unfold byte_val. pose proof (Byte.to_N_bounded b). lia. Qed.

Lemma byte_val_to_byte (z : Z) : byte_val (to_byte z) = z mod 256.
Proof.
  unfold byte_val, to_byte.
  assert (Hr : 0 <= z mod 256 < 256) by (apply Z.mod_pos_bound; lia).
  destruct (Byte.of_N (Z.to_N (z mod 256))) as [b|] eqn:E.
  - apply Byte.to_of_N in E. simpl. rewrite E. lia.
  - apply Byte.of_N_None_iff in E. lia.
Qed.

Lemma to_byte_byte_val (b : byte) : to_byte (byte_val b) = b.
Proof.
  unfold to_byte, byte_val.
  pose proof (Byte.to_N_bounded b).
  rewrite Z.mod_small by lia.
  by rewrite N2Z.id, Byte.of_to_N.
Qed.

Lemma byte_val_inj (a b : byte) : byte_val a = byte_val b → a = b.
Proof. intros E. rewrite <- (to_byte_byte_val a), E. apply to_byte_byte_val. Qed.

Lemma byte_add_small (b : byte) (k : Z) :
  0 <= k → byte_val b + k < 256 → byte_val (byte_add b k) = byte_val b + k.
Proof.
  intros Hk Hs. pose proof (byte_val_range b).
  unfold byte_add. rewrite byte_val_to_byte, Z.mod_small; lia.
Qed.

Lemma BitLen_bound (v n : Z) : 0 <= n → BitLen v <= n → Z.abs v < 2 ^ n.
Proof.
  intros Hn. unfold BitLen. destruct (decide (v = 0)) as [->|Hv]; intros Hb.
  - simpl. apply Z.pow_pos_nonneg; lia.
  - apply Z.log2_lt_pow2; lia.
Qed.

Lemma BitLen_small (v n : Z) : 0 <= n → Z.abs v < 2 ^ n → BitLen v <= n.
Proof.
  intros Hn Hv. unfold BitLen. destruct (decide (v = 0)); [lia|].
  assert (Z.log2 (Z.abs v) < n) by (apply Z.log2_lt_pow2; lia). lia.
Qed.

Lemma SetBytes_snoc (bs : list byte) (b : byte) :
  SetBytes (bs ++ [b]) = SetBytes bs * 256 + byte_val b.
Proof. unfold SetBytes. by rewrite fold_left_app. Qed.

Lemma SetBytes_bound (bs : list byte) :
  0 <= SetBytes bs < 256 ^ Z.of_nat (length bs).
Proof.
  induction bs as [|b bs IH] using rev_ind; [cbn; lia|].
  rewrite SetBytes_snoc, length_app, Nat2Z.inj_add, Z.pow_add_r by lia.
  pose proof (byte_val_range b). cbn. lia.
Qed.

Lemma strip_app_zeros (bs l : list byte) :
  strip bs = [] → strip (bs ++ l) = strip l.
Proof.
  induction bs as [|b bs IH]; [done|]. cbn.
  destruct (decide (b = x00)); [done|discriminate].
Qed.

Lemma strip_app (bs l : list byte) :
  strip bs ≠ [] → strip (bs ++ l) = strip bs ++ l.
Proof.
  induction bs as [|b bs IH]; [done|]. cbn.
  by destruct (decide (b = x00)).
Qed.

Lemma SetBytes_zero (bs : list byte) : SetBytes bs = 0 ↔ strip bs = [].
Proof.
  induction bs as [|b bs IH] using rev_ind; [done|].
  rewrite SetBytes_snoc.
  pose proof (SetBytes_bound bs). pose proof (byte_val_range b).
  split.
  - intros E.
    assert (Hb : byte_val b = byte_val x00) by (cbn; lia).
    apply byte_val_inj in Hb. subst b.
    rewrite strip_app_zeros by (apply IH; lia). done.
  - intros E. destruct (strip bs) as [|x xs] eqn:Es.
    + rewrite strip_app_zeros in E by done. cbn in E.
      destruct (decide (b = x00)) as [->|]; [|done].
      rewrite (proj2 IH) by done. done.
    + rewrite strip_app in E by (rewrite Es; done). by rewrite Es in E.
Qed.

(** Enough fuel is any number of bytes that holds the number. *)
Lemma le_bytes_fuel (f1 f2 : nat) (n : Z) :
  n < 256 ^ Z.of_nat f1 → n < 256 ^ Z.of_nat f2 → le_bytes f1 n = le_bytes f2 n.
Proof.
  revert f2 n. induction f1 as [|f1 IH]; intros [|f2] n H1 H2; cbn [le_bytes].
  - done.
  - rewrite decide_True by (cbn in H1; lia). done.
  - rewrite decide_True by (cbn in H2; lia). done.
  - destruct (decide (n <= 0)); [done|]. f_equal.
    rewrite Nat2Z.inj_succ, Z.pow_succ_r in H1, H2 by lia.
    apply IH; apply Z.div_lt_upper_bound; lia.
Qed.

Lemma le_bytes_SetBytes (bs : list byte) :
  rev (le_bytes (length bs) (SetBytes bs)) = strip bs.
Proof.
  induction bs as [|b bs IH] using rev_ind; [done|].
  rewrite length_app, Nat.add_1_r. cbn [le_bytes].
  pose proof (SetBytes_bound bs). pose proof (byte_val_range b).
  destruct (decide (SetBytes (bs ++ [b]) <= 0)) as [Hz|Hz].
  - symmetry. apply SetBytes_zero. pose proof (SetBytes_bound (bs ++ [b])). lia.
  - assert (Hnz : strip (bs ++ [b]) ≠ []).
    { intros E. apply SetBytes_zero in E. lia. }
    rewrite SetBytes_snoc.
    replace ((SetBytes bs * 256 + byte_val b) mod 256) with (byte_val b)
      by (rewrite Z.add_comm, Z.mod_add, Z.mod_small; lia).
    replace ((SetBytes bs * 256 + byte_val b) / 256) with (SetBytes bs)
      by (rewrite Z.add_comm, Z.div_add, Z.div_small; lia).
    rewrite to_byte_byte_val. cbn [rev]. rewrite IH.
    destruct (strip bs) as [|x xs] eqn:Es.
    + rewrite strip_app_zeros in * by done. cbn in *.
      by destruct (decide (b = x00)).
    + rewrite strip_app by (rewrite Es; done). by rewrite Es.
Qed.

(** [Bytes] undoes [SetBytes] up to leading zeros. *)
Lemma Bytes_SetBytes (bs : list byte) : Bytes (SetBytes bs) = strip bs.
Proof.
  unfold Bytes. pose proof (SetBytes_bound bs) as Hb.
  rewrite Z.abs_eq by lia.
  rewrite <- le_bytes_SetBytes. f_equal.
  apply le_bytes_fuel; [|lia].
  rewrite Nat2Z.inj_succ, Z2Nat.id by apply Z.log2_nonneg.
  destruct (decide (SetBytes bs = 0)) as [->|Hne]; [cbn; lia|].
  set (n := SetBytes bs) in *.
  assert (n < 2 ^ Z.succ (Z.log2 n)) by (apply Z.log2_spec; lia).
  assert (2 ^ Z.succ (Z.log2 n) <= 256 ^ Z.succ (Z.log2 n)).
  { apply Z.pow_le_mono_l. lia. }
  lia.
Qed.

Lemma length_strip (bs : list byte) : (length (strip bs) <= length bs)%nat.
Proof.
  induction bs as [|b bs IH]; cbn; [lia|].
  destruct (decide (b = x00)); cbn; lia.
Qed.

Lemma pad_strip (bs : list byte) :
  replicate (length bs - length (strip bs)) x00 ++ strip bs = bs.
Proof.
  induction bs as [|b bs IH]; [done|]. cbn [strip].
  destruct (decide (b = x00)) as [->|].
  - pose proof (length_strip bs).
    replace (length (x00 :: bs) - length (strip bs))%nat
      with (S (length bs - length (strip bs))) by (cbn [length]; lia).
    cbn. by rewrite IH.
  - by rewrite Nat.sub_diag.
Qed.

(** The 32 bytes of r or s in a signature are the bytes that
    [recoverPlain] rebuilds from the number. *)
Lemma pad32_Bytes_SetBytes (bs : list byte) :
  length bs = 32%nat → pad32 (Bytes (SetBytes bs)) = bs.
Proof.
  intros Hl. unfold pad32. rewrite Bytes_SetBytes, <- Hl. apply pad_strip.
Qed.

(** ** The v encoding *)

(** The legacy form 27/28 carries chain id 0. *)
Lemma deriveChainId_legacy (rid : Z) :
  0 <= rid <= 1 → deriveChainId (rid + 27) = 0.
Proof.
  intros Hr. unfold deriveChainId.
  rewrite decide_True by (apply BitLen_small; [lia|]; rewrite Z.abs_eq; lia).
  unfold Uint64, two64. rewrite Z.abs_eq, Z.mod_small by lia.
  by rewrite decide_True by lia.
Qed.

(** The form 35/36 + 2c carries the chain id c. *)
Lemma deriveChainId_wire (c rid : Z) :
  0 < c → 0 <= rid <= 1 → deriveChainId (rid + 35 + c * 2) = c.
Proof.
  intros Hc Hr. unfold deriveChainId.
  set (v := rid + 35 + c * 2).
  assert (Hd : (v - 35) / 2 = c).
  { subst v. replace (rid + 35 + c * 2 - 35) with (rid + c * 2) by lia.
    rewrite Z.div_add, Z.div_small by lia. lia. }
  destruct (decide (BitLen v <= 64)) as [Hb|Hb]; [|done].
  apply BitLen_bound in Hb; [|lia]. rewrite Z.abs_eq in Hb by lia.
  unfold Uint64, two64. rewrite Z.abs_eq, (Z.mod_small v) by lia.
  rewrite decide_False by lia.
  by rewrite Z.mod_small by lia.
Qed.

(** The V that [SignatureValues] gives for recovery id 0 or 1. *)
Lemma SignatureValues_V (s : MSigner) (tx : Transaction) (sig : list byte)
    (rid : byte) :
  length sig = 65%nat →
  sig !! 64%nat = Some rid →
  0 <= byte_val rid <= 1 →
  SignatureValues s tx sig
  = Ok (SetBytes (take 32 sig), SetBytes (take 32 (drop 32 sig)),
        if decide (chainId s = 0) then byte_val rid + 27
        else byte_val rid + 35 + chainIdMul s).
Proof.
  intros Hlen Hrid Hv. unfold SignatureValues.
  rewrite decide_False by (rewrite Hlen; auto).
  rewrite Hrid. cbn [default from_option]. unfold id.
  do 2 f_equal.
  destruct (decide (chainId s = 0)) as [E|E].
  - rewrite decide_False by (rewrite E; cbn; lia).
    unfold SetBytes. cbn [fold_left]. rewrite byte_add_small; lia.
  - rewrite decide_True by (intros E'; by apply E, Z.sgn_null_iff).
    rewrite byte_add_small; lia.
Qed.

(** C10: v-encoding round trip.  For every recovery id in {0, 1} and
    every non-negative chain id c, the V that [SignatureValues] produces
    for a signer of chain id c is recovery id + 27 when c = 0 and
    recovery id + 35 + 2c otherwise, and [deriveChainId] maps it back
    to c. *)
Theorem deriveChainId_SignatureValues (c : Z) (tx : Transaction)
    (sig : list byte) (rid : byte) :
  0 <= c →
  length sig = 65%nat →
  sig !! 64%nat = Some rid →
  byte_val rid = 0 ∨ byte_val rid = 1 →
  ∃ r s v,
    SignatureValues (NewMSigner (Some c)) tx sig = Ok (r, s, v)
    ∧ v = (if decide (c = 0) then byte_val rid + 27
           else byte_val rid + 35 + 2 * c)
    ∧ deriveChainId v = c.
Proof.
  intros Hc Hlen Hrid Hv.
  rewrite (SignatureValues_V _ tx sig rid) by (done || lia).
  cbn [NewMSigner chainId chainIdMul default from_option]. unfold id.
  do 3 eexists. split; [reflexivity|].
  destruct (decide (c = 0)) as [->|Hne].
  - split; [done|]. apply deriveChainId_legacy. lia.
  - split; [lia|]. apply deriveChainId_wire; lia.
Qed.

(** ** The sender cache *)

Section cache.
Context `{Crypto}.

Lemma MSigner_Sender_Data (s : MSigner) (tx tx' : Transaction) :
  Data tx = Data tx' → MSigner_Sender s tx = MSigner_Sender s tx'.
Proof.
  intros E. unfold MSigner_Sender, ChainId, MSigner_Hash. by rewrite E.
Qed.

Lemma NewMSigner_eq (c c' : option Z) :
  chainId (NewMSigner c') = chainId (NewMSigner c) → NewMSigner c' = NewMSigner c.
Proof. unfold NewMSigner. cbn. by intros ->. Qed.

Lemma Sender_Data (s : MSigner) (tx : Transaction) :
  Data (Sender s tx).2 = Data tx.
Proof.
  unfold Sender.
  destruct (from tx) as [sc|]; [destruct (MSigner_Equal _ _); [done|]|];
    by destruct (MSigner_Sender s tx).
Qed.

(** Calls of [Sender] keep the data and leave a sound cache. *)
Lemma cached_sound (d : txdata) (tx : Transaction) :
  cached d tx → Data tx = d ∧ cache_sound tx.
Proof.
  induction 1 as [|tx c _ [IHd IHs]].
  - split; [done|]. intros sc [=].
  - split; [by rewrite Sender_Data|].
    unfold Sender.
    destruct (from tx) as [sc|] eqn:Ef.
    + destruct (MSigner_Equal _ _); [done|].
      destruct (MSigner_Sender (NewMSigner c) tx) as [a|e] eqn:Es; [|done].
      intros sc' [= <-]. cbn. split; [eauto|].
      rewrite <- Es. by apply MSigner_Sender_Data.
    + destruct (MSigner_Sender (NewMSigner c) tx) as [a|e] eqn:Es.
      * intros sc' [= <-]. cbn. split; [eauto|].
        rewrite <- Es. by apply MSigner_Sender_Data.
      * cbn. intros sc. by rewrite Ef.
Qed.

(** On a sound cache the memoised result is the derived one. *)
Lemma Sender_sound (c : option Z) (tx : Transaction) :
  cache_sound tx →
  (Sender (NewMSigner c) tx).1 = MSigner_Sender (NewMSigner c) tx.
Proof.
  intros Hs. unfold Sender.
  destruct (from tx) as [sc|] eqn:Ef.
  - destruct (MSigner_Equal _ _) eqn:Eeq.
    + destruct (Hs sc Ef) as [[c' Hc'] Hd].
      apply bool_decide_eq_true in Eeq. rewrite Hc' in Eeq.
      apply NewMSigner_eq in Eeq. cbn. rewrite Eeq, <- Hc'. by rewrite Hd.
    + by destruct (MSigner_Sender _ tx).
  - by destruct (MSigner_Sender _ tx).
Qed.

(** A second call with the same signer returns what the first did,
    whatever the cache held. *)
Lemma Sender_again (s : MSigner) (tx : Transaction) :
  (Sender s (Sender s tx).2).1 = (Sender s tx).1.
Proof.
  unfold Sender at 2 3.
  destruct (from tx) as [sc|] eqn:Ef.
  - destruct (MSigner_Equal (sc_signer sc) s) eqn:Eeq.
    + cbn. unfold Sender. by rewrite Ef, Eeq.
    + destruct (MSigner_Sender s tx) as [a|e] eqn:Es; cbn.
      * unfold Sender. cbn. unfold MSigner_Equal. by rewrite bool_decide_eq_true_2.
      * unfold Sender. by rewrite Ef, Eeq, Es.
  - destruct (MSigner_Sender s tx) as [a|e] eqn:Es; cbn.
    + unfold Sender. cbn. unfold MSigner_Equal. by rewrite bool_decide_eq_true_2.
    + unfold Sender. by rewrite Ef, Es.
Qed.

(** C7: sender-cache determinism.  For a transaction in any state that
    calls of [Sender] lead to and any signer S, [Sender S] returns what
    the derivation gives on the bare data; a call with a signer of the
    same chain id, before or after, returns the same address or error;
    a second call with the same signer returns what the first did; and
    a result cached by a signer of another chain id is not reused. *)
Theorem Sender_cache_law (d : txdata) (tx : Transaction) (c : option Z) :
  cached d tx →
  (Sender (NewMSigner c) tx).1
    = MSigner_Sender (NewMSigner c) {| Data := d; from := None |}
  ∧ (∀ (s : MSigner) (tx' : Transaction),
       (Sender s (Sender s tx').2).1 = (Sender s tx').1)
  ∧ (∀ c', chainId (NewMSigner c') = chainId (NewMSigner c) →
       (Sender (NewMSigner c') tx).1 = (Sender (NewMSigner c) tx).1
       ∧ (Sender (NewMSigner c') (Sender (NewMSigner c) tx).2).1
         = (Sender (NewMSigner c) tx).1)
  ∧ (∀ sc (tx' : Transaction),
       from tx' = Some sc → chainId (sc_signer sc) ≠ chainId (NewMSigner c) →
       (Sender (NewMSigner c) tx').1 = MSigner_Sender (NewMSigner c) tx').
Proof.
  intros Hc. destruct (cached_sound d tx Hc) as [Hd Hs].
  split; [|split; [|split]].
  - rewrite Sender_sound by done. by apply MSigner_Sender_Data.
  - apply Sender_again.
  - intros c' Hc'. apply NewMSigner_eq in Hc'. rewrite Hc'. split; [done|].
    apply Sender_again.
  - intros sc tx' Ef Hne. unfold Sender. rewrite Ef.
    unfold MSigner_Equal. rewrite bool_decide_eq_false_2 by congruence.
    by destruct (MSigner_Sender _ tx').
Qed.

End cache.

(** ** Signing and recovering *)

Lemma ValidateSignatureValues_recid (v : byte) (r s : Z) (h : bool) :
  v ≠ x00 → v ≠ x01 → ValidateSignatureValues v r s h = false.
Proof.
  intros H0 H1. unfold ValidateSignatureValues.
  destruct (decide _); [done|]. destruct (h && _); [done|].
  rewrite (bool_decide_eq_false_2 (v = x00)), (bool_decide_eq_false_2 (v = x01)) by done.
  by rewrite andb_false_r.
Qed.

(** The recovery id that [recoverPlain] computes from a V of the legacy
    form once [MSigner.Sender] has taken 8 off it. *)
Lemma legacy_recid (rid : Z) :
  0 <= rid <= 1 →
  byte_val (to_byte ((Uint64 (rid + 27 - 0 * 2 - big8) - 27) mod two64)) = rid + 248.
Proof.
  intros Hr. rewrite byte_val_to_byte. unfold Uint64, two64, big8.
  rewrite Z.abs_eq by lia.
  assert (E : rid = 0 ∨ rid = 1) by lia. by destruct E as [-> | ->].
Qed.

Section signing.
Context `{Crypto}.

(** C6 (chain id 0): a transaction signed under a signer of chain id 0
    carries the legacy V = recovery id + 27, and [Sender] with that
    signer rejects it with [ErrInvalidSig]: the signer takes 8 off V
    whatever the chain id, so the recovery id comes out as 248 or 249. *)
Theorem SignTx_Sender_chain0 (c : option Z) (tx : Transaction) (prv : Z)
    (sig : list byte) (rid : byte) :
  default 0 c = 0 →
  Sign (MSigner_Hash (NewMSigner c) tx) prv = Ok sig →
  length sig = 65%nat →
  sig !! 64%nat = Some rid →
  byte_val rid = 0 ∨ byte_val rid = 1 →
  ∃ signed,
    SignTx tx (NewMSigner c) prv = Ok signed
    ∧ tx_V (Data signed) = byte_val rid + 27
    ∧ (Sender (NewMSigner c) signed).1 = Err ErrInvalidSig.
Proof.
  intros Hc Hsig Hlen Hrid Hv.
  assert (Hr : 0 <= byte_val rid <= 1) by lia.
  unfold SignTx. rewrite Hsig. unfold WithSignature.
  rewrite (SignatureValues_V _ tx sig rid) by done.
  unfold NewMSigner. rewrite Hc. cbn [chainId chainIdMul].
  rewrite decide_True by done.
  eexists. split; [reflexivity|]. split; [done|].
  unfold Sender. cbn [from].
  unfold MSigner_Sender, ChainId. cbn [Data tx_V tx_R tx_S chainId chainIdMul].
  rewrite deriveChainId_legacy by done. rewrite decide_False by auto.
  unfold recoverPlain.
  rewrite decide_False.
  2:{ assert (BitLen (byte_val rid + 27 - 0 * 2 - big8) <= 8); [|lia].
      apply BitLen_small; [lia|]. unfold big8. rewrite Z.abs_eq; lia. }
  rewrite ValidateSignatureValues_recid; [done| |].
  all: intros E; apply (f_equal byte_val) in E;
    rewrite legacy_recid in E by done; cbn in E; lia.
Qed.

Context `{!CryptoLaws}.

(** Signature round trip for a chain id above 0: a transaction freshly
    signed with [SignTx] under a signer of that chain id yields, with
    [Sender] and that signer, the address of the private key. *)
Theorem SignTx_Sender_roundtrip (c : Z) (tx signed : Transaction) (prv : Z) :
  0 < c →
  SignTx tx (NewMSigner (Some c)) prv = Ok signed →
  (Sender (NewMSigner (Some c)) signed).1 = Ok (PubkeyToAddress prv).
Proof.
  intros Hc.
  set (s := NewMSigner (Some c)).
  assert (Hcs : chainId s = c) by done.
  assert (Hcm : chainIdMul s = c * 2) by done.
  clearbody s. unfold SignTx.
  destruct (Sign _ prv) as [sig|e] eqn:Hsig; [|done].
  destruct (Sign_sound _ _ _ Hsig) as (Hlen & Hrid & HR & HS & Hrec).
  assert (Hv : ∃ rid, sig !! 64%nat = Some rid ∧ 0 <= byte_val rid <= 1
                      ∧ (rid = x00 ∨ rid = x01)).
  { destruct Hrid as [E|E]; eexists; (split; [exact E|]); cbn; split; auto; lia. }
  destruct Hv as (rid & Hr & Hrv & Hr01).
  unfold WithSignature. rewrite (SignatureValues_V _ tx sig rid) by done.
  rewrite Hcs, Hcm, decide_False by lia.
  intros [= <-].
  unfold Sender. cbn [from].
  unfold MSigner_Sender, ChainId.
  cbn [Data tx_V tx_R tx_S]. rewrite Hcs, Hcm.
  rewrite deriveChainId_wire by lia.
  rewrite decide_False by auto.
  unfold recoverPlain, big8.
  replace (byte_val rid + 35 + c * 2 - c * 2 - 8) with (byte_val rid + 27) by lia.
  rewrite decide_False.
  2:{ assert (BitLen (byte_val rid + 27) <= 8); [|lia].
      apply BitLen_small; [lia|]. rewrite Z.abs_eq; lia. }
  assert (Hb : to_byte ((Uint64 (byte_val rid + 27) - 27) mod two64) = rid).
  { unfold Uint64, two64. rewrite Z.abs_eq by lia.
    rewrite (Z.mod_small (byte_val rid + 27)) by lia.
    replace (byte_val rid + 27 - 27) with (byte_val rid) by lia.
    rewrite Z.mod_small by lia. apply to_byte_byte_val. }
  rewrite Hb.
  assert (Hval : ValidateSignatureValues rid (SetBytes (take 32 sig))
                   (SetBytes (take 32 (drop 32 sig))) true = true).
  { unfold ValidateSignatureValues.
    rewrite decide_False by lia. cbn [andb].
    rewrite bool_decide_eq_false_2 by lia.
    assert (secp256k1halfN < secp256k1N) by (vm_compute; done).
    rewrite !bool_decide_eq_true_2 by lia. cbn [andb].
    by destruct Hr01 as [-> | ->]. }
  rewrite Hval. cbn [negb].
  rewrite !pad32_Bytes_SetBytes.
  2:{ rewrite length_take, length_drop. lia. }
  2:{ rewrite length_take. lia. }
  assert (Hsame : take 32 sig ++ take 32 (drop 32 sig) ++ [rid] = sig).
  { transitivity (take 32 sig ++ drop 32 sig); [|apply take_drop]. f_equal.
    transitivity (take 32 (drop 32 sig) ++ drop 32 (drop 32 sig)); [|apply take_drop].
    f_equal. rewrite drop_drop.
    apply list_eq. intros i. rewrite lookup_drop.
    destruct i as [|i]; cbn.
    - by rewrite Hr.
    - symmetry. apply lookup_ge_None. lia. }
  rewrite Hsame.
  unfold MSigner_Hash in *. cbn [Data AccountNonce Recipient Amount Payload].
  rewrite Hrec.
  destruct (FromECDSAPub_tag prv) as [key Hkey].
  unfold PubkeyToAddress. rewrite Hkey. cbn [drop].
  by rewrite decide_False by auto.
Qed.

End signing.

(** ** Configuration *)

Lemma sanitize_NoLocals (config : TxPoolConfig) :
  NoLocals (sanitize config) = NoLocals config.
Proof. unfold sanitize. by destruct (decide _). Qed.

(** C9: [sanitize] returns a copy in which Rejournal is the provided
    value when that is at least one second and exactly one second when
    it is below, with every other field unchanged. *)
Theorem sanitize_Rejournal (config : TxPoolConfig) :
  (Second <= Rejournal config → Rejournal (sanitize config) = Rejournal config)
  ∧ (Rejournal config < Second → Rejournal (sanitize config) = Second)
  ∧ NoLocals (sanitize config) = NoLocals config
  ∧ Journal (sanitize config) = Journal config
  ∧ AccountSlots (sanitize config) = AccountSlots config
  ∧ GlobalSlots (sanitize config) = GlobalSlots config
  ∧ AccountQueue (sanitize config) = AccountQueue config
  ∧ GlobalQueue (sanitize config) = GlobalQueue config
  ∧ Lifetime (sanitize config) = Lifetime config.
Proof.
  unfold sanitize. destruct (decide (Rejournal config < Second)); cbn;
    repeat split; try done; lia.
Qed.

(** ** Validation and admission *)

Section admission.
Context `{Crypto}.

(** C3: [validateTx] checks its conditions in a fixed order and the
    first failure wins: oversized data, nil amount, negative amount,
    failed sender recovery, nonce too low, insufficient funds; with no
    failure the validation succeeds. *)
Theorem validateTx_first_failure (pool : TxPool) (tx : Transaction) (local : bool) :
  validateTx pool tx local = first_failure (checks pool tx).
Proof.
  unfold validateTx, first_failure, checks, sender_of. cbn [find fst].
  destruct (decide (tx_Size tx > 32 * 1024)).
  { by rewrite bool_decide_eq_true_2. }
  rewrite bool_decide_eq_false_2 by done.
  destruct (Value tx) as [value|] eqn:Ev; [|done].
  rewrite (bool_decide_eq_false_2 (Some value = None)) by done.
  cbn [default from_option]. unfold id.
  destruct (decide (Z.sgn value < 0)).
  { rewrite bool_decide_eq_true_2 by lia. done. }
  rewrite bool_decide_eq_false_2 by lia.
  destruct (pool_Sender pool tx) as [from|e]; [|done]. cbn [is_Ok negb].
  destruct (decide (GetNonce (currentState pool) from > Nonce tx)).
  { by rewrite bool_decide_eq_true_2. }
  rewrite bool_decide_eq_false_2 by done.
  destruct (decide (GetBalance (currentState pool) from < Cost tx)).
  { by rewrite bool_decide_eq_true_2. }
  by rewrite bool_decide_eq_false_2.
Qed.

(** C4: if [add] returns an error, then the pool is unchanged; the
    error is that of a known hash, of the validation, or of a full
    pool. *)
Theorem add_error_unchanged (pool pool' : TxPool) (tx : Transaction)
    (local : bool) (err : error) :
  add pool tx local = (pool', Err err) →
  pool' = pool
  ∧ (err = ErrKnownTransaction (tx_Hash tx) ∧ is_Some (all pool !! tx_Hash tx)
     ∨ validateTx pool tx local = Some err
     ∨ err = ErrPoolFull
       ∧ Z.of_nat (size (all pool)) mod two64
         >= (GlobalSlots (config pool) + GlobalQueue (config pool)) mod two64).
Proof.
  unfold add.
  destruct (decide (is_Some (all pool !! tx_Hash tx))).
  { intros [= <- <-]. auto. }
  destruct (validateTx pool tx local) as [e|] eqn:Ev.
  { intros [= <- <-]. auto. }
  destruct (decide (_ >= _)).
  { intros [= <- <-]. auto. }
  destruct (enqueueTx pool (tx_Hash tx) tx) as [q replace].
  destruct (pending pool !! sender_of pool tx) as [l|]; [|discriminate].
  destruct (Overlaps l tx); [|discriminate].
  unfold txList_Add. destruct (txList_Get l (Nonce tx)); discriminate.
Qed.

Lemma find_insertBy_others (tx : Transaction) (l : list Transaction) :
  Forall (λ t, Nonce t ≠ Nonce tx) l →
  find (λ t, bool_decide (Nonce t = Nonce tx)) (insertBy Nonce tx l) = Some tx.
Proof.
  induction 1 as [|t l Ht _ IH]; cbn.
  - by rewrite bool_decide_eq_true_2.
  - destruct (decide (Nonce tx < Nonce t)); cbn.
    + by rewrite bool_decide_eq_true_2.
    + by rewrite bool_decide_eq_false_2.
Qed.

(** After [Add] the list holds the transaction at its nonce. *)
Lemma txList_Get_Add (l : txList) (tx : Transaction) (priceBump : Z) :
  txList_Get (txList_Add l tx priceBump).2 (Nonce tx) = Some tx.
Proof.
  unfold txList_Add, txList_Get. cbn.
  apply find_insertBy_others.
  apply Forall_forall. intros t Ht. by apply list_elem_of_filter in Ht as [? _].
Qed.

(** C2 (replacement): when a valid transaction of an unknown hash is
    submitted for a sender whose pending list already holds a
    transaction at that nonce, [add] returns replace = true and the
    pending list then holds the new transaction at the nonce; but [all]
    is left as it was, so it does not hold the new hash, and no event
    is sent. *)
Theorem add_replace_pending (pool : TxPool) (tx old : Transaction)
    (local : bool) (sender : Address) (list : txList) :
  all pool !! tx_Hash tx = None →
  validateTx pool tx local = None →
  Z.of_nat (size (all pool)) mod two64
    < (GlobalSlots (config pool) + GlobalQueue (config pool)) mod two64 →
  pool_Sender pool tx = Ok sender →
  pending pool !! sender = Some list →
  txList_Get list (Nonce tx) = Some old →
  (add pool tx local).2 = Ok true
  ∧ (∃ list', pending (add pool tx local).1 !! sender = Some list'
              ∧ txList_Get list' (Nonce tx) = Some tx)
  ∧ all (add pool tx local).1 = all pool
  ∧ all (add pool tx local).1 !! tx_Hash tx = None
  ∧ txFeed (add pool tx local).1 = txFeed pool.
Proof.
  intros Hnew Hvalid Hroom Hsender Hlist Hold.
  unfold add.
  rewrite decide_False by (rewrite Hnew; by intros [? ?]).
  rewrite Hvalid.
  rewrite decide_False by lia.
  unfold sender_of. rewrite Hsender, Hlist.
  unfold Overlaps. rewrite Hold.
  rewrite bool_decide_eq_true_2 by eauto.
  destruct (enqueueTx pool (tx_Hash tx) tx) as [q replace].
  unfold txList_Add. rewrite Hold. cbn.
  split; [done|]. split; [|done].
  rewrite lookup_insert_eq. eexists. split; [done|].
  apply (txList_Get_Add list tx 0).
Qed.

End admission.

(** ** What promotion, demotion and removal leave alone *)

Lemma frame_refl (p : TxPool) : frame p p.
Proof. by split. Qed.

Lemma frame_trans (p q r : TxPool) : frame p q → frame q r → frame p r.
Proof. intros [] []. split; congruence. Qed.

Lemma foldl_frame {A} (f : TxPool → A → TxPool) (l : list A) (p : TxPool) :
  (∀ p x, frame p (f p x)) → frame p (foldl f p l).
Proof.
  intros Hf. revert p. induction l as [|x l IH]; intros p; cbn.
  - apply frame_refl.
  - eapply frame_trans; [apply Hf|apply IH].
Qed.

Section frames.
Context `{Crypto}.

Lemma frame_set_all p m : frame p (set_all p m). Proof. by split. Qed.
Lemma frame_set_queue p m : frame p (set_queue p m). Proof. by split. Qed.
Lemma frame_set_pending p m : frame p (set_pending p m). Proof. by split. Qed.
Lemma frame_set_beats p m : frame p (set_beats p m). Proof. by split. Qed.
Lemma frame_set_pendingState p m : frame p (set_pendingState p m). Proof. by split. Qed.
Lemma frame_send p tx : frame p (send p tx). Proof. by split. Qed.

Lemma frame_enqueueTx p h tx : frame p (enqueueTx p h tx).1.
Proof.
  unfold enqueueTx, txList_Add. cbn.
  destruct (txList_Get _ _); cbn; by split.
Qed.

Lemma frame_forget p txs : frame p (forget p txs).
Proof. unfold forget. apply foldl_frame. intros. by split. Qed.

Lemma frame_promoteTx now p a h tx : frame p (promoteTx now p a h tx).
Proof.
  unfold promoteTx, txList_Add. cbn.
  destruct (decide _); by split.
Qed.

Lemma frame_removeTx p h : frame p (removeTx p h).
Proof.
  unfold removeTx.
  destruct (all p !! h) as [tx|]; [|apply frame_refl].
  cbv zeta. cbn [pending set_all].
  assert (Hfut : ∀ q a, frame p q →
    frame p match queue q !! a with
            | Some future =>
                if Empty (txList_Remove future tx).2
                then set_queue q (delete a (queue q))
                else set_queue q (<[a:=(txList_Remove future tx).2]> (queue q))
            | None => q
            end).
  { intros q a Hq. destruct (queue q !! a); [|done].
    destruct (Empty _); (eapply frame_trans; [apply Hq|by split]). }
  destruct (pending p !! _) as [l|]; [|apply Hfut; by split].
  destruct (txList_Remove l tx) as [[removed invalids] l'].
  destruct removed; [|apply Hfut; by split].
  match goal with |- frame _ (if _ then set_pendingState ?q _ else ?q) =>
    assert (Hq : frame p q) end.
  { destruct (Empty l').
    - by split.
    - eapply frame_trans; [|apply foldl_frame; intros; apply frame_enqueueTx].
      by split. }
  destruct (decide _); [|done].
  eapply frame_trans; [apply Hq|by split].
Qed.

Lemma frame_promoteAccount now p a : frame p (promoteAccount now p a).
Proof.
  unfold promoteAccount.
  destruct (queue p !! a) as [l|]; [|apply frame_refl].
  destruct (Forward l _) as [olds l1].
  destruct (Filter l1 _ 0) as [[drops inv] l2].
  destruct (Ready l2 _) as [readies l3].
  set (p1 := forget (forget p olds) drops).
  assert (H1 : frame p p1).
  { eapply frame_trans; apply frame_forget. }
  set (p2 := foldl _ p1 readies).
  assert (H2 : frame p p2).
  { eapply frame_trans; [apply H1|].
    apply foldl_frame. intros. apply frame_promoteTx. }
  destruct (negb (contains (locals p2) a)).
  - destruct (Cap l3 _) as [caps l4].
    assert (H3 : frame p (forget p2 caps)).
    { eapply frame_trans; [apply H2|apply frame_forget]. }
    destruct (Empty l4); (eapply frame_trans; [apply H3|by split]).
  - destruct (Empty l3); (eapply frame_trans; [apply H2|by split]).
Qed.

Lemma frame_dropLast p a : frame p (dropLast p a).
Proof.
  unfold dropLast. destruct (Cap _ _) as [caps l].
  eapply frame_trans; [|apply foldl_frame].
  - apply frame_set_pending.
  - intros q tx. destruct (decide _); by split.
Qed.

Lemma frame_shrinkAll p n offs : frame p (shrinkAll p n offs).1.
Proof.
  unfold shrinkAll. revert p n.
  induction offs as [|a offs IH]; intros p n; cbn; [apply frame_refl|].
  eapply frame_trans; [apply (frame_dropLast p a)|apply IH].
Qed.

Lemma frame_equalize fuel p n round last thr :
  frame p (equalize fuel p n round last thr).1.
Proof.
  revert p n. induction fuel as [|fuel IH]; intros p n; cbn; [apply frame_refl|].
  destruct (decide _); [|apply frame_refl].
  pose proof (frame_shrinkAll p n round) as Hs.
  destruct (shrinkAll p n round) as [q m].
  eapply frame_trans; [apply Hs|apply IH].
Qed.

Lemma frame_penalize spammers offs p n :
  frame p (penalize spammers offs p n).1.1.
Proof.
  revert offs p n. induction spammers as [|a sp IH]; intros offs p n; cbn;
    [apply frame_refl|].
  destruct (decide _); [|apply frame_refl].
  destruct (last (removelast (offs ++ [a]))) as [prev|].
  - pose proof (frame_equalize (Z.to_nat (pendingLen p prev)) p n
                  (removelast (offs ++ [a])) prev (pendingLen p a)) as He.
    destruct (equalize _ p n _ prev _) as [q m].
    eapply frame_trans; [apply He|apply IH].
  - apply IH.
Qed.

Lemma frame_enforcePendingLimit p : frame p (enforcePendingLimit p).
Proof.
  unfold enforcePendingLimit.
  destruct (decide _); [|apply frame_refl].
  match goal with |- context [penalize ?s [] p ?n] =>
    pose proof (frame_penalize s [] p n) as Hp;
    destruct (penalize s [] p n) as [[q m] offs] end.
  destruct (last offs) as [lo|]; [|done].
  eapply frame_trans; [apply Hp|apply frame_equalize].
Qed.

Lemma frame_dropTail p txs n : frame p (dropTail p txs n).1.
Proof.
  revert p n. induction txs as [|tx txs IH]; intros p n; cbn; [apply frame_refl|].
  destruct (decide _); [|apply frame_refl].
  eapply frame_trans; [apply frame_removeTx|apply IH].
Qed.

Lemma frame_evict addrs n p : frame p (evict addrs n p).
Proof.
  revert n p. induction addrs as [|a addrs IH]; intros n p; cbn; [apply frame_refl|].
  destruct (decide (n > 0)); [|apply frame_refl].
  destruct (decide _).
  - eapply frame_trans; [|apply IH].
    apply foldl_frame. intros. apply frame_removeTx.
  - match goal with |- context [dropTail p ?t n] =>
      pose proof (frame_dropTail p t n) as Hd; destruct (dropTail p t n) as [q m] end.
    eapply frame_trans; [apply Hd|apply IH].
Qed.

Lemma frame_enforceQueueLimit p : frame p (enforceQueueLimit p).
Proof.
  unfold enforceQueueLimit. destruct (decide _); [|apply frame_refl].
  apply frame_evict.
Qed.

Lemma frame_promoteExecutables now p accounts :
  frame p (promoteExecutables now p accounts).
Proof.
  unfold promoteExecutables.
  eapply frame_trans; [|apply frame_enforceQueueLimit].
  eapply frame_trans; [|apply frame_enforcePendingLimit].
  apply foldl_frame. intros. apply frame_promoteAccount.
Qed.

Lemma frame_set_states p cs ps : frame p (set_states p cs ps).
Proof. by split. Qed.

Lemma journalTx_None p a tx : journal p = None → journalTx p a tx = p.
Proof. unfold journalTx. by intros ->. Qed.

Lemma journalTx_keeps p a tx :
  config (journalTx p a tx) = config p ∧ locals (journalTx p a tx) = locals p.
Proof.
  unfold journalTx. destruct (journal p); [|done].
  by destruct (negb _).
Qed.

(** [add] of a remote transaction keeps the configuration and the
    locals, and the journal when there is none. *)
Lemma add_remote_keeps p tx :
  config (add p tx false).1 = config p
  ∧ locals (add p tx false).1 = locals p
  ∧ (journal p = None → frame p (add p tx false).1).
Proof.
  unfold add.
  destruct (decide _); [by auto using frame_refl|].
  destruct (validateTx p tx false); [by auto using frame_refl|].
  destruct (decide _); [by auto using frame_refl|].
  pose proof (frame_enqueueTx p (tx_Hash tx) tx) as He.
  destruct (enqueueTx p (tx_Hash tx) tx) as [q replace]. cbn in He.
  assert (Hq : config (journalTx q (sender_of p tx) tx) = config p
               ∧ locals (journalTx q (sender_of p tx) tx) = locals p
               ∧ (journal p = None → frame p (journalTx q (sender_of p tx) tx))).
  { destruct (journalTx_keeps q (sender_of p tx) tx) as [-> ->].
    destruct He as [? ? ? ? Hj]. split; [done|]. split; [done|].
    intros Hn. rewrite journalTx_None by congruence. by split. }
  destruct (pending p !! _) as [l|]; [|done].
  destruct (Overlaps l tx); [|done].
  unfold txList_Add. destruct (txList_Get l _); cbn.
  - split; [done|]. split; [done|]. intros _. by split.
  - match goal with |- context [journalTx ?r ?a tx] =>
      destruct (journalTx_keeps r a tx) as [Hc Hl] end.
    cbn in Hc, Hl. rewrite Hc, Hl. split; [done|]. split; [done|].
    intros Hn. rewrite journalTx_None by done. by split.
Qed.

Lemma frame_add p tx : journal p = None → frame p (add p tx false).1.
Proof. apply add_remote_keeps. Qed.

Lemma addTx_remote_keeps now p tx :
  config (addTx now p tx false).1 = config p
  ∧ locals (addTx now p tx false).1 = locals p
  ∧ (journal p = None → frame p (addTx now p tx false).1).
Proof.
  unfold addTx.
  destruct (add_remote_keeps p tx) as (Hc & Hl & Hf).
  destruct (add p tx false) as [q [replace|e]]; [|done].
  cbn in Hc, Hl, Hf.
  destruct (negb replace); [|done]. cbn [fst].
  pose proof (frame_promoteExecutables now q (Some [sender_of q tx])) as Hp.
  destruct Hp as [Hc' ? ? Hl' ?].
  rewrite Hc', Hl'. split; [done|]. split; [done|].
  intros Hj. eapply frame_trans; [by apply Hf|].
  apply frame_promoteExecutables.
Qed.

Lemma frame_journal_None p q : frame p q → journal p = None → journal q = None.
Proof. intros [] ?. congruence. Qed.

Lemma frame_addTxsLocked now p txs :
  journal p = None → frame p (addTxsLocked now p txs false).1.
Proof.
  intros Hj. unfold addTxsLocked.
  match goal with |- context [foldl ?f (p, ?d, ?e) txs] =>
    assert (Hf : ∀ q d' e', frame p q → frame p (foldl f (q, d', e') txs).1.1) end.
  { induction txs as [|tx txs IH]; intros q d' e' Hq; cbn; [done|].
    pose proof (frame_add q tx (frame_journal_None _ _ Hq Hj)) as Ha.
    destruct (add q tx false) as [q' [replace|e]]; cbn in Ha.
    - destruct (negb replace); apply IH; by eapply frame_trans.
    - apply IH. by eapply frame_trans. }
  specialize (Hf p ∅ [] (frame_refl p)).
  destruct (foldl _ _ txs) as [[q d'] e']. cbn in Hf.
  destruct (decide _); cbn; [|done].
  eapply frame_trans; [apply Hf|apply frame_promoteExecutables].
Qed.

Lemma frame_demoteAccount p a : frame p (demoteAccount p a).
Proof.
  unfold demoteAccount.
  destruct (pending p !! a) as [l|]; [|apply frame_refl].
  destruct (Forward l _) as [olds l1].
  destruct (Filter l1 _ 0) as [[drops invalids] l2].
  set (p1 := foldl _ (forget (forget p olds) drops) invalids).
  assert (H1 : frame p p1).
  { eapply frame_trans; [|apply foldl_frame; intros; apply frame_enqueueTx].
    eapply frame_trans; apply frame_forget. }
  destruct (decide _).
  - destruct (Cap l2 0) as [caps l3].
    assert (H2 : frame p (foldl (λ pool tx, (enqueueTx pool (tx_Hash tx) tx).1) p1 caps)).
    { eapply frame_trans; [apply H1|].
      apply foldl_frame; intros; apply frame_enqueueTx. }
    destruct (Empty l3); (eapply frame_trans; [apply H2|by split]).
  - destruct (Empty l2); (eapply frame_trans; [apply H1|by split]).
Qed.

Lemma frame_demoteUnexecutables p : frame p (demoteUnexecutables p).
Proof.
  unfold demoteUnexecutables. apply foldl_frame. intros. apply frame_demoteAccount.
Qed.

Lemma frame_latestNonces p q : latestNonces p = Some q → frame p q.
Proof.
  unfold latestNonces.
  generalize (map_to_list (pending p)). intros l.
  assert (Hl : ∀ acc, foldl (λ pool '(addr, list),
             pool ← pool; tx ← last (Flatten list);
             Some (set_pendingState pool
                     (ms_SetNonce (pendingState pool) addr ((Nonce tx + 1) mod two64))))
            acc l = Some q → ∃ p', acc = Some p' ∧ frame p' q).
  { induction l as [|[a tl] l IH]; intros acc; cbn.
    - intros ->. eexists. split; [done|apply frame_refl].
    - intros Hq. apply IH in Hq as (p' & Hacc & Hp').
      destruct acc as [p0|]; [|done]. cbn in Hacc.
      destruct (last (Flatten tl)); [|done]. cbn in Hacc.
      injection Hacc as <-. eexists. split; [done|].
      eapply frame_trans; [|apply Hp']. by split. }
  intros Hq. apply Hl in Hq as (p' & [= <-] & Hp'). done.
Qed.

Lemma frame_reset now p oldHead newHead q :
  journal p = None → reset now p oldHead newHead = Some q → frame p q.
Proof.
  intros Hj. unfold reset.
  match goal with |- match ?r with _ => _ end = _ → _ => destruct r as [reinject| | |] end;
    [|by intros [= <-]; apply frame_refl|done|done].
  destruct (StateAt _ _) as [statedb|e]; [|by intros [= <-]; apply frame_refl].
  set (p1 := set_states p statedb (ManageState statedb)).
  pose proof (frame_addTxsLocked now p1 reinject Hj) as H2.
  set (p3 := demoteUnexecutables _).
  destruct (latestNonces p3) as [p4|] eqn:E4; [|done].
  cbn. intros [= <-].
  eapply frame_trans; [|apply frame_promoteExecutables].
  eapply frame_trans; [|apply (frame_latestNonces _ _ E4)].
  eapply frame_trans; [|apply frame_demoteUnexecutables].
  eapply frame_trans; [|apply H2]. by split.
Qed.

(** C8: when [config.NoLocals] is true, [AddLocal] is [AddRemote]: the
    transaction is added with the local flag false, the sender is not
    inserted into the locals set, and a pool made by [NewTxPool] has no
    journal and none is made or written by the call. *)
Theorem NoLocals_AddLocal (now : Z) (pool : TxPool) (tx : Transaction) :
  NoLocals (config pool) = true →
  AddLocal now pool tx = AddRemote now pool tx
  ∧ AddLocal now pool tx = addTx now pool tx false
  ∧ locals (AddLocal now pool tx).1 = locals pool
  ∧ NoLocals (config (AddLocal now pool tx).1) = true
  ∧ (journal pool = None → journal (AddLocal now pool tx).1 = None)
  ∧ (∀ now0 disk cfg chainconfig blocks pool0,
       NoLocals cfg = true →
       NewTxPool now0 disk cfg chainconfig blocks = Some pool0 →
       journal pool0 = None ∧ locals pool0 = ∅
       ∧ NoLocals (config pool0) = true).
Proof.
  intros Hno. unfold AddLocal, AddRemote. rewrite Hno. cbn [negb].
  destruct (addTx_remote_keeps now pool tx) as (Hc & Hl & Hf).
  split; [done|]. split; [done|]. split; [done|].
  split; [by rewrite Hc|]. split.
  - intros Hj. destruct (Hf Hj). congruence.
  - intros now0 disk cfg cc ch pool0 Hcfg. unfold NewTxPool.
    destruct (StateAt ch _) as [statedb|e]; [|done].
    match goal with |- (pool ← reset now0 ?p None ?h; _) = _ → _ =>
      destruct (reset now0 p None h) as [q|] eqn:Er; [|done];
      apply frame_reset in Er; [|done] end.
    cbn. pose proof (sanitize_NoLocals cfg) as Hn.
    rewrite Hn, Hcfg. cbn. intros [= <-].
    destruct Er as [Hc' _ _ Hl' Hjj]. rewrite Hl', Hjj, Hc'. cbn. by rewrite Hn.
Qed.

End frames.

(** ** The fuel of the pending limit *)

Section fuel.
Context `{Crypto}.






End fuel.

(** ** The order of eviction *)

Section sorting.
Context {A : Type} (key : A → Z).

Lemma insertBy_Permutation (x : A) (l : list A) : insertBy key x l ≡ₚ x :: l.
Proof.
  induction l as [|y l IH]; cbn; [done|].
  destruct (decide (key x < key y)); [done|].
  rewrite IH. apply Permutation_swap.
Qed.

Lemma sortBy_Permutation (l : list A) : sortBy key l ≡ₚ l.
Proof.
  induction l as [|x l IH]; cbn; [done|].
  rewrite insertBy_Permutation. by f_equiv.
Qed.

Lemma insertBy_Sorted (x : A) (l : list A) :
  Sorted (λ a b, key a <= key b) l →
  Sorted (λ a b, key a <= key b) (insertBy key x l).
Proof.
  induction 1 as [|y l Hl IH Hhd]; cbn.
  - by repeat constructor.
  - destruct (decide (key x < key y)).
    + repeat constructor; [done|done|lia].
    + constructor; [done|].
      destruct Hhd as [|z l' Hz]; cbn.
      * constructor. lia.
      * destruct (decide (key x < key z)); constructor; lia.
Qed.

Lemma sortBy_Sorted (l : list A) : Sorted (λ a b, key a <= key b) (sortBy key l).
Proof.
  induction l as [|x l IH]; cbn; [constructor|]. by apply insertBy_Sorted.
Qed.

End sorting.

Section eviction.
Context `{Crypto}.

(** The queue limit visits the accounts from the newest heartbeat to
    the oldest: when the queued transactions exceed [GlobalQueue], the
    eviction loop runs over the non-local accounts of the queue, each
    with its heartbeat, in an order in which no account comes before
    one of a newer heartbeat. *)
Theorem enforceQueueLimit_newest_first (pool : TxPool) :
  (stats pool).2 mod two64 > GlobalQueue (config pool) →
  ∃ addresses,
    enforceQueueLimit pool
    = evict addresses ((stats pool).2 mod two64 - GlobalQueue (config pool)) pool
    ∧ StronglySorted (λ a b, heartbeat b <= heartbeat a) addresses
    ∧ address <$> addresses
      ≡ₚ filter (λ addr, ¬ contains (locals pool) addr) (map_to_list (queue pool)).*1
    ∧ Forall (λ a, heartbeat a = default 0 (beats pool !! address a)) addresses.
Proof.
  intros Hover. unfold enforceQueueLimit. rewrite decide_True by done.
  eexists. split; [reflexivity|]. split; [|split].
  - apply Sorted_StronglySorted.
    { intros a b c. lia. }
    eapply (Sorted_reverse (λ a b, heartbeat a <= heartbeat b)).
    apply sortBy_Sorted.
  - unfold sortByHeartbeat. rewrite reverse_Permutation, sortBy_Permutation.
    rewrite <- list_fmap_compose. cbn. by rewrite list_fmap_id.
  - apply Forall_reverse. unfold sortByHeartbeat.
    rewrite sortBy_Permutation. apply Forall_fmap, Forall_forall. done.
Qed.

End eviction.

(** ** More on signing and recovering *)

Section signing2.
Context `{Crypto}.

(** The chain id that a freshly signed transaction carries is that of
    the signer. *)
Lemma SignTx_ChainId (c : Z) (tx signed : Transaction) (prv : Z) (sig : list byte) :
  0 <= c →
  Sign (MSigner_Hash (NewMSigner (Some c)) tx) prv = Ok sig →
  length sig = 65%nat →
  sig !! 64%nat = Some x00 ∨ sig !! 64%nat = Some x01 →
  SignTx tx (NewMSigner (Some c)) prv = Ok signed →
  ChainId signed = c ∧ from signed = None.
Proof.
  intros Hc Hsig Hlen Hrid. unfold SignTx. rewrite Hsig.
  assert (Hv : ∃ rid, sig !! 64%nat = Some rid ∧ 0 <= byte_val rid <= 1).
  { destruct Hrid as [E|E]; eexists; (split; [exact E|]); cbn; lia. }
  destruct Hv as (rid & Hr & Hrv).
  unfold WithSignature. rewrite (SignatureValues_V _ tx sig rid) by done.
  cbn [NewMSigner chainId chainIdMul default from_option]. unfold id.
  intros [= <-]. split; [|done]. unfold ChainId. cbn [Data tx_V].
  destruct (decide (c = 0)) as [->|Hne].
  - by apply deriveChainId_legacy.
  - apply deriveChainId_wire; lia.
Qed.

End signing2.

Lemma ValidateSignatureValues_true (v : byte) (r s : Z) :
  ValidateSignatureValues v r s true = true →
  1 <= r < secp256k1N ∧ 1 <= s <= secp256k1halfN ∧ (v = x00 ∨ v = x01).
Proof.
  unfold ValidateSignatureValues.
  destruct (decide (r < 1 ∨ s < 1)); [done|]. cbn [andb].
  destruct (bool_decide (s > secp256k1halfN)) eqn:Es; [done|].
  apply bool_decide_eq_false in Es.
  intros [[Hr _]%andb_prop Hv%orb_prop]%andb_prop.
  apply bool_decide_eq_true in Hr.
  split; [lia|]. split; [lia|].
  destruct Hv as [E|E]; apply bool_decide_eq_true in E; auto.
Qed.

(** The recovery id that [recoverPlain] computes is 0 or 1 only for a
    V of absolute value 27 or 28. *)
Lemma recid_27_28 (Vb : Z) :
  BitLen Vb <= 8 →
  to_byte ((Uint64 Vb - 27) mod two64) = x00
  ∨ to_byte ((Uint64 Vb - 27) mod two64) = x01 →
  Z.abs Vb = 27 ∨ Z.abs Vb = 28.
Proof.
  intros Hb%BitLen_bound; [|lia].
  assert (0 <= Z.abs Vb) by lia.
  change (2 ^ 8) with 256 in Hb.
  unfold Uint64, two64. change (2 ^ 64) with 18446744073709551616.
  rewrite (Z.mod_small (Z.abs Vb)) by lia.
  intros E.
  assert (E' : ((Z.abs Vb - 27) mod 18446744073709551616) mod 256 = 0
               ∨ ((Z.abs Vb - 27) mod 18446744073709551616) mod 256 = 1).
  { destruct E as [E|E]; apply (f_equal byte_val) in E;
      rewrite byte_val_to_byte in E; cbn in E; auto. }
  clear E. revert E'. generalize (Z.abs Vb) H Hb. clear. intros w H0 H1.
  Z.to_euclidean_division_equations. lia.
Qed.

Lemma deriveChainId_negative (c v : Z) :
  0 <= c → v = c * 2 - 19 ∨ v = c * 2 - 20 → deriveChainId v ≠ c.
Proof.
  intros Hc Hv. unfold deriveChainId.
  destruct (decide (BitLen v <= 64)) as [Hb|Hb].
  - apply BitLen_bound in Hb; [|lia].
    unfold Uint64, two64 in *. change (2 ^ 64) with 18446744073709551616 in *.
    rewrite (Z.mod_small (Z.abs v)) by lia.
    destruct (decide _) as [E|E]; [lia|].
    Z.to_euclidean_division_equations. lia.
  - Z.to_euclidean_division_equations. lia.
Qed.

Section accept.
Context `{Crypto}.

Lemma length_copy20 (src : list byte) : length (copy20 src) = 20%nat.
Proof.
  unfold copy20. rewrite length_take, length_app, length_replicate. lia.
Qed.

(** What [MSigner.Sender] accepts: a transaction whose sender it
    recovers has the V of the chain id (35 or 36 plus twice the id), an
    R below the order of the curve, an S in its lower half, neither of
    them 0, and the address recovered has 20 bytes. *)
Theorem MSigner_Sender_accepts (c : Z) (tx : Transaction) (addr : Address) :
  0 <= c →
  MSigner_Sender (NewMSigner (Some c)) tx = Ok addr →
  (tx_V (Data tx) = 35 + c * 2 ∨ tx_V (Data tx) = 36 + c * 2)
  ∧ 1 <= tx_R (Data tx) < secp256k1N
  ∧ 1 <= tx_S (Data tx) <= secp256k1halfN
  ∧ length addr = 20%nat.
Proof.
  intros Hc. unfold MSigner_Sender.
  cbn [NewMSigner chainId chainIdMul default from_option]. unfold id, big8.
  destruct (decide (ChainId tx ≠ c)) as [|Hid]; [done|].
  apply dec_stable in Hid. unfold ChainId in Hid.
  unfold recoverPlain.
  destruct (decide (BitLen _ > 8)) as [|Hb]; [done|].
  destruct (ValidateSignatureValues _ _ _ true) eqn:Hval; [|done]. cbn [negb].
  apply ValidateSignatureValues_true in Hval as (HR & HS & Hv).
  apply recid_27_28 in Hv; [|lia].
  intros Hok.
  split; [|split; [done|split; [done|]]].
  - destruct (decide (tx_V (Data tx) = c * 2 - 19 ∨ tx_V (Data tx) = c * 2 - 20))
      as [Hneg|Hpos]; [|lia].
    by apply (deriveChainId_negative c) in Hneg.
  - destruct (Ecrecover _ _) as [[|tag key]|e]; [done| |done].
    destruct (decide (tag ≠ x04)); [done|].
    injection Hok as <-. apply length_copy20.
Qed.
End accept.

Section more_signing.
Context `{Crypto}.

(** A nil recipient is hashed as the zero address: a signature on a
    contract creation is a signature on the transfer to the zero
    address of the same content, by the same sender. *)
Theorem Sender_nil_recipient (s : MSigner) (d : txdata) :
  MSigner_Hash s {| Data := with_Recipient d None; from := None |}
  = MSigner_Hash s {| Data := with_Recipient d (Some (replicate 20 x00)); from := None |}
  ∧ (Sender s {| Data := with_Recipient d None; from := None |}).1
    = (Sender s {| Data := with_Recipient d (Some (replicate 20 x00)); from := None |}).1.
Proof.
  split; [done|]. unfold Sender. cbn [from].
  assert (E : MSigner_Sender s {| Data := with_Recipient d None; from := None |}
            = MSigner_Sender s {| Data := with_Recipient d (Some (replicate 20 x00));
                                   from := None |}) by done.
  rewrite E. by destruct (MSigner_Sender _ _).
Qed.

(** The r and s that [SignatureValues] reads from a signature are
    written by [recoverPlain] to the bytes they were read from. *)
Theorem SignatureValues_bytes (s : MSigner) (tx : Transaction) (sig : list byte)
    (R S V : Z) :
  SignatureValues s tx sig = Ok (R, S, V) →
  length sig = 65%nat
  ∧ pad32 (Bytes R) ++ pad32 (Bytes S) = take 64 sig.
Proof.
  unfold SignatureValues. destruct (decide _) as [|Hl]; [done|].
  apply dec_stable in Hl. intros [= <- <- _]. split; [done|].
  rewrite !pad32_Bytes_SetBytes.
  2:{ rewrite length_take, length_drop. lia. }
  2:{ rewrite length_take. lia. }
  by rewrite take_take_drop.
Qed.

End more_signing.

(** ** Transactions of another chain *)

Section other_chain.
Context `{Crypto} `{!CryptoLaws}.

(** A transaction signed for one chain is not accepted on another:
    [Sender] with the signer of another chain id fails with
    [ErrInvalidChainId] and caches nothing, and a pool of that signer
    rejects the transaction with [ErrInvalidSender]. *)
Theorem other_chain_rejected (c c' : Z) (tx signed : Transaction) (prv : Z) :
  0 <= c → c' ≠ c →
  SignTx tx (NewMSigner (Some c)) prv = Ok signed →
  (∀ blockNumber,
     Sender (MakeSigner (Some c') blockNumber) signed = (Err ErrInvalidChainId, signed))
  ∧ ∀ pool local value,
      signer pool = NewMSigner (Some c') →
      tx_Size signed <= 32 * 1024 →
      Value signed = Some value → 0 <= value →
      validateTx pool signed local = Some ErrInvalidSender
      ∧ (all pool !! tx_Hash signed = None →
         add pool signed local = (pool, Err ErrInvalidSender)).
Proof.
  intros Hc Hne Hs.
  assert (Hsender : Sender (NewMSigner (Some c')) signed = (Err ErrInvalidChainId, signed)).
  { assert (Hs' := Hs). unfold SignTx in Hs'.
    destruct (Sign _ prv) as [sig|e] eqn:Hsig; [|done].
    destruct (Sign_sound _ _ _ Hsig) as (Hlen & Hrid & _).
    destruct (SignTx_ChainId c tx signed prv sig Hc Hsig Hlen Hrid Hs) as [Hid Hfrom].
    unfold Sender. rewrite Hfrom. unfold MSigner_Sender. rewrite Hid.
    cbn [NewMSigner chainId default from_option]. unfold id.
    by rewrite decide_True by congruence. }
  split; [done|]. intros pool local value Hsig Hsize Hv Hpos.
  assert (Hval : validateTx pool signed local = Some ErrInvalidSender).
  { unfold validateTx. rewrite decide_False by lia. rewrite Hv.
    rewrite decide_False by lia.
    unfold pool_Sender. rewrite Hsig. by rewrite Hsender. }
  split; [done|]. intros Hnew. unfold add.
  rewrite decide_False by (rewrite Hnew; by intros [? ?]). by rewrite Hval.
Qed.

End other_chain.

(** ** Admission, lookups and batches *)

Section admission2.
Context `{Crypto}.

(** The list after [Add] holds the transaction. *)
Lemma elem_of_txList_Add (l : txList) (tx : Transaction) (priceBump : Z) :
  tx ∈ items (txList_Add l tx priceBump).2.
Proof.
  unfold txList_Add. cbn. rewrite insertBy_Permutation. apply list_elem_of_here.
Qed.

(** What an accepted transaction that replaces nothing leaves behind. *)
Lemma add_Ok_false (pool pool' : TxPool) (tx : Transaction) (local : bool) :
  add pool tx local = (pool', Ok false) →
  let from := sender_of pool tx in
  let list := default (newTxList false) (queue pool !! from) in
  txList_Get list (Nonce tx) = None
  ∧ (∀ l, pending pool !! from = Some l → txList_Get l (Nonce tx) = None)
  ∧ pool' =
    journalTx
      (let q := set_all (set_queue pool (<[from := (txList_Add list tx 0).2]> (queue pool)))
                        (<[tx_Hash tx := tx]> (all pool)) in
       if local then set_locals q (accountSet_add (locals q) from) else q)
      from tx.
Proof.
  unfold add.
  destruct (decide (is_Some (all pool !! tx_Hash tx))); [done|].
  destruct (validateTx pool tx local); [done|].
  destruct (decide (_ >= _)); [done|].
  assert (Henq : ∀ r,
    (let '(pool0, replace) := enqueueTx pool (tx_Hash tx) tx in
     (journalTx (if local then set_locals pool0 (accountSet_add (locals pool0) (sender_of pool tx))
                 else pool0) (sender_of pool tx) tx, Ok replace)) = (pool', Ok false) →
    r = txList_Get (default (newTxList false) (queue pool !! sender_of pool tx)) (Nonce tx) →
    r = None ∧ pool' = journalTx
      (let q := set_all (set_queue pool (<[sender_of pool tx :=
                  (txList_Add (default (newTxList false) (queue pool !! sender_of pool tx)) tx 0).2]>
                  (queue pool))) (<[tx_Hash tx := tx]> (all pool)) in
       if local then set_locals q (accountSet_add (locals q) (sender_of pool tx)) else q)
      (sender_of pool tx) tx).
  { intros r. unfold enqueueTx, txList_Add. intros E ->.
    destruct (txList_Get _ (Nonce tx)); [done|]. by injection E as <-. }
  destruct (pending pool !! sender_of pool tx) as [l|] eqn:El.
  - destruct (Overlaps l tx) eqn:Eo.
    + unfold txList_Add. by destruct (txList_Get l (Nonce tx)).
    + intros E. destruct (Henq _ E eq_refl) as [? ?].
      split; [done|]. split; [|done].
      intros l' [= <-]. unfold Overlaps in Eo. apply bool_decide_eq_false in Eo.
      destruct (txList_Get l (Nonce tx)); [|done]. by destruct Eo.
  - intros E. destruct (Henq _ E eq_refl) as [? ?]. done.
Qed.

Lemma sender_of_signer (p q : TxPool) (tx : Transaction) :
  signer q = signer p → sender_of q tx = sender_of p tx.
Proof. unfold sender_of, pool_Sender. by intros ->. Qed.

(** A transaction that [add] accepts without replacing another is
    found afterwards: [Get] returns it, [Status] reports it as queued,
    [Content] lists it in the queue of its sender, the pending lists and
    the feed are as before, and a second [add] of it fails with
    [ErrKnownTransaction] and changes nothing. *)
Theorem add_then_lookup (pool pool' : TxPool) (tx : Transaction) (local local' : bool) :
  add pool tx local = (pool', Ok false) →
  Get pool' (tx_Hash tx) = Some tx
  ∧ Status pool' [tx_Hash tx] = [TxStatusQueued]
  ∧ (∃ txs, (Content pool').2 !! sender_of pool tx = Some txs ∧ tx ∈ txs)
  ∧ Pending pool' = Pending pool
  ∧ txFeed pool' = txFeed pool
  ∧ add pool' tx local' = (pool', Err (ErrKnownTransaction (tx_Hash tx))).
Proof.
  intros Hadd. destruct (add_Ok_false _ _ _ _ Hadd) as (Hq & Hp & ->).
  set (from := sender_of pool tx) in *.
  set (list := default (newTxList false) (queue pool !! from)) in *.
  match goal with |- context [journalTx ?q from tx] => set (mid := q) end.
  assert (Hall : all (journalTx mid from tx) !! tx_Hash tx = Some tx).
  { unfold journalTx. destruct (journal mid); [destruct (negb _)|];
      subst mid; destruct local; cbn; apply lookup_insert_eq. }
  assert (Hpend : pending (journalTx mid from tx) = pending pool).
  { unfold journalTx. destruct (journal mid); [destruct (negb _)|];
      subst mid; by destruct local. }
  assert (Hqueue : queue (journalTx mid from tx)
                   = <[from := (txList_Add list tx 0).2]> (queue pool)).
  { unfold journalTx. destruct (journal mid); [destruct (negb _)|];
      subst mid; by destruct local. }
  assert (Hsig : signer (journalTx mid from tx) = signer pool).
  { unfold journalTx. destruct (journal mid); [destruct (negb _)|];
      subst mid; by destruct local. }
  assert (Hfeed : txFeed (journalTx mid from tx) = txFeed pool).
  { unfold journalTx. destruct (journal mid); [destruct (negb _)|];
      subst mid; by destruct local. }
  clearbody mid.
  split; [done|]. split; [|split; [|split; [|split]]].
  - unfold Status. cbn [fmap list_fmap]. rewrite Hall.
    rewrite (sender_of_signer pool) by done. fold from. rewrite Hpend.
    destruct (pending pool !! from) as [l|] eqn:El; [|done].
    rewrite (Hp l eq_refl). by rewrite decide_False by (by intros [? ?]).
  - unfold Content. cbn [snd]. rewrite Hqueue, lookup_fmap, lookup_insert_eq.
    eexists. split; [done|]. apply elem_of_txList_Add.
  - unfold Pending. by rewrite Hpend.
  - done.
  - unfold add. rewrite decide_True; [done|]. by rewrite Hall.
Qed.

End admission2.

Section batches.
Context `{Crypto}.

Lemma add_Err (pool pool' : TxPool) (tx : Transaction) (local : bool) (err : error) :
  add pool tx local = (pool', Err err) → pool' = pool.
Proof.
  unfold add.
  destruct (decide (is_Some (all pool !! tx_Hash tx))); [by intros [= <-]|].
  destruct (validateTx pool tx local); [by intros [= <-]|].
  destruct (decide (_ >= _)); [by intros [= <-]|].
  destruct (enqueueTx pool (tx_Hash tx) tx) as [q replace].
  destruct (pending pool !! sender_of pool tx) as [l|]; [|discriminate].
  destruct (Overlaps l tx); [|discriminate].
  unfold txList_Add. destruct (txList_Get l (Nonce tx)); discriminate.
Qed.

(** A batch of one transaction is the single submission. *)
Theorem addTxs_single (now : Z) (pool : TxPool) (tx : Transaction) (local : bool) :
  addTxs now pool [tx] local
  = ((addTx now pool tx local).1, [(addTx now pool tx local).2]).
Proof.
  unfold addTxs, addTxsLocked, addTx. cbn [foldl].
  destruct (add pool tx local) as [q [replace|err]] eqn:Eadd.
  - destruct replace; cbn [negb app].
    + by rewrite decide_False by (by intros []).
    + rewrite decide_True by set_solver.
      by rewrite (right_id_L ∅ (∪)), elements_singleton.
  - cbn [app]. by rewrite decide_False by (by intros []).
Qed.


Lemma inject_errors (local : bool) (txs : list Transaction) pool dirty errs :
  let r := foldl (inject local) (pool, dirty, errs) txs in
  ∃ errs', r.2 = errs ++ errs'
    ∧ length errs' = length txs
    ∧ (Forall (λ e, e ≠ None) errs' → r.1.1 = pool ∧ r.1.2 = dirty).
Proof.
  revert pool dirty errs. induction txs as [|tx txs IH]; intros pool dirty errs r.
  - exists []. subst r. cbn. by rewrite app_nil_r.
  - subst r. cbn [foldl].
    destruct (add pool tx local) as [q [replace|err]] eqn:Eadd.
    + assert (Hstep : inject local (pool, dirty, errs) tx
                      = (q, if negb replace then {[sender_of q tx]} ∪ dirty else dirty,
                         errs ++ [None])).
      { unfold inject. rewrite Eadd. by destruct replace. }
      rewrite Hstep.
      destruct (IH q (if negb replace then {[sender_of q tx]} ∪ dirty else dirty)
                  (errs ++ [None])) as (errs' & E & Hl & _).
      exists (None :: errs').
      rewrite E, <- app_assoc. split; [done|]. split; [cbn; lia|].
      intros Hf. by apply Forall_cons in Hf as [? _].
    + assert (Hstep : inject local (pool, dirty, errs) tx
                      = (pool, dirty, errs ++ [Some err])).
      { unfold inject. rewrite Eadd. by apply add_Err in Eadd as ->. }
      rewrite Hstep.
      destruct (IH pool dirty (errs ++ [Some err])) as (errs' & E & Hl & Hs).
      exists (Some err :: errs'). rewrite E, <- app_assoc.
      split; [done|]. split; [cbn; lia|].
      intros Hf. apply Forall_cons in Hf as [_ Hf]. auto.
Qed.

(** [addTxs] returns one error slot for each transaction of the batch,
    and a batch of which every transaction is rejected leaves the pool
    as it was. *)
Theorem addTxs_errors (now : Z) (pool : TxPool) (txs : list Transaction) (local : bool) :
  length (addTxs now pool txs local).2 = length txs
  ∧ (Forall (λ e, e ≠ None) (addTxs now pool txs local).2 →
     (addTxs now pool txs local).1 = pool).
Proof.
  unfold addTxs, addTxsLocked.
  change (foldl _ (pool, ∅, []) txs) with (foldl (inject local) (pool, ∅, []) txs).
  destruct (inject_errors local txs pool ∅ []) as (errs' & E & Hl & Hs).
  destruct (foldl (inject local) (pool, ∅, []) txs) as [[q dirty] errs].
  cbn in E, Hs. subst errs. cbn [app].
  destruct (decide (dirty ≠ ∅)) as [Hd|Hd]; cbn [fst snd].
  - split; [done|]. intros Hf. destruct (Hs Hf) as [_ ?]. done.
  - split; [done|]. intros Hf. by destruct (Hs Hf) as [? _].
Qed.

End batches.

(** ** Removal and the journal *)

Section removal.
Context `{Crypto}.

Lemma filter_above_nil (n : Z) (l : list Transaction) :
  Forall (λ t, n <= Nonce t) l →
  filter (λ t, ¬ Nonce t > n) (filter (λ t, Nonce t ≠ n) l) = [].
Proof.
  induction 1 as [|t l Ht _ IH]; [done|].
  rewrite filter_cons. destruct (decide (Nonce t ≠ n)); [|done].
  rewrite filter_cons. by rewrite decide_False by lia.
Qed.

(** [removeTx] of the pending transaction of the lowest nonce of its
    account removes the whole pending list and the heartbeat of the
    account: the later transactions of the list are not queued again. *)
Theorem removeTx_first_pending (pool : TxPool) (hash : Hash)
    (tx t : Transaction) (l : txList) :
  all pool !! hash = Some tx →
  pending pool !! sender_of pool tx = Some l →
  strict l = true →
  txList_Get l (Nonce tx) = Some t →
  Data t = Data tx →
  Forall (λ t, Nonce tx <= Nonce t) (items l) →
  pending (removeTx pool hash) = delete (sender_of pool tx) (pending pool)
  ∧ beats (removeTx pool hash) = delete (sender_of pool tx) (beats pool)
  ∧ queue (removeTx pool hash) = queue pool
  ∧ all (removeTx pool hash) = delete hash (all pool).
Proof.
  intros Hall Hl Hs Hget Hd Hmin. unfold removeTx. rewrite Hall.
  cbn [pending set_all]. rewrite Hl.
  unfold txList_Remove. rewrite Hget, decide_True by done. rewrite Hs.
  rewrite filter_above_nil by done.
  unfold Empty, Len. cbn [set_items items length].
  rewrite bool_decide_eq_true_2 by done.
  assert (Hdel : delete (sender_of pool tx)
                   (<[sender_of pool tx := set_items l []]> (pending pool))
                 = delete (sender_of pool tx) (pending pool)).
  { apply delete_insert_eq. }
  destruct (decide (_ > Nonce tx)); cbn; by rewrite Hdel.
Qed.

End removal.

Section journalling.
Context `{Crypto}.


End journalling.

Section closed.
Context `{Crypto}.


Lemma journalTx_closed p a tx : closed p → journal (journalTx p a tx) = journal p.
Proof.
  intros Hc. unfold journalTx. destruct (journal p) as [j|] eqn:Ej; [|done].
  destruct (negb _); [done|]. cbn. f_equal. unfold journal_insert.
  specialize (Hc j Ej).
  destruct (writer j) as [[]|]; done.
Qed.

Lemma add_closed p tx local : closed p → journal (add p tx local).1 = journal p.
Proof.
  intros Hc. unfold add.
  destruct (decide (is_Some _)); [done|].
  destruct (validateTx p tx local); [done|].
  destruct (decide (_ >= _)); [done|].
  assert (Henq :
    journal (let '(pool, replace) := enqueueTx p (tx_Hash tx) tx in
             (journalTx (if local then set_locals pool
                                         (accountSet_add (locals pool) (sender_of p tx))
                         else pool) (sender_of p tx) tx, Ok replace)).1 = journal p).
  { pose proof (frame_enqueueTx p (tx_Hash tx) tx) as [_ _ _ _ Hj].
    destruct (enqueueTx p (tx_Hash tx) tx) as [q replace]. cbn [fst] in *.
    rewrite journalTx_closed; [by destruct local|].
    intros j Ej. apply Hc. rewrite <- Hj, <- Ej. by destruct local. }
  destruct (pending p !! sender_of p tx) as [l|]; [|done].
  destruct (Overlaps l tx); [|done].
  unfold txList_Add. destruct (txList_Get l (Nonce tx)); [done|].
  cbn [fst send journal set_txFeed]. by rewrite journalTx_closed.
Qed.

Lemma addTx_closed now p tx local :
  closed p → journal (addTx now p tx local).1 = journal p.
Proof.
  intros Hc. unfold addTx. pose proof (add_closed p tx local Hc) as Ha.
  destruct (add p tx local) as [q [replace|err]]; cbn [fst] in *; [|done].
  destruct (negb replace); [|done]. cbn [fst].
  by rewrite (frame_journal _ _ (frame_promoteExecutables now q _)).
Qed.

Lemma foldl_AddLocal_closed now txs p :
  closed p → journal (foldl (λ pool tx, (AddLocal now pool tx).1) p txs) = journal p.
Proof.
  revert p. induction txs as [|tx txs IH]; intros p Hc; [done|]. cbn [foldl].
  rewrite IH.
  - by apply addTx_closed.
  - intros j. unfold AddLocal. rewrite addTx_closed by done. apply Hc.
Qed.

(** Loading the journal adds its transactions without writing to it:
    the file and the (nil) writer are as before. *)
Theorem journal_load_keeps (now : Z) (pool : TxPool) (j : txJournal) :
  journal pool = Some j → writer j = None →
  journal (journal_load now pool) = Some j.
Proof.
  intros Ej Hw. unfold journal_load. rewrite Ej.
  destruct (file j) as [txs|] eqn:Ef; [|done].
  cbn [journal set_journal fmap option_fmap option_map].
  rewrite foldl_AddLocal_closed.
  - cbn. f_equal. destruct j; cbn in *. by subst.
  - intros j'. cbn. by intros [= <-].
Qed.

(** After [Stop] a submission leaves the journal as it is. *)
Theorem Stop_addTx (now : Z) (pool : TxPool) (tx : Transaction) (local : bool) :
  journal (addTx now (Stop pool) tx local).1 = journal (Stop pool)
  ∧ ∀ j, journal (Stop pool) = Some j →
         journal_insert j tx = (j, Some errNoActiveJournal).
Proof.
  assert (Hc : ∀ j, journal (Stop pool) = Some j → writer j = None).
  { unfold Stop. cbn. destruct (journal pool); [|done]. by intros j [= <-]. }
  split.
  - apply addTx_closed. intros j Ej. by rewrite (Hc j Ej).
  - intros j Ej. unfold journal_insert. by rewrite (Hc j Ej).
Qed.

End closed.

Section fresh.
Context `{Crypto}.

Lemma promoteExecutables_empty now p :
  pending p = ∅ → queue p = ∅ → promoteExecutables now p None = p.
Proof.
  intros Hp Hq. unfold promoteExecutables. cbn [default from_option]. unfold id.
  rewrite Hq, map_to_list_empty. cbn [fmap list_fmap foldl].
  assert (He : enforcePendingLimit p = p).
  { unfold enforcePendingLimit, stats. rewrite Hp, map_to_list_empty.
    cbn [foldr fst fmap list_fmap]. destruct (decide _); [|done].
    rewrite filter_nil. done. }
  rewrite He. unfold enforceQueueLimit, stats.
  rewrite Hq, map_to_list_empty. cbn [foldr snd fmap list_fmap].
  destruct (decide _); [|done]. by rewrite filter_nil.
Qed.

Lemma reset_empty now p head db :
  pending p = ∅ → queue p = ∅ →
  StateAt (chain p) (StateHash head) = Ok db →
  reset now p None (Some head) = Some (set_states p db (ManageState db)).
Proof.
  intros Hp Hq Hs. unfold reset. cbn [default from_option]. unfold id.
  rewrite Hs. unfold addTxsLocked. cbn [foldl].
  rewrite decide_False by (by intros []). cbn [fst].
  unfold demoteUnexecutables. cbn [pending set_states].
  rewrite Hp, map_to_list_empty. cbn [fmap list_fmap foldl].
  unfold latestNonces. cbn [pending set_states].
  rewrite Hp, map_to_list_empty. cbn [foldl mbind option_bind].
  by rewrite promoteExecutables_empty.
Qed.

(** A pool made without a journal is empty: it holds the sanitized
    configuration, the signer of the chain id and the state of the
    head. *)
Theorem NewTxPool_fresh (now : Z) (disk : option (list Transaction))
    (cfg : TxPoolConfig) (chainconfig : option Z) (blocks : blockChain)
    (db : StateDB) :
  StateAt blocks (StateHash (BlockHeader (CurrentBlock blocks))) = Ok db →
  NoLocals cfg = true ∨ Journal cfg = "" →
  NewTxPool now disk cfg chainconfig blocks
  = Some {| config := sanitize cfg; chain := blocks;
            signer := NewMSigner chainconfig;
            currentState := db; pendingState := ManageState db;
            locals := ∅; journal := None;
            pending := ∅; queue := ∅; beats := ∅; all := ∅; txFeed := [] |}.
Proof.
  intros Hs Hoff. unfold NewTxPool. rewrite Hs.
  rewrite (reset_empty _ _ _ db) by done.
  cbn [mbind option_bind].
  assert (E : negb (NoLocals (sanitize cfg)) && bool_decide (Journal (sanitize cfg) ≠ "")
              = false).
  { unfold sanitize. destruct (decide _); cbn; destruct Hoff as [-> | ->]; try done;
      by rewrite andb_false_r. }
  by rewrite E.
Qed.


End fresh.

(** ** The lists after the operations of [txList] *)


Lemma part_of_refl l : part_of l l.
Proof. by split. Qed.

Lemma part_of_set_items l its : its ⊆ items l → part_of (set_items l its) l.
Proof. by split. Qed.

Lemma part_of_trans l1 l2 l3 : part_of l1 l2 → part_of l2 l3 → part_of l1 l3.
Proof. intros [? ?] [? ?]. split; [congruence|set_solver]. Qed.

Lemma filter_subseteq {A} (P : A → Prop) `{∀ x, Decision (P x)} (l : list A) :
  filter P l ⊆ l.
Proof. intros x [_ ?]%list_elem_of_filter. done. Qed.

Lemma Forward_part l n : (Forward l n).1 ⊆ items l ∧ part_of (Forward l n).2 l.
Proof. split; [|apply part_of_set_items]; apply filter_subseteq. Qed.

Lemma Filter_part l c g :
  (Filter l c g).1.1 ⊆ items l ∧ (Filter l c g).1.2 ⊆ items l
  ∧ part_of (Filter l c g).2 l.
Proof.
  unfold Filter.
  pose proof (filter_subseteq (λ t, Cost t > c) (items l)) as H1.
  pose proof (filter_subseteq (λ t, ¬ Cost t > c) (items l)) as H2.
  destruct (filter (λ t, Cost t > c) (items l)) as [|first rest] eqn:E.
  - cbn. split; [set_solver|]. split; [set_solver|]. by apply part_of_set_items.
  - destruct (strict l); cbn.
    + split; [done|]. split.
      * etrans; [apply filter_subseteq|done].
      * apply part_of_set_items. etrans; [apply filter_subseteq|done].
    + split; [done|]. split; [set_solver|]. by apply part_of_set_items.
Qed.

Lemma run_from_app next l :
  (run_from next l).1 ++ (run_from next l).2 = l.
Proof.
  revert next. induction l as [|t l IH]; intros next; cbn; [done|].
  destruct (decide (Nonce t = next)); [|done].
  specialize (IH (next + 1)). destruct (run_from (next + 1) l) as [r rest].
  cbn in *. by rewrite IH.
Qed.

Lemma Ready_part l n : (Ready l n).1 ⊆ items l ∧ part_of (Ready l n).2 l.
Proof.
  unfold Ready.
  pose proof (run_from_app n (filter (λ t, ¬ Nonce t < n) (items l))) as E.
  pose proof (filter_subseteq (λ t, ¬ Nonce t < n) (items l)) as H1.
  pose proof (filter_subseteq (λ t, Nonce t < n) (items l)) as H2.
  destruct (run_from n _) as [ready rest]. cbn in *.
  split.
  - intros x Hx. apply H1. rewrite <- E. set_solver.
  - apply part_of_set_items. intros x [Hx|Hx]%elem_of_app; [by apply H2|].
    apply H1. rewrite <- E. set_solver.
Qed.

Lemma Cap_part l n : (Cap l n).1 ⊆ items l ∧ part_of (Cap l n).2 l.
Proof.
  unfold Cap. cbn. split; [apply subseteq_drop|].
  apply part_of_set_items, subseteq_take.
Qed.

Lemma Remove_part l tx :
  (txList_Remove l tx).1.2 ⊆ items l ∧ part_of (txList_Remove l tx).2 l.
Proof.
  unfold txList_Remove.
  pose proof (filter_subseteq (λ t, Nonce t ≠ Nonce tx) (items l)) as H1.
  destruct (txList_Get l (Nonce tx)) as [t|]; [|cbn; split; [set_solver|apply part_of_refl]].
  destruct (decide _); [|cbn; split; [set_solver|apply part_of_refl]].
  destruct (strict l); cbn.
  - split; [etrans; [apply filter_subseteq|done]|].
    apply part_of_set_items. etrans; [apply filter_subseteq|done].
  - split; [set_solver|]. by apply part_of_set_items.
Qed.

Lemma Add_part l tx b :
  strict (txList_Add l tx b).2 = strict l
  ∧ ∀ t, t ∈ items (txList_Add l tx b).2 → t = tx ∨ t ∈ items l.
Proof.
  unfold txList_Add. cbn. split; [done|]. intros t.
  rewrite insertBy_Permutation. intros [->|Ht]%elem_of_cons; [auto|].
  right. by apply list_elem_of_filter in Ht as [_ ?].
Qed.

(** ** The organisation of the pool is kept *)

Section organisation.
Context `{Crypto}.


Lemma pool_Sender_signer p q tx :
  signer q = signer p → pool_Sender q tx = pool_Sender p tx.
Proof. unfold pool_Sender. by intros ->. Qed.

Lemma pool_Sender_frame p q tx : frame p q → pool_Sender q tx = pool_Sender p tx.
Proof. intros [_ _ Hs _ _]. by apply pool_Sender_signer. Qed.

Lemma sender_of_Ok p tx addr : pool_Sender p tx = Ok addr → sender_of p tx = addr.
Proof. unfold sender_of. by intros ->. Qed.

Lemma org_ext p q :
  signer q = signer p → pending q = pending p → queue q = queue p →
  beats q = beats p → all q = all p → organised p → organised q.
Proof.
  intros Hs Hp Hq Hb Ha [H1 H2 H3 H4]. split.
  - intros addr l tx. rewrite Hp, Hq, (pool_Sender_signer p q) by done. apply H1.
  - unfold list_modes. by rewrite Hp, Hq.
  - unfold hash_keyed. by rewrite Ha.
  - unfold beats_pending. by rewrite Hb, Hp.
Qed.

Lemma org_pending p addr l :
  organised p → strict l = true → (∀ tx, tx ∈ items l → pool_Sender p tx = Ok addr) →
  organised (set_pending p (<[addr := l]> (pending p))).
Proof.
  intros [H1 [H2 H2'] H3 H4] Hs Hl. split.
  - intros a l' tx. cbn [pending queue set_pending].
    rewrite (pool_Sender_signer p) by done.
    intros [Hp|Hq] Hin; [|by eapply H1; eauto].
    destruct (decide (addr = a)) as [<-|Hne].
    + rewrite lookup_insert_eq in Hp. injection Hp as <-. auto.
    + rewrite lookup_insert_ne in Hp by done. eapply H1; eauto.
  - split; cbn; [|done]. intros a l'. destruct (decide (addr = a)) as [<-|Hne].
    + rewrite lookup_insert_eq. by intros [= <-].
    + rewrite lookup_insert_ne by done. apply H2.
  - done.
  - intros a Ha. cbn in *. apply lookup_insert_is_Some.
    destruct (decide (addr = a)); auto.
Qed.

Lemma org_pending_delete p addr :
  organised p →
  organised (set_beats (set_pending p (delete addr (pending p)))
                       (delete addr (beats p))).
Proof.
  intros [H1 [H2 H2'] H3 H4]. split.
  - intros a l tx. cbn [pending queue set_pending set_beats].
    rewrite (pool_Sender_signer p) by done.
    intros [Hp|Hq] Hin; [|by eapply H1; eauto].
    apply lookup_delete_Some in Hp as [_ Hp]. eapply H1; eauto.
  - split; cbn; [|done]. intros a l [_ Hp]%lookup_delete_Some. by eapply H2.
  - done.
  - intros a. cbn. rewrite !lookup_delete_is_Some. intros [? ?]. auto.
Qed.

Lemma org_queue p addr l :
  organised p → strict l = false → (∀ tx, tx ∈ items l → pool_Sender p tx = Ok addr) →
  organised (set_queue p (<[addr := l]> (queue p))).
Proof.
  intros [H1 [H2 H2'] H3 H4] Hs Hl. split.
  - intros a l' tx. cbn [pending queue set_queue].
    rewrite (pool_Sender_signer p) by done.
    intros [Hp|Hq] Hin; [by eapply H1; eauto|].
    destruct (decide (addr = a)) as [<-|Hne].
    + rewrite lookup_insert_eq in Hq. injection Hq as <-. auto.
    + rewrite lookup_insert_ne in Hq by done. eapply H1; eauto.
  - split; cbn; [done|]. intros a l'. destruct (decide (addr = a)) as [<-|Hne].
    + rewrite lookup_insert_eq. by intros [= <-].
    + rewrite lookup_insert_ne by done. apply H2'.
  - done.
  - done.
Qed.

Lemma org_queue_delete p addr :
  organised p → organised (set_queue p (delete addr (queue p))).
Proof.
  intros [H1 [H2 H2'] H3 H4]. split.
  - intros a l tx. cbn [pending queue set_queue].
    rewrite (pool_Sender_signer p) by done.
    intros [Hp|Hq] Hin; [by eapply H1; eauto|].
    apply lookup_delete_Some in Hq as [_ Hq]. eapply H1; eauto.
  - split; cbn; [done|]. intros a l [_ Hp]%lookup_delete_Some. by eapply H2'.
  - done.
  - done.
Qed.

Lemma org_beats p addr now :
  organised p → is_Some (pending p !! addr) →
  organised (set_beats p (<[addr := now]> (beats p))).
Proof.
  intros [H1 H2 H3 H4] Hp. split; [done..|].
  intros a. cbn. rewrite lookup_insert_is_Some.
  intros [<-|[_ ?]]; auto.
Qed.

Lemma org_all_insert p tx :
  organised p → organised (set_all p (<[tx_Hash tx := tx]> (all p))).
Proof.
  intros [H1 H2 H3 H4]. split; [done..| |done].
  intros h t. cbn. destruct (decide (tx_Hash tx = h)) as [<-|Hne].
  - rewrite lookup_insert_eq. by intros [= <-].
  - rewrite lookup_insert_ne by done. apply H3.
Qed.

Lemma org_all_delete p h :
  organised p → organised (set_all p (delete h (all p))).
Proof.
  intros [H1 H2 H3 H4]. split; [done..| |done].
  intros h' t. cbn. intros [_ ?]%lookup_delete_Some. by apply H3.
Qed.

Lemma org_pendingState p ps : organised p → organised (set_pendingState p ps).
Proof. by apply org_ext. Qed.
Lemma org_send p tx : organised p → organised (send p tx).
Proof. by apply org_ext. Qed.
Lemma org_locals p ls : organised p → organised (set_locals p ls).
Proof. by apply org_ext. Qed.
Lemma org_journal p j : organised p → organised (set_journal p j).
Proof. by apply org_ext. Qed.
Lemma org_states p cs ps : organised p → organised (set_states p cs ps).
Proof. by apply org_ext. Qed.

Lemma org_journalTx p a tx : organised p → organised (journalTx p a tx).
Proof.
  unfold journalTx. destruct (journal p); [|done].
  destruct (negb _); [done|]. apply org_journal.
Qed.

Lemma org_foldl {A} (f : TxPool → A → TxPool) (l : list A) (p : TxPool) :
  (∀ q a, organised q → organised (f q a)) → organised p → organised (foldl f p l).
Proof.
  intros Hf. revert p. induction l as [|a l IH]; intros p Hp; [done|].
  cbn. by apply IH, Hf.
Qed.

Lemma org_forget p txs : organised p → organised (forget p txs).
Proof. apply org_foldl. intros q tx. apply org_all_delete. Qed.

(** The list that an account has, or the empty list of the map's mode. *)
Lemma org_pending_default p addr :
  organised p →
  let l := default (newTxList true) (pending p !! addr) in
  strict l = true ∧ ∀ tx, tx ∈ items l → pool_Sender p tx = Ok addr.
Proof.
  intros [H1 [H2 _] _ _]. destruct (pending p !! addr) as [l|] eqn:E; cbn.
  - split; [by eapply H2|]. intros tx. eapply H1; eauto.
  - split; [done|]. by intros tx ?%elem_of_nil.
Qed.

Lemma org_queue_default p addr :
  organised p →
  let l := default (newTxList false) (queue p !! addr) in
  strict l = false ∧ ∀ tx, tx ∈ items l → pool_Sender p tx = Ok addr.
Proof.
  intros [H1 [_ H2] _ _]. destruct (queue p !! addr) as [l|] eqn:E; cbn.
  - split; [by eapply H2|]. intros tx. eapply H1; eauto.
  - split; [done|]. by intros tx ?%elem_of_nil.
Qed.

Lemma org_enqueueTx p tx addr :
  organised p → pool_Sender p tx = Ok addr →
  organised (enqueueTx p (tx_Hash tx) tx).1.
Proof.
  intros Hp Hs. unfold enqueueTx. rewrite (sender_of_Ok p tx addr Hs).
  destruct (org_queue_default p addr Hp) as [Hm Hl].
  destruct (Add_part (default (newTxList false) (queue p !! addr)) tx 0)
    as [Hs' Hl'].
  assert (Hq : organised (set_queue p (<[addr :=
                 (txList_Add (default (newTxList false) (queue p !! addr)) tx 0).2]>
                 (queue p)))).
  { apply org_queue; [done|congruence|].
    intros t [->|Ht]%Hl'; auto. }
  unfold txList_Add in *. cbn [snd] in Hq.
  destruct (txList_Get _ (Nonce tx)); cbn [fst]; [done|].
  by apply org_all_insert.
Qed.

Lemma validateTx_Sender p tx local :
  validateTx p tx local = None → pool_Sender p tx = Ok (sender_of p tx).
Proof.
  unfold validateTx, sender_of. destruct (decide _); [done|].
  destruct (Value tx); [|done]. destruct (decide _); [done|].
  by destruct (pool_Sender p tx).
Qed.

Lemma org_add p tx local : organised p → organised (add p tx local).1.
Proof.
  intros Hp. unfold add.
  destruct (decide (is_Some _)); [done|].
  destruct (validateTx p tx local) eqn:Ev; [done|].
  apply validateTx_Sender in Ev.
  destruct (decide (_ >= _)); [done|].
  assert (Henq : organised
    (let '(pool, replace) := enqueueTx p (tx_Hash tx) tx in
     (journalTx (if local then set_locals pool
                                 (accountSet_add (locals pool) (sender_of p tx))
                 else pool) (sender_of p tx) tx, Ok replace)).1).
  { pose proof (org_enqueueTx p tx _ Hp Ev) as He.
    destruct (enqueueTx p (tx_Hash tx) tx) as [q replace]. cbn [fst] in *.
    apply org_journalTx. destruct local; [by apply org_locals|done]. }
  destruct (pending p !! sender_of p tx) as [l|] eqn:El; [|done].
  destruct (Overlaps l tx); [|done].
  destruct Hp as [H1 [H2 H2'] H3 H4].
  destruct (Add_part l tx 0) as [Hs' Hl'].
  assert (Hq : organised (set_pending p (<[sender_of p tx := (txList_Add l tx 0).2]>
                                           (pending p)))).
  { apply org_pending; [done|rewrite Hs'; by eapply H2|].
    intros t [->|Ht]%Hl'; [done|]. eapply H1; eauto. }
  unfold txList_Add in *. cbn [snd] in Hq.
  destruct (txList_Get l (Nonce tx)); cbn [fst]; [done|].
  by apply org_send, org_journalTx, org_all_insert.
Qed.

Lemma org_promoteTx now p addr tx :
  organised p → pool_Sender p tx = Ok addr →
  organised (promoteTx now p addr (tx_Hash tx) tx).
Proof.
  intros Hp Hs. unfold promoteTx.
  destruct (org_pending_default p addr Hp) as [Hm Hl].
  destruct (Add_part (default (newTxList true) (pending p !! addr)) tx 0)
    as [Hs' Hl'].
  assert (Hq : organised (set_pending p (<[addr :=
                 (txList_Add (default (newTxList true) (pending p !! addr)) tx 0).2]>
                 (pending p)))).
  { apply org_pending; [done|congruence|]. intros t [->|Ht]%Hl'; auto. }
  unfold txList_Add in *. cbn [snd negb] in *.
  apply org_send, org_pendingState, org_beats.
  - destruct (decide _); [by apply org_all_insert|done].
  - destruct (decide _); cbn; by rewrite lookup_insert_eq.
Qed.

Lemma org_foldl_enqueueTx p txs addr :
  organised p → (∀ tx, tx ∈ txs → pool_Sender p tx = Ok addr) →
  organised (foldl (λ pool tx, (enqueueTx pool (tx_Hash tx) tx).1) p txs).
Proof.
  revert p. induction txs as [|tx txs IH]; intros p Hp Hs; [done|]. cbn [foldl].
  apply IH.
  - eapply org_enqueueTx; [done|]. apply Hs, list_elem_of_here.
  - intros t Ht. rewrite (pool_Sender_frame p) by apply frame_enqueueTx.
    by apply Hs, list_elem_of_further.
Qed.

Lemma org_removeTx p h : organised p → organised (removeTx p h).
Proof.
  intros Hp. unfold removeTx.
  destruct (all p !! h) as [tx|]; [|done].
  set (addr := sender_of p tx).
  pose proof (org_all_delete p h Hp) as Hd.
  set (p1 := set_all p (delete h (all p))) in *.
  assert (Hfuture : organised
    match queue p1 !! addr with
    | Some future =>
        if Empty (txList_Remove future tx).2
        then set_queue p1 (delete addr (queue p1))
        else set_queue p1 (<[addr := (txList_Remove future tx).2]> (queue p1))
    | None => p1
    end).
  { destruct (queue p1 !! addr) as [future|] eqn:Eq; [|done].
    destruct (Empty _); [by apply org_queue_delete|].
    destruct (Remove_part future tx) as [_ [Hs Hi]].
    destruct Hd as [H1 [H2 H2'] H3 H4] eqn:Ed. clear Ed.
    apply org_queue; [done|rewrite Hs; by eapply H2'|].
    intros t Ht. eapply H1; eauto. }
  change (pending p1) with (pending p).
  destruct (pending p !! addr) as [l|] eqn:El; [|done].
  destruct (Remove_part l tx) as [Hinv [Hs Hi]].
  destruct (txList_Remove l tx) as [[removed invalids] l'] eqn:Er. cbn [fst snd] in *.
  destruct removed; [|done].
  assert (H2 : organised (set_pending p1 (<[addr := l']> (pending p1)))).
  { destruct Hd as [H1 [H2 H2'] H3 H4] eqn:Ed. clear Ed.
    apply org_pending; [done|rewrite Hs; by eapply H2|].
    intros t Ht. eapply (H1 addr l); eauto. }
  set (p2 := set_pending p1 (<[addr := l']> (pending p1))) in *.
  assert (H3 : organised
    (if Empty l'
     then set_beats (set_pending p2 (delete addr (pending p2))) (delete addr (beats p2))
     else foldl (λ pool tx, (enqueueTx pool (tx_Hash tx) tx).1) p2 invalids)).
  { destruct (Empty l'); [by apply org_pending_delete|].
    apply (org_foldl_enqueueTx _ _ addr); [done|]. intros t Ht.
    destruct Hp as [H1 _ _ _]. apply (H1 addr l t); auto. }
  destruct (decide _); [by apply org_pendingState|done].
Qed.

End organisation.

Section organisation2.
Context `{Crypto}.

Lemma org_foldl_promoteTx now addr txs p :
  organised p → (∀ tx, tx ∈ txs → pool_Sender p tx = Ok addr) →
  organised (foldl (λ pool tx, promoteTx now pool addr (tx_Hash tx) tx) p txs).
Proof.
  revert p. induction txs as [|tx txs IH]; intros p Hp Hs; [done|]. cbn [foldl].
  apply IH.
  - apply org_promoteTx; [done|]. apply Hs, list_elem_of_here.
  - intros t Ht. rewrite (pool_Sender_frame p) by apply frame_promoteTx.
    by apply Hs, list_elem_of_further.
Qed.

Lemma org_promoteAccount now p addr :
  organised p → organised (promoteAccount now p addr).
Proof.
  intros Hp. unfold promoteAccount.
  destruct (queue p !! addr) as [l|] eqn:El; [|done].
  assert (Hfiled : ∀ tx, tx ∈ items l → pool_Sender p tx = Ok addr).
  { intros tx. destruct Hp as [H1 _ _ _]. eapply H1; eauto. }
  assert (Hmode : strict l = false).
  { destruct Hp as [_ [_ H2] _ _]. by eapply H2. }
  destruct (Forward_part l (GetNonce (currentState p) addr)) as [_ P1].
  destruct (Forward l _) as [olds l1]. cbn [snd] in P1.
  pose proof (org_forget p olds Hp) as Hp1.
  pose proof (frame_forget p olds) as F1.
  set (p1 := forget p olds) in *.
  destruct (Filter_part l1 (GetBalance (currentState p1) addr) 0) as (_ & _ & P2).
  destruct (Filter l1 _ 0) as [[drops invalids] l2]. cbn [snd] in P2.
  pose proof (org_forget p1 drops Hp1) as Hp2.
  pose proof (frame_trans _ _ _ F1 (frame_forget p1 drops)) as F2.
  set (p2 := forget p1 drops) in *.
  destruct (Ready_part l2 (ms_GetNonce (pendingState p2) addr)) as [R3 P3].
  destruct (Ready l2 _) as [readies l3]. cbn [fst snd] in R3, P3.
  pose proof (part_of_trans _ _ _ P2 P1) as P12.
  pose proof (part_of_trans _ _ _ P3 P12) as P123.
  assert (Hp3 : organised
    (foldl (λ pool tx, promoteTx now pool addr (tx_Hash tx) tx) p2 readies)).
  { apply org_foldl_promoteTx; [done|]. intros tx Ht.
    rewrite (pool_Sender_frame p) by done. apply Hfiled.
    destruct P12 as [_ P12]. by apply P12, R3. }
  assert (F3 : frame p
    (foldl (λ pool tx, promoteTx now pool addr (tx_Hash tx) tx) p2 readies)).
  { eapply frame_trans; [exact F2|]. apply foldl_frame. intros. apply frame_promoteTx. }
  set (p3 := foldl _ p2 readies) in *.
  assert (Hp4 : ∃ p4 l4,
    (if negb (contains (locals p3) addr)
     then let '(caps, list) := Cap l3 (to_int (AccountQueue (config p3))) in
          (forget p3 caps, list)
     else (p3, l3)) = (p4, l4)
    ∧ organised p4 ∧ frame p p4 ∧ part_of l4 l).
  { destruct (negb _).
    - destruct (Cap_part l3 (to_int (AccountQueue (config p3)))) as [_ P4].
      destruct (Cap l3 _) as [caps l4]. cbn [snd] in P4.
      exists (forget p3 caps), l4. split; [done|]. split; [by apply org_forget|].
      split; [eapply frame_trans; [exact F3|apply frame_forget]|].
      by eapply part_of_trans.
    - by exists p3, l3. }
  destruct Hp4 as (p4 & l4 & -> & Hp4 & F4 & [Hs4 Hl4]).
  destruct (Empty l4); [by apply org_queue_delete|].
  apply org_queue; [done|congruence|].
  intros tx Ht. rewrite (pool_Sender_frame p) by done. by apply Hfiled, Hl4.
Qed.

Lemma org_dropLast p addr : organised p → organised (dropLast p addr).
Proof.
  intros Hp. unfold dropLast.
  destruct (org_pending_default p addr Hp) as [Hm Hl].
  set (l := default (newTxList true) (pending p !! addr)) in *.
  destruct (Cap_part l (Len l - 1)) as [_ [Hs Hi]].
  destruct (Cap l _) as [caps l']. cbn [snd] in *.
  apply org_foldl.
  - intros q tx Hq. destruct (decide _).
    + by apply org_pendingState, org_all_delete.
    + by apply org_all_delete.
  - apply org_pending; [done|congruence|]. intros tx Ht. by apply Hl, Hi.
Qed.

Lemma org_shrinkAll p n offs : organised p → organised (shrinkAll p n offs).1.
Proof.
  unfold shrinkAll. revert p n.
  induction offs as [|a offs IH]; intros p n Hp; [done|]. cbn [foldl].
  by apply IH, org_dropLast.
Qed.

Lemma org_equalize fuel p n round last thr :
  organised p → organised (equalize fuel p n round last thr).1.
Proof.
  revert p n. induction fuel as [|fuel IH]; intros p n Hp; [done|]. cbn [equalize].
  destruct (decide _); [|done].
  pose proof (org_shrinkAll p n round Hp).
  destruct (shrinkAll p n round) as [q m]. by apply IH.
Qed.

Lemma org_penalize spammers offs p n :
  organised p → organised (penalize spammers offs p n).1.1.
Proof.
  revert offs p n. induction spammers as [|a spammers IH]; intros offs p n Hp; [done|].
  cbn [penalize]. destruct (decide _); [|done].
  destruct (last (removelast (offs ++ [a]))) as [prev|].
  - pose proof (org_equalize (Z.to_nat (pendingLen p prev)) p n
                  (removelast (offs ++ [a])) prev (pendingLen p a) Hp).
    destruct (equalize _ _ _ _ _ _) as [q m]. by apply IH.
  - by apply IH.
Qed.

Lemma org_enforcePendingLimit p : organised p → organised (enforcePendingLimit p).
Proof.
  intros Hp. unfold enforcePendingLimit. destruct (decide _); [|done].
  match goal with |- context [penalize ?s [] p ?n] =>
    pose proof (org_penalize s [] p n Hp) as Hq;
    destruct (penalize s [] p n) as [[q m] offs] end.
  cbn [fst] in Hq. destruct (last offs); [|done]. by apply org_equalize.
Qed.

Lemma org_foldl_removeTx p txs :
  organised p → organised (foldl (λ pool tx, removeTx pool (tx_Hash tx)) p txs).
Proof. apply org_foldl. intros q tx. apply org_removeTx. Qed.

Lemma org_dropTail p txs n : organised p → organised (dropTail p txs n).1.
Proof.
  revert p n. induction txs as [|tx txs IH]; intros p n Hp; [done|]. cbn [dropTail].
  destruct (decide _); [|done]. by apply IH, org_removeTx.
Qed.

Lemma org_evict addrs n p : organised p → organised (evict addrs n p).
Proof.
  revert n p. induction addrs as [|a addrs IH]; intros n p Hp; [done|]. cbn [evict].
  destruct (decide _); [|done]. destruct (decide _).
  - by apply IH, org_foldl_removeTx.
  - match goal with |- context [dropTail p ?t ?d] =>
      pose proof (org_dropTail p t d Hp); destruct (dropTail p t d) end.
    by apply IH.
Qed.

Lemma org_enforceQueueLimit p : organised p → organised (enforceQueueLimit p).
Proof.
  intros Hp. unfold enforceQueueLimit. destruct (decide _); [|done].
  by apply org_evict.
Qed.

Lemma org_promoteExecutables now p accounts :
  organised p → organised (promoteExecutables now p accounts).
Proof.
  intros Hp. unfold promoteExecutables.
  apply org_enforceQueueLimit, org_enforcePendingLimit, org_foldl; [|done].
  intros q a. apply org_promoteAccount.
Qed.

Lemma org_demoteAccount p addr : organised p → organised (demoteAccount p addr).
Proof.
  intros Hp. unfold demoteAccount.
  destruct (pending p !! addr) as [l|] eqn:El; [|done].
  assert (Hfiled : ∀ tx, tx ∈ items l → pool_Sender p tx = Ok addr).
  { intros tx. destruct Hp as [H1 _ _ _]. eapply H1; eauto. }
  assert (Hmode : strict l = true).
  { destruct Hp as [_ [H2 _] _ _]. by eapply H2. }
  destruct (Forward_part l (GetNonce (currentState p) addr)) as [_ P1].
  destruct (Forward l _) as [olds l1]. cbn [snd] in P1.
  pose proof (org_forget p olds Hp) as Hp1.
  pose proof (frame_forget p olds) as F1.
  set (p1 := forget p olds) in *.
  destruct (Filter_part l1 (GetBalance (currentState p1) addr) 0) as (_ & I2 & P2).
  destruct (Filter l1 _ 0) as [[drops invalids] l2]. cbn [fst snd] in I2, P2.
  pose proof (org_forget p1 drops Hp1) as Hp2.
  pose proof (frame_trans _ _ _ F1 (frame_forget p1 drops)) as F2.
  set (p2 := forget p1 drops) in *.
  assert (Hp3 : organised
    (foldl (λ pool tx, (enqueueTx pool (tx_Hash tx) tx).1) p2 invalids)).
  { apply (org_foldl_enqueueTx _ _ addr); [done|]. intros tx Ht.
    rewrite (pool_Sender_frame p) by done. apply Hfiled.
    destruct P1 as [_ P1]. by apply P1, I2. }
  assert (F3 : frame p (foldl (λ pool tx, (enqueueTx pool (tx_Hash tx) tx).1) p2 invalids)).
  { eapply frame_trans; [exact F2|]. apply foldl_frame. intros. apply frame_enqueueTx. }
  set (p3 := foldl _ p2 invalids) in *.
  pose proof (part_of_trans _ _ _ P2 P1) as P12.
  assert (Hp4 : ∃ p4 l4,
    (if decide (Len l2 > 0 ∧ txList_Get l2 (GetNonce (currentState p) addr) = None)
     then let '(caps, list) := Cap l2 0 in
          (foldl (λ pool tx, (enqueueTx pool (tx_Hash tx) tx).1) p3 caps, list)
     else (p3, l2)) = (p4, l4)
    ∧ organised p4 ∧ frame p p4 ∧ part_of l4 l).
  { destruct (decide _).
    - destruct (Cap_part l2 0) as [I4 P4].
      destruct (Cap l2 0) as [caps l4]. cbn [fst snd] in I4, P4.
      eexists _, l4. split; [done|]. split.
      + apply (org_foldl_enqueueTx _ _ addr); [done|]. intros tx Ht.
        rewrite (pool_Sender_frame p) by done. apply Hfiled.
        destruct P12 as [_ P12]. by apply P12, I4.
      + split; [|by eapply part_of_trans].
        eapply frame_trans; [exact F3|]. apply foldl_frame. intros. apply frame_enqueueTx.
    - by exists p3, l2. }
  destruct Hp4 as (p4 & l4 & -> & Hp4 & F4 & [Hs4 Hl4]).
  destruct (Empty l4); [by apply org_pending_delete|].
  apply org_pending; [done|congruence|].
  intros tx Ht. rewrite (pool_Sender_frame p) by done. by apply Hfiled, Hl4.
Qed.

Lemma org_demoteUnexecutables p : organised p → organised (demoteUnexecutables p).
Proof. apply org_foldl. intros q a. apply org_demoteAccount. Qed.

Lemma org_addTx now p tx local : organised p → organised (addTx now p tx local).1.
Proof.
  intros Hp. unfold addTx. pose proof (org_add p tx local Hp) as Ha.
  destruct (add p tx local) as [q [replace|err]]; cbn [fst] in *; [|done].
  destruct (negb replace); [|done]. by apply org_promoteExecutables.
Qed.

Lemma org_inject local txs acc :
  organised acc.1.1 → organised (foldl (inject local) acc txs).1.1.
Proof.
  revert acc. induction txs as [|tx txs IH]; intros [[p dirty] errs] Hp; [done|].
  cbn [foldl]. apply IH. unfold inject. cbn [fst] in Hp.
  pose proof (org_add p tx local Hp) as Ha.
  destruct (add p tx local) as [q [replace|err]]; cbn [fst] in *; [|done].
  by destruct (negb replace).
Qed.

Lemma org_addTxsLocked now p txs local :
  organised p → organised (addTxsLocked now p txs local).1.
Proof.
  intros Hp. unfold addTxsLocked.
  change (foldl _ (p, ∅, []) txs) with (foldl (inject local) (p, ∅, []) txs).
  pose proof (org_inject local txs (p, ∅, []) Hp) as Hi.
  destruct (foldl (inject local) (p, ∅, []) txs) as [[q dirty] errs]. cbn [fst] in Hi.
  destruct (decide _); [|done]. by apply org_promoteExecutables.
Qed.

Lemma org_latestNonces p q : latestNonces p = Some q → organised p → organised q.
Proof.
  unfold latestNonces.
  assert (G : ∀ l o, foldl (λ pool '(addr, list),
             pool ← pool; tx ← last (Flatten list);
             Some (set_pendingState pool
                     (ms_SetNonce (pendingState pool) addr ((Nonce tx + 1) mod two64))))
             o l = Some q → ∀ p', o = Some p' → organised p' → organised q).
  { induction l as [|[a l0] l IH]; intros o E p' -> Hp'; cbn [foldl] in E.
    - by injection E as <-.
    - cbn [mbind option_bind] in E.
      destruct (last (Flatten l0)) as [tx|].
      + eapply IH; [exact E|done|]. by apply org_pendingState.
      + cbn in E. clear IH Hp'. exfalso. revert E. clear.
        induction l as [|[a l1] l IH]; cbn; [done|]. exact IH. }
  intros E Hp. by eapply G.
Qed.

Lemma org_reset now p oldHead newHead q :
  reset now p oldHead newHead = Some q → organised p → organised q.
Proof.
  unfold reset. intros E Hp.
  destruct (match oldHead with Some _ => _ | None => _ end) as [reinject| | |];
    [|by injection E as <-|done|done].
  destruct (StateAt _ _) as [db|]; [|by injection E as <-].
  destruct (latestNonces _) as [p'|] eqn:Ep; [|done]. cbn in E. injection E as <-.
  apply org_promoteExecutables. eapply org_latestNonces; [exact Ep|].
  by apply org_demoteUnexecutables, org_addTxsLocked, org_states.
Qed.

Lemma org_evictTick now p : organised p → organised (evictTick now p).
Proof.
  unfold evictTick. apply org_foldl. intros q a Hq.
  destruct (contains _ _); [done|]. destruct (decide _); [|done].
  by apply org_foldl_removeTx.
Qed.

Lemma operated_organised (init pool : TxPool) :
  operated init pool → organised init → organised pool.
Proof.
  induction 1 as [| | | | | | | |now pool oldHead newHead pool' _ IH _ _ Er];
    intros Hi.
  - done.
  - by apply org_add, IHoperated.
  - by apply org_addTx, IHoperated.
  - by apply org_addTxsLocked, IHoperated.
  - by apply org_promoteExecutables, IHoperated.
  - by apply org_demoteUnexecutables, IHoperated.
  - by apply org_removeTx, IHoperated.
  - by apply org_evictTick, IHoperated.
  - eapply org_reset; [exact Er|]. by apply IH.
Qed.

End organisation2.

(** ** Demotion and [reset] *)

Section demotion.
Context `{Crypto}.


Lemma currentState_enqueueTx p h tx :
  currentState (enqueueTx p h tx).1 = currentState p
  ∧ pending (enqueueTx p h tx).1 = pending p.
Proof. unfold enqueueTx, txList_Add. by destruct (txList_Get _ _). Qed.

Lemma currentState_foldl_enqueueTx p txs :
  currentState (foldl (λ pool tx, (enqueueTx pool (tx_Hash tx) tx).1) p txs)
  = currentState p
  ∧ pending (foldl (λ pool tx, (enqueueTx pool (tx_Hash tx) tx).1) p txs)
    = pending p.
Proof.
  revert p. induction txs as [|tx txs IH]; intros p; [done|]. cbn [foldl].
  destruct (IH (enqueueTx p (tx_Hash tx) tx).1) as [-> ->].
  apply currentState_enqueueTx.
Qed.

Lemma currentState_forget p txs :
  currentState (forget p txs) = currentState p
  ∧ pending (forget p txs) = pending p.
Proof.
  unfold forget. revert p. induction txs as [|tx txs IH]; intros p; [done|].
  cbn [foldl]. by destruct (IH (set_all p (delete (tx_Hash tx) (all p)))) as [-> ->].
Qed.

Lemma Forward_items l n tx :
  tx ∈ items (Forward l n).2 → n <= Nonce tx.
Proof. cbn. intros [? _]%list_elem_of_filter. lia. Qed.

Lemma Filter_items l c g tx :
  tx ∈ items (Filter l c g).2 → Cost tx <= c.
Proof.
  unfold Filter.
  destruct (filter (λ t, Cost t > c) (items l)) as [|first rest]; cbn.
  - intros [? _]%list_elem_of_filter. lia.
  - destruct (strict l); cbn.
    + intros [_ [? _]%list_elem_of_filter]%list_elem_of_filter. lia.
    + intros [? _]%list_elem_of_filter. lia.
Qed.

Lemma demoteAccount_account p addr :
  currentState (demoteAccount p addr) = currentState p
  ∧ (∀ a, a ≠ addr → pending (demoteAccount p addr) !! a = pending p !! a)
  ∧ (pending p !! addr = None → pending (demoteAccount p addr) !! addr = None)
  ∧ ∀ l, pending (demoteAccount p addr) !! addr = Some l →
         executable (currentState p) addr l.
Proof.
  unfold demoteAccount.
  destruct (pending p !! addr) as [l|] eqn:El; [|by rewrite El].
  pose proof (Forward_items l (GetNonce (currentState p) addr)) as I1.
  destruct (Forward_part l (GetNonce (currentState p) addr)) as [_ P1].
  destruct (Forward l _) as [olds l1]. cbn [snd] in *.
  destruct (currentState_forget p olds) as [C1 Q1].
  set (p1 := forget p olds) in *. rewrite C1.
  pose proof (Filter_items l1 (GetBalance (currentState p) addr) 0) as I2.
  destruct (Filter_part l1 (GetBalance (currentState p) addr) 0) as (_ & _ & P2).
  destruct (Filter l1 _ 0) as [[drops invalids] l2]. cbn [snd] in *.
  destruct (currentState_forget p1 drops) as [C2 Q2].
  set (p2 := forget p1 drops) in *.
  destruct (currentState_foldl_enqueueTx p2 invalids) as [C3 Q3].
  set (p3 := foldl _ p2 invalids) in *.
  assert (Hp4 : ∃ p4 l4,
    (if decide (Len l2 > 0 ∧ txList_Get l2 (GetNonce (currentState p) addr) = None)
     then let '(caps, list) := Cap l2 0 in
          (foldl (λ pool tx, (enqueueTx pool (tx_Hash tx) tx).1) p3 caps, list)
     else (p3, l2)) = (p4, l4)
    ∧ currentState p4 = currentState p ∧ pending p4 = pending p
    ∧ (items l4 = [] ∨ executable (currentState p) addr l4)).
  { destruct (decide _) as [Hgap|Hgap].
    - assert (Hc : items (Cap l2 0).2 = []) by done.
      destruct (Cap l2 0) as [caps l4]. cbn [snd] in Hc.
      eexists _, l4. split; [done|].
      destruct (currentState_foldl_enqueueTx p3 caps) as [-> ->].
      split; [congruence|]. split; [congruence|]. by left.
    - exists p3, l2. split; [done|]. split; [congruence|]. split; [congruence|].
      destruct (items l2) as [|t its] eqn:Ei; [by left|]. right.
      split; [by rewrite Ei|]. split.
      + destruct (txList_Get l2 _); [done|]. exfalso. apply Hgap.
        unfold Len. rewrite Ei. cbn. split; [lia|done].
      + intros tx Ht. split; [|apply I2; by rewrite <- Ei].
        destruct P2 as [_ P2]. by apply I1, P2. }
  destruct Hp4 as (p4 & l4 & -> & C4 & Q4 & Hl4).
  unfold Empty, Len.
  destruct (bool_decide (Z.of_nat (length (items l4)) = 0)) eqn:Ee.
  - apply bool_decide_eq_true in Ee.
    cbn [currentState pending set_beats set_pending].
    split; [done|]. split; [|split].
    + intros a Ha. by rewrite lookup_delete_ne, Q4.
    + done.
    + by rewrite lookup_delete_eq.
  - apply bool_decide_eq_false in Ee.
    cbn [currentState pending set_pending].
    split; [done|]. split; [|split].
    + intros a Ha. by rewrite lookup_insert_ne, Q4.
    + done.
    + rewrite lookup_insert_eq. intros l' [= <-].
      destruct Hl4 as [E|?]; [|done]. rewrite E in Ee. done.
Qed.

Lemma demote_foldl addrs p :
  NoDup addrs →
  currentState (foldl demoteAccount p addrs) = currentState p
  ∧ ∀ a l, pending (foldl demoteAccount p addrs) !! a = Some l →
      (a ∈ addrs ∧ executable (currentState p) a l)
      ∨ ((a ∉ addrs) ∧ pending p !! a = Some l).
Proof.
  revert p. induction addrs as [|b addrs IH]; intros p Hnd.
  - split; [done|]. intros a l E. right. split; [apply not_elem_of_nil|done].
  - apply NoDup_cons in Hnd as [Hb Hnd]. cbn [foldl].
    destruct (demoteAccount_account p b) as (C & Hother & Hnone & Hpost).
    destruct (IH (demoteAccount p b) Hnd) as [C' IH']. rewrite C', C.
    split; [done|]. intros a l E.
    destruct (IH' a l E) as [[Ha Hex]|[Ha Hl]].
    + left. split; [by apply list_elem_of_further|]. by rewrite <- C.
    + destruct (decide (a = b)) as [->|Hne].
      * left. split; [apply list_elem_of_here|]. by apply Hpost.
      * right. split; [|by rewrite <- Hother].
        intros [?|?]%elem_of_cons; done.
Qed.

Lemma demoteUnexecutables_nonempty (pool : TxPool) (addr : Address) (l : txList) :
  pending (demoteUnexecutables pool) !! addr = Some l → items l ≠ [].
Proof.
  unfold demoteUnexecutables. intros E.
  destruct (demote_foldl (map_to_list (pending pool)).*1 pool) as [_ Hf].
  { apply NoDup_fst_map_to_list. }
  destruct (Hf addr l E) as [[_ [? _]]|[Hn Hl]]; [done|].
  exfalso. apply Hn. apply list_elem_of_fmap. exists (addr, l).
  split; [done|]. by apply elem_of_map_to_list.
Qed.

(** After [demoteUnexecutables] every pending list is not empty, holds
    the nonce of its account in the chain state, and holds only
    transactions of a nonce not below it that the balance covers. *)
Theorem demoteUnexecutables_executable (pool : TxPool) (addr : Address)
    (l : txList) :
  pending (demoteUnexecutables pool) !! addr = Some l →
  executable (currentState pool) addr l.
Proof.
  unfold demoteUnexecutables. intros E.
  destruct (demote_foldl (map_to_list (pending pool)).*1 pool) as [_ Hf].
  { apply NoDup_fst_map_to_list. }
  destruct (Hf addr l E) as [[_ ?]|[Hn Hl]]; [done|].
  exfalso. apply Hn. apply list_elem_of_fmap. exists (addr, l).
  split; [done|]. by apply elem_of_map_to_list.
Qed.

End demotion.

Section walks.
Context `{Crypto}.

Lemma parentOf_numbered (chain : blockChain) (b b' : Block) :
  numbered chain → 0 <= NumberU64 b < two64 →
  parentOf chain b = Some b' →
  NumberU64 b' = NumberU64 b - 1 ∧ 0 <= NumberU64 b' < two64.
Proof.
  intros Hn Hb Hp. apply Hn in Hp as [-> Hr].
  unfold two64 in *. change (2 ^ 64) with 18446744073709551616 in *.
  destruct (decide (NumberU64 b = 0)) as [E|E].
  - rewrite E in Hr. change ((0 - 1) mod 18446744073709551616)
      with 18446744073709551615 in Hr. lia.
  - rewrite Z.mod_small by lia. lia.
Qed.

Lemma rewind_fuel (chain : blockChain) (fuel : nat) (b : Block) (other : Z)
    (txs : list Transaction) :
  numbered chain → 0 <= NumberU64 b < two64 →
  (Z.to_nat (NumberU64 b) < fuel)%nat →
  rewind fuel chain b other txs ≠ Exhausted
  ∧ ∀ b' txs', rewind fuel chain b other txs = Done (b', txs') →
      0 <= NumberU64 b' <= NumberU64 b.
Proof.
  intros Hn. revert b txs. induction fuel as [|fuel IH]; intros b txs Hb Hf; [lia|].
  cbn [rewind]. destruct (decide (NumberU64 b > other)).
  - destruct (parentOf chain b) as [b'|] eqn:Ep; [|done].
    destruct (parentOf_numbered chain b b' Hn Hb Ep) as [E Hb'].
    destruct (IH b' (txs ++ Transactions b) Hb') as [IH1 IH2]; [lia|].
    split; [done|]. intros b'' txs' Hd. specialize (IH2 _ _ Hd). lia.
  - split; [done|]. intros b' txs' [= <- <-]. lia.
Qed.

Lemma meet_fuel (chain : blockChain) (fuel : nat) (rem add : Block)
    (discarded included : list Transaction) :
  numbered chain → 0 <= NumberU64 rem < two64 →
  (Z.to_nat (NumberU64 rem) < fuel)%nat →
  meet fuel chain rem add discarded included ≠ Exhausted.
Proof.
  intros Hn. revert rem add discarded included.
  induction fuel as [|fuel IH]; intros rem add discarded included Hb Hf; [lia|].
  cbn [meet]. destruct (decide _); [|done].
  destruct (parentOf chain rem) as [rem'|] eqn:Ep; [|done].
  destruct (parentOf_numbered chain rem rem' Hn Hb Ep) as [E Hb'].
  destruct (parentOf chain add) as [add'|]; [|done].
  apply IH; [done|lia].
Qed.

Lemma rewind_Panic (chain : blockChain) (fuel : nat) (b : Block) (other : Z)
    (txs : list Transaction) :
  rewind fuel chain b other txs ≠ Panic.
Proof.
  revert b txs. induction fuel as [|fuel IH]; intros b txs; [done|].
  cbn [rewind]. destruct (decide _); [|done].
  destruct (parentOf chain b); [apply IH|done].
Qed.

Lemma meet_Panic (chain : blockChain) (fuel : nat) (rem add : Block)
    (discarded included : list Transaction) :
  meet fuel chain rem add discarded included ≠ Panic.
Proof.
  revert rem add discarded included.
  induction fuel as [|fuel IH]; intros rem add discarded included; [done|].
  cbn [meet]. destruct (decide _); [|done].
  destruct (parentOf chain rem); [|done].
  destruct (parentOf chain add); [apply IH|done].
Qed.

(** The walk of [reset] over the two branches ends. *)
Lemma reorg_ends (chain : blockChain) (oldHead newHead : Header) :
  numbered chain → reorg chain oldHead newHead ≠ Exhausted.
Proof.
  intros Hn. unfold reorg. destruct (decide _); [done|].
  destruct (GetBlock chain (HeaderHash oldHead) _) as [rem|] eqn:Er; [|done].
  destruct (GetBlock chain (HeaderHash newHead) _) as [add|] eqn:Ea; [|done].
  apply Hn in Er as [Er Hr]. apply Hn in Ea as [Ea Ha].
  rewrite <- Er in Hr. rewrite <- Ea in Ha.
  destruct (rewind_fuel chain (S (Z.to_nat (NumberU64 rem))) rem (NumberU64 add) [])
    as [R1 R2]; [done|lia|lia|].
  destruct (rewind _ chain rem _ _) as [[rem' discarded]| | |]; [|done..].
  specialize (R2 _ _ eq_refl).
  destruct (rewind_fuel chain (S (Z.to_nat (NumberU64 add))) add (NumberU64 rem') [])
    as [A1 A2]; [done|lia|lia|].
  destruct (rewind _ chain add _ _) as [[add' included]| | |]; [|done..].
  pose proof (meet_fuel chain (S (S (Z.to_nat (NumberU64 rem')))) rem' add'
                discarded included Hn) as M.
  destruct (meet _ chain rem' add' _ _) as [[d i]| | |]; [done..|].
  exfalso. apply M; [lia|lia|done].
Qed.

Lemma latestNonces_total p :
  (∀ a l, pending p !! a = Some l → items l ≠ []) → is_Some (latestNonces p).
Proof.
  intros Hne. unfold latestNonces.
  assert (G : ∀ l q,
    Forall (λ al, items al.2 ≠ []) l →
    is_Some (foldl (λ pool '(addr, list),
               pool ← pool; tx ← last (Flatten list);
               Some (set_pendingState pool
                       (ms_SetNonce (pendingState pool) addr ((Nonce tx + 1) mod two64))))
               (Some q) l)).
  { induction l as [|[a l0] l IH]; intros q Hl; [done|].
    apply Forall_cons in Hl as [Hl0 Hl]. cbn [foldl mbind option_bind].
    cbn in Hl0. unfold Flatten.
    destruct (last (items l0)) as [tx|] eqn:El; [by apply IH|].
    apply last_None in El. done. }
  apply G. apply Forall_forall. intros [a l] Hal%elem_of_map_to_list.
  by eapply Hne.
Qed.

(** With heads of low numbers, [reset] panics exactly on a nil new
    header beside an old one, and on a reorganisation of at most 64
    blocks between heads of which the chain does not hold one; in every
    other case it comes back. *)
Theorem reset_panics (now : Z) (pool : TxPool) (oldHead newHead : option Header) :
  numbered (chain pool) →
  low_number oldHead → low_number newHead →
  reset now pool oldHead newHead = None
  ↔ ∃ old, oldHead = Some old
      ∧ (newHead = None
         ∨ ∃ new, newHead = Some new
             ∧ HeaderHash old ≠ ParentHash new
             ∧ Z.abs (Number old - Number new) <= 64
             ∧ (GetBlock (chain pool) (HeaderHash old) (Number old) = None
                ∨ GetBlock (chain pool) (HeaderHash new) (Number new) = None)).
Proof.
  intros Hn _ _. split.
  - unfold reset.
    assert (Hrest : ∀ reinject,
      match StateAt (chain pool)
              (StateHash (default (BlockHeader (CurrentBlock (chain pool))) newHead)) with
      | Ok statedb =>
          pool0 ← latestNonces (demoteUnexecutables
                    (addTxsLocked now (set_states pool statedb (ManageState statedb))
                       reinject false).1);
          Some (promoteExecutables now pool0 None)
      | Err _ => Some pool
      end ≠ None).
    { intros reinject. destruct (StateAt _ _) as [db|]; [|done].
      match goal with |- context [latestNonces ?q] =>
        destruct (latestNonces_total q) as [p' ->] end; [|done].
      intros a l Hl. by apply demoteUnexecutables_nonempty in Hl. }
    destruct oldHead as [old|]; [|intros E; by apply Hrest in E].
    destruct newHead as [new|]; [|eauto].
    destruct (decide (HeaderHash old ≠ ParentHash new)) as [Hne|];
      [|intros E; by apply Hrest in E].
    pose proof (reorg_ends (chain pool) old new Hn) as Hends.
    destruct (reorg (chain pool) old new) as [reinject| | |] eqn:Ereorg;
      cbv beta iota;
      [intros E; by apply Hrest in E|done| |by destruct Hends].
    intros _. exists old. split; [done|]. right. exists new. split; [done|].
    split; [done|]. revert Ereorg. unfold reorg.
    destruct (decide _); [done|]. split; [lia|].
    destruct (GetBlock (chain pool) (HeaderHash old) _) as [rem|] eqn:Er; [|auto].
    destruct (GetBlock (chain pool) (HeaderHash new) _) as [add|] eqn:Ea; [|auto].
    exfalso. revert Ereorg.
    match goal with |- context [rewind ?f ?c rem ?o ?t] =>
      pose proof (rewind_Panic c f rem o t);
      destruct (rewind f c rem o t) as [[rem' discarded]| | |] end;
      cbv beta iota; [|done..].
    match goal with |- context [rewind ?f ?c add ?o ?t] =>
      pose proof (rewind_Panic c f add o t);
      destruct (rewind f c add o t) as [[add' included]| | |] end;
      cbv beta iota; [|done..].
    match goal with |- context [meet ?f ?c rem' add' ?d ?i] =>
      pose proof (meet_Panic c f rem' add' d i);
      destruct (meet f c rem' add' d i) as [[d' i']| | |] end; done.
  - intros (old & -> & [->|(new & -> & Hne & Hd & Hget)]); [done|].
    unfold reset. rewrite decide_True by done. unfold reorg.
    rewrite decide_False by lia.
    destruct Hget as [->| ->]; [done|].
    by destruct (GetBlock (chain pool) (HeaderHash old) _).
Qed.

End walks.

Section reorganisation.
Context `{Crypto}.

(** A fork of one block, at a low number: the transactions of the
    dropped block that the new block does not include are the ones to
    add again. *)
Theorem reorg_one_block (blocks : blockChain) (oldHead newHead : Header)
    (rem add parent parent' : Block) :
  0 <= Number oldHead < 2 ^ 53 →
  Number oldHead = Number newHead →
  GetBlock blocks (HeaderHash oldHead) (Number oldHead) = Some rem →
  GetBlock blocks (HeaderHash newHead) (Number newHead) = Some add →
  NumberU64 rem = NumberU64 add →
  HeaderHash (BlockHeader rem) ≠ HeaderHash (BlockHeader add) →
  parentOf blocks rem = Some parent →
  parentOf blocks add = Some parent' →
  HeaderHash (BlockHeader parent) = HeaderHash (BlockHeader parent') →
  reorg blocks oldHead newHead
  = Done (TxDifference (Transactions rem) (Transactions add)).
Proof.
  intros _ Hnum Hrem Hadd Hsame Hne Hp Hp' Heq. unfold reorg.
  rewrite decide_False by lia. rewrite Hrem, Hadd.
  cbn [rewind]. rewrite decide_False by lia.
  rewrite decide_False by lia.
  cbn [meet]. rewrite decide_True by done. rewrite Hp, Hp'.
  by rewrite decide_False by (by intros ?).
Qed.

End reorganisation.

(** ** One account at a time *)

Section locality.
Context `{Crypto}.







End locality.

Section start.
Context `{Crypto}.

Lemma organised_empty p :
  pending p = ∅ → queue p = ∅ → beats p = ∅ → all p = ∅ → organised p.
Proof.
  intros Hp Hq Hb Ha. split.
  - intros a l tx. rewrite Hp, Hq, !lookup_empty. by intros [|].
  - unfold list_modes. rewrite Hp, Hq. split; intros a l; by rewrite lookup_empty.
  - intros h tx. by rewrite Ha, lookup_empty.
  - intros a. rewrite Hb, lookup_empty. by intros [? ?].
Qed.

End start.

(** ** What the pool keeps *)

Lemma settled_refl p : settled p p.
Proof. by split. Qed.

Lemma settled_trans p q r : settled p q → settled q r → settled p r.
Proof. intros [] []. split; [congruence..|set_solver]. Qed.

Lemma frame_settled p q : frame p q → settled p q.
Proof. intros [? ? ? Hl ?]. split; [done..|]. by rewrite Hl. Qed.

Section settled.
Context `{Crypto}.

Lemma settled_journalTx p a tx : settled p (journalTx p a tx).
Proof.
  unfold journalTx. destruct (journal p); [|apply settled_refl].
  destruct (negb _); [apply settled_refl|by split].
Qed.

Lemma settled_add p tx local : settled p (add p tx local).1.
Proof.
  unfold add.
  destruct (decide _); [apply settled_refl|].
  destruct (validateTx p tx local); [apply settled_refl|].
  destruct (decide _); [apply settled_refl|].
  assert (Henq : settled p
    (let '(pool, replace) := enqueueTx p (tx_Hash tx) tx in
     (journalTx (if local then set_locals pool
                                 (accountSet_add (locals pool) (sender_of p tx))
                 else pool) (sender_of p tx) tx, Ok replace)).1).
  { pose proof (frame_settled _ _ (frame_enqueueTx p (tx_Hash tx) tx)) as He.
    destruct (enqueueTx p (tx_Hash tx) tx) as [q replace]. cbn [fst] in *.
    eapply settled_trans; [|apply settled_journalTx].
    destruct local; [|done]. destruct He. split; [done..|].
    cbn. unfold accountSet_add. set_solver. }
  destruct (pending p !! sender_of p tx) as [l|]; [|done].
  destruct (Overlaps l tx); [|done].
  unfold txList_Add. destruct (txList_Get l (Nonce tx)); cbn [fst]; [by split|].
  eapply settled_trans; [|apply frame_settled, frame_send].
  eapply settled_trans; [|apply settled_journalTx]. by split.
Qed.

Lemma settled_addTx now p tx local : settled p (addTx now p tx local).1.
Proof.
  unfold addTx. pose proof (settled_add p tx local) as Ha.
  destruct (add p tx local) as [q [replace|err]]; cbn [fst] in *; [|done].
  destruct (negb replace); [|done]. cbn [fst].
  eapply settled_trans; [exact Ha|]. apply frame_settled, frame_promoteExecutables.
Qed.

Lemma settled_inject local txs acc :
  settled acc.1.1 (foldl (inject local) acc txs).1.1.
Proof.
  revert acc. induction txs as [|tx txs IH]; intros [[p dirty] errs];
    [apply settled_refl|].
  cbn [foldl]. eapply settled_trans; [|apply IH]. unfold inject. cbn [fst].
  pose proof (settled_add p tx local) as Ha.
  destruct (add p tx local) as [q [replace|err]]; cbn [fst] in *; [|done].
  by destruct (negb replace).
Qed.

Lemma settled_addTxsLocked now p txs local :
  settled p (addTxsLocked now p txs local).1.
Proof.
  unfold addTxsLocked.
  change (foldl _ (p, ∅, []) txs) with (foldl (inject local) (p, ∅, []) txs).
  pose proof (settled_inject local txs (p, ∅, [])) as Hi.
  destruct (foldl (inject local) (p, ∅, []) txs) as [[q dirty] errs]. cbn [fst] in Hi.
  destruct (decide _); [|done]. cbn [fst].
  eapply settled_trans; [exact Hi|]. apply frame_settled, frame_promoteExecutables.
Qed.

Lemma settled_reset now p oldHead newHead q :
  reset now p oldHead newHead = Some q → settled p q.
Proof.
  unfold reset. intros E.
  destruct (match oldHead with Some _ => _ | None => _ end) as [reinject| | |];
    [|injection E as <-; apply settled_refl|done|done].
  destruct (StateAt _ _) as [db|]; [|injection E as <-; apply settled_refl].
  destruct (latestNonces _) as [p'|] eqn:Ep; [|done]. cbn in E. injection E as <-.
  eapply settled_trans; [|apply frame_settled, frame_promoteExecutables].
  eapply settled_trans; [|apply frame_settled, (frame_latestNonces _ _ Ep)].
  eapply settled_trans; [|apply frame_settled, frame_demoteUnexecutables].
  eapply settled_trans; [|apply settled_addTxsLocked]. by split.
Qed.

Lemma settled_evictTick now p : settled p (evictTick now p).
Proof.
  apply frame_settled. unfold evictTick. apply foldl_frame. intros q a.
  destruct (contains _ _); [apply frame_refl|].
  destruct (decide _); [|apply frame_refl].
  apply foldl_frame. intros. apply frame_removeTx.
Qed.

Lemma operated_settled_rel (init pool : TxPool) :
  operated init pool → settled init pool.
Proof.
  induction 1 as [| | | | | | | |now pool oldHead newHead pool' _ IH _ _ Er].
  - apply settled_refl.
  - eapply settled_trans; [eassumption|apply settled_add].
  - eapply settled_trans; [eassumption|apply settled_addTx].
  - eapply settled_trans; [eassumption|apply settled_addTxsLocked].
  - eapply settled_trans; [eassumption|apply frame_settled, frame_promoteExecutables].
  - eapply settled_trans; [eassumption|apply frame_settled, frame_demoteUnexecutables].
  - eapply settled_trans; [eassumption|apply frame_settled, frame_removeTx].
  - eapply settled_trans; [eassumption|apply settled_evictTick].
  - eapply settled_trans; [exact IH|by eapply settled_reset].
Qed.

(** Whatever the operations, the pool keeps its configuration, its
    chain and its signer, and a local account stays one. *)
Theorem operated_settled (init pool : TxPool) :
  operated init pool →
  config pool = config init ∧ chain pool = chain init
  ∧ signer pool = signer init ∧ locals init ⊆ locals pool.
Proof. intros Hr. by destruct (operated_settled_rel init pool Hr). Qed.

End settled.

Section invariants.
Context `{Crypto}.

Lemma operated_from_nothing (init pool : TxPool) :
  holds_nothing init → operated init pool → organised pool.
Proof.
  intros (Hp & Hq & Hb & Ha) Hr.
  apply (operated_organised init pool Hr). by apply organised_empty.
Qed.

(** In every state that the operations lead to from a pool that holds
    nothing, a pending or queued list holds only transactions whose
    sender, as the signer of the pool recovers it, is the account of
    the list. *)
Theorem operated_filed (init pool : TxPool) :
  holds_nothing init →
  operated init pool →
  ∀ addr l tx,
    pending pool !! addr = Some l ∨ queue pool !! addr = Some l →
    tx ∈ items l →
    (Sender (signer init) tx).1 = Ok addr.
Proof.
  intros Hnew Hr addr l tx Hl Ht.
  destruct (operated_settled_rel init pool Hr) as [_ _ Hs _].
  destruct (operated_from_nothing init pool Hnew Hr) as [Hf _ _ _].
  specialize (Hf addr l tx Hl Ht). unfold pool_Sender in Hf.
  by rewrite Hs in Hf.
Qed.

(** In every such state [all] holds a transaction under its own hash,
    the pending lists are strict and the queued lists are not. *)
Theorem operated_keyed (init pool : TxPool) :
  holds_nothing init →
  operated init pool →
  (∀ hash tx, Get pool hash = Some tx → tx_Hash tx = hash)
  ∧ (∀ addr l, pending pool !! addr = Some l → strict l = true)
  ∧ (∀ addr l, queue pool !! addr = Some l → strict l = false).
Proof.
  intros Hnew Hr.
  by destruct (operated_from_nothing init pool Hnew Hr) as [_ [? ?] ? _].
Qed.

(** In every such state a heartbeat is kept only for an account that
    has a pending list: an account with queued transactions only has
    none. *)
Theorem operated_beats (init pool : TxPool) :
  holds_nothing init →
  operated init pool →
  ∀ addr, pending pool !! addr = None → beats pool !! addr = None.
Proof.
  intros Hnew Hr addr Hp.
  destruct (operated_from_nothing init pool Hnew Hr) as [_ _ _ Hb].
  destruct (beats pool !! addr) eqn:E; [|done].
  destruct (Hb addr) as [? ?]; [by rewrite E|congruence].
Qed.

End invariants.

(** ** Promotion at once *)

Section promotion.
Context `{Crypto}.

Lemma add_Ok_valid p p' tx local r :
  add p tx local = (p', Ok r) → validateTx p tx local = None.
Proof.
  unfold add. destruct (decide _); [done|].
  by destruct (validateTx p tx local).
Qed.

Lemma validateTx_None p tx local :
  validateTx p tx local = None →
  GetNonce (currentState p) (sender_of p tx) <= Nonce tx
  ∧ Cost tx <= GetBalance (currentState p) (sender_of p tx).
Proof.
  unfold validateTx, sender_of. destruct (decide _); [done|].
  destruct (Value tx); [|done]. destruct (decide _); [done|].
  destruct (pool_Sender p tx) as [from|]; [|done].
  destruct (decide _); [done|]. destruct (decide _); [done|]. lia.
Qed.


Lemma count_of_insert (m : gmap Address txList) (a : Address) (l : txList) :
  m !! a = None → count_of (<[a := l]> m) = Len l + count_of m.
Proof.
  intros Hm. unfold count_of.
  rewrite (foldr_permutation (=) (λ al n, Len al.2 + n) 0
             (map_to_list (<[a := l]> m)) ((a, l) :: map_to_list m)); [done| |].
  - intros. lia.
  - by apply map_to_list_insert.
Qed.

Lemma enforcePendingLimit_within p :
  (stats p).1 mod two64 <= GlobalSlots (config p) → enforcePendingLimit p = p.
Proof. intros Hs. unfold enforcePendingLimit. by rewrite decide_False by lia. Qed.

Lemma enforceQueueLimit_within p :
  (stats p).2 mod two64 <= GlobalQueue (config p) → enforceQueueLimit p = p.
Proof. intros Hs. unfold enforceQueueLimit. by rewrite decide_False by lia. Qed.

End promotion.

Section promotion2.
Context `{Crypto}.

(** The first loop of [promoteExecutables] on an account whose queue
    holds just the transaction that its pending nonce waits for. *)
Lemma promoteAccount_one now p from tx :
  queue p !! from = Some {| strict := false; items := [tx] |} →
  pending p !! from = None →
  all p !! tx_Hash tx = Some tx →
  GetNonce (currentState p) from <= Nonce tx →
  Cost tx <= GetBalance (currentState p) from →
  ms_GetNonce (pendingState p) from = Nonce tx →
  promoteAccount now p from
  = set_queue
      (send
         (set_pendingState
            (set_beats
               (set_pending p (<[from := {| strict := true; items := [tx] |}]> (pending p)))
               (<[from := now]> (beats p)))
            (ms_SetNonce (pendingState p) from ((Nonce tx + 1) mod two64)))
         tx)
      (delete from (queue p)).
Proof.
  intros Hq Hp Hall Hn Hc Hnext. unfold promoteAccount. rewrite Hq.
  unfold Forward. cbn [items strict set_items].
  rewrite (filter_cons_False (λ t, Nonce t < _)), filter_nil by lia.
  rewrite (filter_cons_True (λ t, ¬ Nonce t < _)), filter_nil by lia.
  cbn [forget foldl].
  unfold Filter. cbn [items strict set_items].
  rewrite (filter_cons_False (λ t, Cost t > _)), filter_nil by lia.
  rewrite (filter_cons_True (λ t, ¬ Cost t > _)), filter_nil by lia.
  cbn [forget foldl].
  unfold Ready. cbn [items strict set_items]. rewrite Hnext.
  rewrite (filter_cons_False (λ t, Nonce t < _)), filter_nil by lia.
  rewrite (filter_cons_True (λ t, ¬ Nonce t < _)), filter_nil by lia.
  cbn [run_from]. rewrite decide_True by done. cbn [app foldl].
  assert (Hpromote : promoteTx now p from (tx_Hash tx) tx
    = send (set_pendingState
              (set_beats
                 (set_pending p (<[from := {| strict := true; items := [tx] |}]> (pending p)))
                 (<[from := now]> (beats p)))
              (ms_SetNonce (pendingState p) from ((Nonce tx + 1) mod two64))) tx).
  { unfold promoteTx. rewrite Hp. unfold txList_Add. cbn.
    rewrite decide_False by (rewrite Hall; done). done. }
  rewrite Hpromote.
  assert (Hcap : ∀ n, Cap {| strict := false; items := [] |} n
                      = ([], {| strict := false; items := [] |})).
  { intros n. unfold Cap. cbn. by rewrite take_nil, drop_nil. }
  destruct (negb _); [rewrite Hcap; cbn [forget foldl]|]; done.
Qed.

End promotion2.

Section promotion3.
Context `{Crypto}.

Lemma journalTx_fields p a tx :
  let q := journalTx p a tx in
  config q = config p ∧ signer q = signer p ∧ currentState q = currentState p
  ∧ pendingState q = pendingState p ∧ locals q = locals p
  ∧ pending q = pending p ∧ queue q = queue p ∧ beats q = beats p
  ∧ all q = all p ∧ txFeed q = txFeed p.
Proof.
  unfold journalTx. destruct (journal p); [|done]. by destruct (negb _).
Qed.

(** The first transaction of an account, at the nonce that its pending
    state waits for, goes straight to the pending list: one event for
    it is handed to the feed and the pending nonce moves past it. *)
Theorem addTx_promotes (now : Z) (pool pool1 : TxPool) (tx : Transaction)
    (local : bool) :
  add pool tx local = (pool1, Ok false) →
  pending pool !! sender_of pool tx = None →
  queue pool !! sender_of pool tx = None →
  ms_GetNonce (pendingState pool) (sender_of pool tx) = Nonce tx →
  ((Stats pool).1 + 1) mod two64 <= GlobalSlots (config pool) →
  (Stats pool).2 mod two64 <= GlobalQueue (config pool) →
  (addTx now pool tx local).2 = None
  ∧ Pending (addTx now pool tx local).1
    = <[sender_of pool tx := [tx]]> (Pending pool)
  ∧ queue (addTx now pool tx local).1 = queue pool
  ∧ Get (addTx now pool tx local).1 (tx_Hash tx) = Some tx
  ∧ Status (addTx now pool tx local).1 [tx_Hash tx] = [TxStatusPending]
  ∧ beats (addTx now pool tx local).1 !! sender_of pool tx = Some now
  ∧ txFeed (addTx now pool tx local).1 ≡ₚ tx :: txFeed pool
  ∧ ms_GetNonce (State (addTx now pool tx local).1) (sender_of pool tx)
    = (Nonce tx + 1) mod two64.
Proof.
  intros Hadd Hp Hq Hnext Hslots Hqueue.
  destruct (validateTx_None _ _ _ (add_Ok_valid _ _ _ _ _ Hadd)) as [Hn Hc].
  destruct (add_Ok_false _ _ _ _ Hadd) as (_ & _ & Hpool1).
  set (from := sender_of pool tx) in *.
  rewrite Hq in Hpool1. cbn [default from_option newTxList] in Hpool1.
  unfold id, txList_Add in Hpool1.
  cbn [snd set_items items strict filter list_filter insertBy] in Hpool1.
  match type of Hpool1 with _ = journalTx ?m _ _ =>
    destruct (journalTx_fields m from tx) as (Fc & Fs & Fcs & Fps & _ & Fp & Fq & Fb & Fa & Ff);
    rewrite <- Hpool1 in Fc, Fs, Fcs, Fps, Fp, Fq, Fb, Fa, Ff end.
  assert (Ec : config pool1 = config pool) by (rewrite Fc; by destruct local).
  assert (Es : signer pool1 = signer pool) by (rewrite Fs; by destruct local).
  assert (Ecs : currentState pool1 = currentState pool) by (rewrite Fcs; by destruct local).
  assert (Eps : pendingState pool1 = pendingState pool) by (rewrite Fps; by destruct local).
  assert (Ep : pending pool1 = pending pool) by (rewrite Fp; by destruct local).
  assert (Eq : queue pool1 = <[from := {| strict := false; items := [tx] |}]> (queue pool))
    by (rewrite Fq; by destruct local).
  assert (Eb : beats pool1 = beats pool) by (rewrite Fb; by destruct local).
  assert (Ea : all pool1 = <[tx_Hash tx := tx]> (all pool)) by (rewrite Fa; by destruct local).
  assert (Ef : txFeed pool1 = txFeed pool) by (rewrite Ff; by destruct local).
  clear Fc Fs Fcs Fps Fp Fq Fb Fa Ff Hpool1.
  unfold addTx. rewrite Hadd. cbn [negb fst snd].
  rewrite (sender_of_signer pool pool1) by done. fold from.
  unfold promoteExecutables. cbn [default from_option]. unfold id. cbn [foldl].
  rewrite (promoteAccount_one now pool1 from tx).
  2:{ by rewrite Eq, lookup_insert_eq. }
  2:{ by rewrite Ep. }
  2:{ by rewrite Ea, lookup_insert_eq. }
  2:{ by rewrite Ecs. }
  2:{ by rewrite Ecs. }
  2:{ by rewrite Eps. }
  rewrite Ep, Eq, Eb, Eps, delete_insert_id by done.
  rewrite enforcePendingLimit_within.
  2:{ unfold stats. cbn [fst pending set_queue send set_txFeed set_pendingState
                          set_states set_beats set_pending config].
      fold (count_of (<[from := {| strict := true; items := [tx] |}]> (pending pool))).
      rewrite count_of_insert by done. rewrite Ec.
      unfold Stats, stats in Hslots. cbn [fst] in Hslots.
      fold (count_of (pending pool)) in Hslots.
      replace (Len {| strict := true; items := [tx] |} + count_of (pending pool))
        with (count_of (pending pool) + 1) by (unfold Len; cbn; lia).
      done. }
  rewrite enforceQueueLimit_within.
  2:{ unfold stats. cbn [snd queue set_queue config send set_txFeed set_pendingState
                          set_states set_beats set_pending].
      rewrite Ec. exact Hqueue. }
  cbn [fst]. split; [done|].
  split; [unfold Pending; cbn; by rewrite fmap_insert|].
  split; [done|].
  split; [unfold Get; cbn; by rewrite Ea, lookup_insert_eq|].
  split.
  { unfold Status. cbn [fmap list_fmap all set_queue send set_txFeed set_pendingState
                        set_states set_beats set_pending].
    rewrite Ea, lookup_insert_eq.
    match goal with |- context [sender_of ?q tx] =>
      rewrite (sender_of_signer pool q) by (cbn; done) end.
    fold from. cbn [pending set_queue send set_txFeed set_pendingState
                    set_states set_beats set_pending].
    rewrite lookup_insert_eq. unfold txList_Get. cbn.
    rewrite bool_decide_eq_true_2 by done.
    by rewrite decide_True by eauto. }
  split; [cbn; by rewrite lookup_insert_eq|].
  split; [cbn; rewrite Ef; by rewrite Permutation_app_comm|].
  unfold State, ms_GetNonce. cbn. by rewrite lookup_insert_eq.
Qed.

End promotion3.

(** ** Who the pending limit spares *)

Section exempt.
Context `{Crypto}.






End exempt.

(** ** Scenarios

    The properties above at the test vectors, and the scenarios of
    section 8 run on the model. *)

#[local] Existing Instance Vectors.crypto.

Lemma SetBytes_ones :
  SetBytes (replicate 31 x01)
  = 1773775876797123091660094745843871137458179912157484130506396813846708481.
Proof. vm_compute. reflexivity. Qed.

(** The test vectors satisfy what the signer relies on. *)
#[local] Instance crypto_laws : CryptoLaws.
Proof.
  split.
  - intros h prv sig [= <-].
    pose proof (byte_val_range (to_byte prv)) as Hb.
    split; [done|]. split; [by left|].
    change (1 <= SetBytes (replicate 31 x01 ++ [to_byte prv]) < secp256k1N
            ∧ 1 <= SetBytes (replicate 32 x01) <= secp256k1halfN
            ∧ Ok (x04 :: Vectors.key_of prv) = Ok (x04 :: Vectors.key_of prv)).
    rewrite SetBytes_snoc, SetBytes_ones. split; [|split; [|done]].
    + unfold secp256k1N. lia.
    + vm_compute. split; discriminate.
  - intros prv. by eexists.
Qed.

Lemma deriveChainId_SignatureValues_witness :
  ∃ r s v,
    SignatureValues (NewMSigner (Some 1)) (Vectors.unsigned 5 1 [])
      (Vectors.key_of 10 ++ [x00]) = Ok (r, s, v)
    ∧ v = (if decide (1 = 0) then byte_val x00 + 27 else byte_val x00 + 35 + 2 * 1)
    ∧ deriveChainId v = 1.
Proof.
  apply (deriveChainId_SignatureValues 1 (Vectors.unsigned 5 1 [])
           (Vectors.key_of 10 ++ [x00]) x00);
    [lia | reflexivity | reflexivity | left; reflexivity].
Defined.

Lemma Sender_cache_law_witness :
  from Vectors.hit
  = Some {| sc_signer := Vectors.signer1; sc_from := Vectors.A |}
  ∧ (Sender Vectors.signer1 Vectors.hit).1
    = MSigner_Sender Vectors.signer1 {| Data := Data Vectors.first5; from := None |}
  ∧ (Sender Vectors.signer1 Vectors.hit).1 = Ok Vectors.A
  ∧ from Vectors.crossed
    = Some {| sc_signer := NewMSigner (Some 2); sc_from := Vectors.A |}
  ∧ (Sender Vectors.signer1 Vectors.crossed).1
    = MSigner_Sender Vectors.signer1 {| Data := Data Vectors.foreign; from := None |}
  ∧ (Sender Vectors.signer1 Vectors.crossed).1 = Err ErrInvalidChainId.
Proof.
  assert (Hhit : cached (Data Vectors.first5) Vectors.hit).
  { apply (cached_Sender _ _ (Some 1)). constructor. }
  assert (Hcrossed : cached (Data Vectors.foreign) Vectors.crossed).
  { apply (cached_Sender _ _ (Some 2)). constructor. }
  split; [vm_compute; reflexivity|].
  split; [exact (proj1 (Sender_cache_law _ _ (Some 1) Hhit))|].
  split; [vm_compute; reflexivity|].
  split; [vm_compute; reflexivity|].
  split; [exact (proj1 (Sender_cache_law _ _ (Some 1) Hcrossed))|].
  vm_compute. reflexivity.
Defined.

Lemma SignTx_Sender_chain0_witness :
  ∃ signed,
    SignTx (Vectors.unsigned 5 1 []) (NewMSigner None) 10 = Ok signed
    ∧ tx_V (Data signed) = byte_val x00 + 27
    ∧ (Sender (NewMSigner None) signed).1 = Err ErrInvalidSig.
Proof.
  apply (SignTx_Sender_chain0 None (Vectors.unsigned 5 1 []) 10
           (Vectors.key_of 10 ++ [x00]) x00);
    [reflexivity | reflexivity | reflexivity | reflexivity | left; reflexivity].
Defined.

Lemma SignTx_Sender_roundtrip_witness :
  SignTx (Vectors.unsigned 5 1 []) (NewMSigner (Some 1)) 10 = Ok Vectors.first5
  ∧ (Sender (NewMSigner (Some 1)) Vectors.first5).1 = Ok Vectors.A.
Proof.
  split; [reflexivity|].
  apply (SignTx_Sender_roundtrip 1 (Vectors.unsigned 5 1 []) Vectors.first5 10);
    [lia | reflexivity].
Defined.

(** The pools of the scenarios start as [NewTxPool] makes them. *)
Lemma NewTxPool_emptyPool :
  NewTxPool 0 None Vectors.withoutLocals (Some 1) (Vectors.chainAt 5)
  = Some (Vectors.emptyPool Vectors.withoutLocals 5)
  ∧ NewTxPool 0 None Vectors.smallQueue (Some 1) (Vectors.chainAt 5)
    = Some (Vectors.emptyPool Vectors.smallQueue 5).
Proof. split; reflexivity. Qed.

(** S3: the state nonce of A is 10 and nonce 9 is submitted. *)
Lemma add_error_unchanged_witness :
  (add (Vectors.emptyPool Vectors.withoutLocals 10) Vectors.ninth false).2
  = Err ErrNonceTooLow
  ∧ (add (Vectors.emptyPool Vectors.withoutLocals 10) Vectors.ninth false).1
    = Vectors.emptyPool Vectors.withoutLocals 10.
Proof.
  assert (Hr : (add (Vectors.emptyPool Vectors.withoutLocals 10) Vectors.ninth false).2
               = Err ErrNonceTooLow) by (vm_compute; reflexivity).
  split; [exact Hr|].
  apply (add_error_unchanged (Vectors.emptyPool Vectors.withoutLocals 10) _
           Vectors.ninth false ErrNonceTooLow).
  rewrite <- Hr. apply surjective_pairing.
Defined.

(** S2: the second transaction of A at nonce 5. *)
Lemma add_replace_pending_witness :
  (add Vectors.admitted Vectors.second5 false).2 = Ok true
  ∧ all (add Vectors.admitted Vectors.second5 false).1 !! tx_Hash Vectors.second5
    = None
  ∧ txFeed (add Vectors.admitted Vectors.second5 false).1 = [Vectors.first5].
Proof.
  destruct (add_replace_pending Vectors.admitted Vectors.second5 Vectors.first5
              false Vectors.A {| strict := true; items := [Vectors.first5] |})
    as (Hr & _ & _ & Hall & Hfeed);
    [vm_compute; reflexivity ..|].
  split; [exact Hr|]. split; [exact Hall|].
  rewrite Hfeed. vm_compute. reflexivity.
Defined.

Lemma NoLocals_AddLocal_witness :
  NoLocals (config (Vectors.emptyPool Vectors.withoutLocals 5)) = true
  ∧ AddLocal 1 (Vectors.emptyPool Vectors.withoutLocals 5) Vectors.first5
    = AddRemote 1 (Vectors.emptyPool Vectors.withoutLocals 5) Vectors.first5.
Proof.
  split; [reflexivity|].
  exact (proj1 (NoLocals_AddLocal 1 (Vectors.emptyPool Vectors.withoutLocals 5)
                  Vectors.first5 eq_refl)).
Defined.

Lemma enforceQueueLimit_newest_first_witness :
  (stats Vectors.overfull).2 mod two64 > GlobalQueue (config Vectors.overfull)
  ∧ ∃ addresses,
      enforceQueueLimit Vectors.overfull
      = evict addresses
          ((stats Vectors.overfull).2 mod two64 - GlobalQueue (config Vectors.overfull))
          Vectors.overfull
      ∧ StronglySorted (λ a b, heartbeat b <= heartbeat a) addresses.
Proof.
  split; [vm_compute; reflexivity|].
  destruct (enforceQueueLimit_newest_first Vectors.overfull)
    as (addresses & He & Hs & _); [vm_compute; reflexivity|].
  exists addresses. split; [exact He|exact Hs].
Defined.

(** The queued list of one transaction. *)
Definition one (tx : Transaction) : txList := {| strict := false; items := [tx] |}.

(** C1 (replacement): [all] is not the union of the lists in every
    reachable state.  After the admission and promotion of a first
    transaction of A at nonce 5 and the submission of a second one, the
    pending list of A holds the second transaction while [all] does not
    hold its hash, and [all] holds the first transaction, which is in no
    list. *)
Theorem all_is_union_broken :
  reachable (Vectors.emptyPool Vectors.withoutLocals 5) Vectors.replaced
  ∧ held (pending Vectors.replaced) Vectors.A Vectors.second5
  ∧ all Vectors.replaced !! tx_Hash Vectors.second5 = None
  ∧ all Vectors.replaced !! tx_Hash Vectors.first5 = Some Vectors.first5
  ∧ ¬ held (pending Vectors.replaced) Vectors.A Vectors.first5
  ∧ ¬ held (queue Vectors.replaced) Vectors.A Vectors.first5
  ∧ ¬ all_is_union Vectors.replaced.
Proof.
  assert (Hp : pending Vectors.replaced !! Vectors.A
               = Some {| strict := true; items := [Vectors.second5] |})
    by (vm_compute; reflexivity).
  assert (Hq : queue Vectors.replaced !! Vectors.A = None)
    by (vm_compute; reflexivity).
  assert (Hheld : held (pending Vectors.replaced) Vectors.A Vectors.second5).
  { eexists. split; [exact Hp|]. cbn. apply list_elem_of_here. }
  assert (Hnone : all Vectors.replaced !! tx_Hash Vectors.second5 = None)
    by (vm_compute; reflexivity).
  split; [|split; [|split; [|split; [|split; [|split]]]]].
  - apply reach_add, reach_addTx, reach_init.
  - exact Hheld.
  - exact Hnone.
  - vm_compute. reflexivity.
  - intros (l & Hl & Hin). rewrite Hp in Hl. injection Hl as <-.
    cbn in Hin. apply list_elem_of_singleton in Hin. vm_compute in Hin.
    discriminate.
  - intros (l & Hl & _). rewrite Hq in Hl. discriminate.
  - intros [_ Hall]. specialize (Hall Vectors.A Vectors.second5 (or_introl Hheld)).
    rewrite Hnone in Hall. discriminate.
Qed.

(** C5 (queue limit): with [GlobalQueue] = 2, no local accounts and the
    heartbeats of A, B and C at 10, 20 and 30, a third queued
    transaction makes the queue limit drop the queued transaction of C,
    the account of the newest heartbeat; those of A, the oldest, and of
    B stay. *)
Theorem queue_limit_evicts_newest :
  reachable (Vectors.emptyPool Vectors.smallQueue 5) Vectors.thirdQueued
  ∧ Vectors.thirdQueued = promoteExecutables 60 Vectors.overfull (Some [Vectors.C])
  ∧ GlobalQueue (config Vectors.overfull) = 2
  ∧ elements (locals Vectors.overfull) = []
  ∧ (beats Vectors.overfull !! Vectors.A, beats Vectors.overfull !! Vectors.B,
     beats Vectors.overfull !! Vectors.C) = (Some 10, Some 20, Some 30)
  ∧ (queue Vectors.overfull !! Vectors.A, queue Vectors.overfull !! Vectors.B,
     queue Vectors.overfull !! Vectors.C)
    = (Some (one (Vectors.signed 10 7 1 [])), Some (one (Vectors.signed 11 7 1 [])),
       Some (one (Vectors.signed 12 7 1 [])))
  ∧ (queue Vectors.thirdQueued !! Vectors.A, queue Vectors.thirdQueued !! Vectors.B,
     queue Vectors.thirdQueued !! Vectors.C)
    = (Some (one (Vectors.signed 10 7 1 [])), Some (one (Vectors.signed 11 7 1 [])),
       None)
  ∧ all Vectors.thirdQueued !! tx_Hash (Vectors.signed 12 7 1 []) = None.
Proof.
  split; [|split; [|split; [|split; [|split; [|split; [|split]]]]]];
    [| |vm_compute; reflexivity ..].
  - unfold Vectors.thirdQueued, Vectors.twoQueued, Vectors.remotes, AddRemote.
    cbn [foldl]. do 6 apply reach_addTx. apply reach_init.
  - unfold Vectors.thirdQueued, AddRemote, addTx.
    assert (Hadd : add Vectors.twoQueued (Vectors.signed 12 7 1 []) false
                   = (Vectors.overfull, Ok false)).
    { unfold Vectors.overfull.
      destruct (add Vectors.twoQueued (Vectors.signed 12 7 1 []) false)
        as [pool r] eqn:E.
      assert (Hr : (add Vectors.twoQueued (Vectors.signed 12 7 1 []) false).2
                   = Ok false) by (vm_compute; reflexivity).
      rewrite E in Hr. cbn in Hr. by rewrite Hr. }
    rewrite Hadd. cbv beta iota delta [negb fst].
    assert (Hc : sender_of Vectors.overfull (Vectors.signed 12 7 1 []) = Vectors.C)
      by (vm_compute; reflexivity).
    rewrite Hc. reflexivity.
Qed.

(** S1 (gap fill promotes): after nonces 6 and 7 and then 5, the pending
    list of A is 5, 6, 7, its queue is empty and its pending nonce is 8;
    the three transactions are in [all] and three events were sent, one
    for each of them. *)
Theorem gap_fill_promotes :
  reachable (Vectors.emptyPool Vectors.withoutLocals 5) Vectors.gapFilled
  ∧ Nonce <$> from_option Flatten [] (pending Vectors.gapFilled !! Vectors.A)
    = [5; 6; 7]
  ∧ queue Vectors.gapFilled !! Vectors.A = None
  ∧ ms_GetNonce (pendingState Vectors.gapFilled) Vectors.A = 8
  ∧ size (all Vectors.gapFilled) = 3%nat
  ∧ Nonce <$> txFeed Vectors.gapFilled ≡ₚ [5; 6; 7].
Proof.
  split; [|split; [|split; [|split; [|split]]]].
  - unfold Vectors.gapFilled, Vectors.remotes, AddRemote. cbn [foldl].
    do 3 apply reach_addTx. apply reach_init.
  - vm_compute. reflexivity.
  - vm_compute. reflexivity.
  - vm_compute. reflexivity.
  - vm_compute. reflexivity.
  - assert (E : Nonce <$> txFeed Vectors.gapFilled = [5; 6; 7])
      by (vm_compute; reflexivity).
    by rewrite E.
Qed.

(** [removeTx] of the first of two pending transactions: the pending
    list of A goes, the second transaction is not queued again, and it
    stays in [all]. *)
Theorem removeTx_head_loses_tail :
  reachable (Vectors.emptyPool Vectors.withoutLocals 5) Vectors.headRemoved
  ∧ pending Vectors.twoPending !! Vectors.A
    = Some {| strict := true; items := [Vectors.first5; Vectors.sixth] |}
  ∧ pending Vectors.headRemoved !! Vectors.A = None
  ∧ queue Vectors.headRemoved !! Vectors.A = None
  ∧ all Vectors.headRemoved !! tx_Hash Vectors.sixth = Some Vectors.sixth.
Proof.
  split; [|split; [|split; [|split]]; vm_compute; reflexivity].
  unfold Vectors.headRemoved, Vectors.twoPending, Vectors.remotes, AddRemote.
  cbn [foldl]. apply reach_removeTx. do 2 apply reach_addTx. apply reach_init.
Qed.

(** S6 (idle eviction skips locals): A is local, B is not, both have a
    queued transaction and no heartbeat; after the eviction tick the
    transaction of B is gone and that of A remains. *)
Theorem idle_eviction_skips_locals :
  elements (locals Vectors.idle) = [Vectors.A]
  ∧ (queue Vectors.idle !! Vectors.A, queue Vectors.idle !! Vectors.B)
    = (Some (one (Vectors.signed 10 7 1 [])), Some (one (Vectors.signed 11 7 1 [])))
  ∧ (queue Vectors.evicted !! Vectors.A, queue Vectors.evicted !! Vectors.B)
    = (Some (one (Vectors.signed 10 7 1 [])), None)
  ∧ all Vectors.evicted !! tx_Hash (Vectors.signed 11 7 1 []) = None.
Proof. split; [|split; [|split]]; vm_compute; reflexivity. Qed.

(** ** The further properties at the test vectors *)

Lemma gapFilled_operated :
  operated (Vectors.emptyPool Vectors.withoutLocals 5) Vectors.gapFilled.
Proof.
  unfold Vectors.gapFilled, Vectors.remotes, AddRemote. cbn [foldl].
  do 3 apply operated_addTx. apply operated_init.
Qed.


Lemma other_chain_rejected_witness :
  SignTx (Vectors.unsigned 5 1 []) (NewMSigner (Some 1)) 10 = Ok Vectors.first5
  ∧ Sender (MakeSigner (Some 2) 0) Vectors.first5
    = (Err ErrInvalidChainId, Vectors.first5).
Proof.
  assert (Hs : SignTx (Vectors.unsigned 5 1 []) (NewMSigner (Some 1)) 10
               = Ok Vectors.first5) by (vm_compute; reflexivity).
  split; [exact Hs|].
  refine (proj1 (other_chain_rejected 1 2 _ _ 10 _ _ Hs) 0); lia.
Defined.

Lemma MSigner_Sender_accepts_witness :
  MSigner_Sender (NewMSigner (Some 1)) Vectors.first5 = Ok Vectors.A
  ∧ (tx_V (Data Vectors.first5) = 35 + 1 * 2
     ∨ tx_V (Data Vectors.first5) = 36 + 1 * 2).
Proof.
  assert (Hs : MSigner_Sender (NewMSigner (Some 1)) Vectors.first5 = Ok Vectors.A)
    by (vm_compute; reflexivity).
  split; [exact Hs|].
  refine (proj1 (MSigner_Sender_accepts 1 _ _ _ Hs)). lia.
Defined.

Lemma SignatureValues_bytes_witness :
  SignatureValues Vectors.signer1 (Vectors.unsigned 5 1 [])
    (Vectors.key_of 10 ++ [x00])
  = Ok (SetBytes (take 32 (Vectors.key_of 10 ++ [x00])),
        SetBytes (take 32 (drop 32 (Vectors.key_of 10 ++ [x00]))), 37)
  ∧ pad32 (Bytes (SetBytes (take 32 (Vectors.key_of 10 ++ [x00]))))
    ++ pad32 (Bytes (SetBytes (take 32 (drop 32 (Vectors.key_of 10 ++ [x00])))))
    = take 64 (Vectors.key_of 10 ++ [x00]).
Proof.
  assert (Hs : SignatureValues Vectors.signer1 (Vectors.unsigned 5 1 [])
                 (Vectors.key_of 10 ++ [x00])
               = Ok (SetBytes (take 32 (Vectors.key_of 10 ++ [x00])),
                     SetBytes (take 32 (drop 32 (Vectors.key_of 10 ++ [x00]))), 37))
    by (vm_compute; reflexivity).
  split; [exact Hs|].
  exact (proj2 (SignatureValues_bytes _ _ _ _ _ _ Hs)).
Defined.

Lemma add_then_lookup_witness :
  (add (Vectors.emptyPool Vectors.withoutLocals 5) Vectors.seventh false).2 = Ok false
  ∧ Get (add (Vectors.emptyPool Vectors.withoutLocals 5) Vectors.seventh false).1
      (tx_Hash Vectors.seventh) = Some Vectors.seventh
  ∧ Status (add (Vectors.emptyPool Vectors.withoutLocals 5) Vectors.seventh false).1
      [tx_Hash Vectors.seventh] = [TxStatusQueued].
Proof.
  assert (Hr : (add (Vectors.emptyPool Vectors.withoutLocals 5) Vectors.seventh false).2
               = Ok false) by (vm_compute; reflexivity).
  split; [exact Hr|].
  destruct (add_then_lookup (Vectors.emptyPool Vectors.withoutLocals 5)
              (add (Vectors.emptyPool Vectors.withoutLocals 5) Vectors.seventh false).1
              Vectors.seventh false false) as (H1 & H2 & _).
  { rewrite <- Hr. apply surjective_pairing. }
  split; [exact H1|exact H2].
Defined.

Lemma removeTx_first_pending_witness :
  all Vectors.twoPending !! tx_Hash Vectors.first5 = Some Vectors.first5
  ∧ pending Vectors.twoPending !! Vectors.A
    = Some {| strict := true; items := [Vectors.first5; Vectors.sixth] |}
  ∧ pending (removeTx Vectors.twoPending (tx_Hash Vectors.first5))
    = delete Vectors.A (pending Vectors.twoPending)
  ∧ queue (removeTx Vectors.twoPending (tx_Hash Vectors.first5))
    = queue Vectors.twoPending.
Proof.
  assert (Ha : all Vectors.twoPending !! tx_Hash Vectors.first5 = Some Vectors.first5)
    by (vm_compute; reflexivity).
  assert (Hs : sender_of Vectors.twoPending Vectors.first5 = Vectors.A)
    by (vm_compute; reflexivity).
  assert (Hp : pending Vectors.twoPending !! Vectors.A
               = Some {| strict := true; items := [Vectors.first5; Vectors.sixth] |})
    by (vm_compute; reflexivity).
  split; [exact Ha|]. split; [exact Hp|].
  destruct (removeTx_first_pending Vectors.twoPending (tx_Hash Vectors.first5)
              Vectors.first5 Vectors.first5
              {| strict := true; items := [Vectors.first5; Vectors.sixth] |})
    as (H1 & _ & H3 & _).
  - exact Ha.
  - rewrite Hs. exact Hp.
  - reflexivity.
  - vm_compute. reflexivity.
  - reflexivity.
  - repeat (constructor; [cbv beta; apply Z.leb_le; vm_compute; reflexivity|]).
    constructor.
  - rewrite Hs in H1. split; [exact H1|exact H3].
Defined.


Lemma journal_load_keeps_witness :
  journal (journal_load 1 Vectors.unloaded)
  = Some (newTxJournal "transactions.msgp" (Some [Vectors.first5])).
Proof. exact (journal_load_keeps 1 Vectors.unloaded _ eq_refl eq_refl). Defined.

Lemma NewTxPool_fresh_witness :
  NewTxPool 0 None Vectors.withoutLocals (Some 1) (Vectors.chainAt 5)
  = Some {| config := sanitize Vectors.withoutLocals; chain := Vectors.chainAt 5;
            signer := NewMSigner (Some 1);
            currentState := Vectors.state 5;
            pendingState := ManageState (Vectors.state 5);
            locals := ∅; journal := None;
            pending := ∅; queue := ∅; beats := ∅; all := ∅; txFeed := [] |}.
Proof.
  exact (NewTxPool_fresh 0 None Vectors.withoutLocals (Some 1) (Vectors.chainAt 5)
           (Vectors.state 5) eq_refl (or_introl eq_refl)).
Defined.


Lemma emptyPool_holds_nothing (config : TxPoolConfig) (nonce : Z) :
  holds_nothing (Vectors.emptyPool config nonce).
Proof. by repeat split. Qed.

Lemma operated_filed_witness :
  pending Vectors.gapFilled !! Vectors.A
  = Some {| strict := true;
            items := [Vectors.first5; Vectors.sixth; Vectors.seventh] |}
  ∧ (Sender Vectors.signer1 Vectors.seventh).1 = Ok Vectors.A.
Proof.
  assert (Hp : pending Vectors.gapFilled !! Vectors.A
               = Some {| strict := true;
                         items := [Vectors.first5; Vectors.sixth; Vectors.seventh] |})
    by (vm_compute; reflexivity).
  split; [exact Hp|].
  refine (operated_filed (Vectors.emptyPool Vectors.withoutLocals 5) _
            (emptyPool_holds_nothing _ _) gapFilled_operated
            Vectors.A _ Vectors.seventh (or_introl Hp) _).
  cbn [items]. do 2 apply list_elem_of_further. apply list_elem_of_here.
Defined.

Lemma operated_keyed_witness :
  (∀ hash tx, Get Vectors.gapFilled hash = Some tx → tx_Hash tx = hash)
  ∧ (∀ addr l, pending Vectors.gapFilled !! addr = Some l → strict l = true)
  ∧ (∀ addr l, queue Vectors.gapFilled !! addr = Some l → strict l = false).
Proof.
  exact (operated_keyed (Vectors.emptyPool Vectors.withoutLocals 5) _
           (emptyPool_holds_nothing _ _) gapFilled_operated).
Defined.

Lemma operated_beats_witness :
  pending Vectors.gapFilled !! Vectors.B = None
  ∧ beats Vectors.gapFilled !! Vectors.B = None.
Proof.
  assert (Hp : pending Vectors.gapFilled !! Vectors.B = None)
    by (vm_compute; reflexivity).
  split; [exact Hp|].
  exact (operated_beats (Vectors.emptyPool Vectors.withoutLocals 5) _
           (emptyPool_holds_nothing _ _) gapFilled_operated Vectors.B Hp).
Defined.


Lemma demoteUnexecutables_executable_witness :
  pending (demoteUnexecutables Vectors.admitted) !! Vectors.A
  = Some {| strict := true; items := [Vectors.first5] |}
  ∧ executable (currentState Vectors.admitted) Vectors.A
      {| strict := true; items := [Vectors.first5] |}.
Proof.
  assert (Hp : pending (demoteUnexecutables Vectors.admitted) !! Vectors.A
               = Some {| strict := true; items := [Vectors.first5] |})
    by (vm_compute; reflexivity).
  split; [exact Hp|].
  exact (demoteUnexecutables_executable Vectors.admitted Vectors.A _ Hp).
Defined.

Lemma chainAt_numbered (nonce : Z) : numbered (Vectors.chainAt nonce).
Proof. intros hash n b Hb. discriminate Hb. Qed.

Lemma reset_panics_witness :
  reset 0 (Vectors.emptyPool Vectors.withoutLocals 5) (Some Vectors.genesis) None
  = None.
Proof.
  apply (reset_panics 0 (Vectors.emptyPool Vectors.withoutLocals 5)
           (Some Vectors.genesis) None (chainAt_numbered 5)).
  - intros h [= <-]. cbn. lia.
  - intros h [=].
  - exists Vectors.genesis. split; [reflexivity|]. left. reflexivity.
Defined.

Lemma operated_settled_witness :
  config Vectors.gapFilled = Vectors.withoutLocals
  ∧ signer Vectors.gapFilled = Vectors.signer1.
Proof.
  destruct (operated_settled _ _ gapFilled_operated) as (Hc & _ & Hs & _).
  split; [exact Hc|exact Hs].
Defined.

Lemma addTx_promotes_witness :
  (add (Vectors.emptyPool Vectors.withoutLocals 5) Vectors.first5 false).2 = Ok false
  ∧ Pending (addTx 1 (Vectors.emptyPool Vectors.withoutLocals 5) Vectors.first5 false).1
    = <[sender_of (Vectors.emptyPool Vectors.withoutLocals 5) Vectors.first5
        := [Vectors.first5]]> (Pending (Vectors.emptyPool Vectors.withoutLocals 5))
  ∧ Status (addTx 1 (Vectors.emptyPool Vectors.withoutLocals 5) Vectors.first5 false).1
      [tx_Hash Vectors.first5] = [TxStatusPending].
Proof.
  assert (Hr : (add (Vectors.emptyPool Vectors.withoutLocals 5) Vectors.first5 false).2
               = Ok false) by (vm_compute; reflexivity).
  split; [exact Hr|].
  destruct (addTx_promotes 1 (Vectors.emptyPool Vectors.withoutLocals 5)
              (add (Vectors.emptyPool Vectors.withoutLocals 5) Vectors.first5 false).1
              Vectors.first5 false) as (_ & H2 & _ & _ & H5 & _).
  - rewrite <- Hr. apply surjective_pairing.
  - vm_compute. reflexivity.
  - vm_compute. reflexivity.
  - vm_compute. reflexivity.
  - apply Z.leb_le. vm_compute. reflexivity.
  - apply Z.leb_le. vm_compute. reflexivity.
  - split; [exact H2|exact H5].
Defined.

Lemma reorg_one_block_witness :
  reorg Vectors.forked Vectors.oldHeader Vectors.newHeader
  = Done (TxDifference [Vectors.first5] []).
Proof.
  refine (reorg_one_block Vectors.forked Vectors.oldHeader Vectors.newHeader
            {| BlockHeader := Vectors.oldHeader; Transactions := [Vectors.first5] |}
            {| BlockHeader := Vectors.newHeader; Transactions := [] |}
            {| BlockHeader := Vectors.genesis; Transactions := [] |}
            {| BlockHeader := Vectors.genesis; Transactions := [] |}
            _ eq_refl eq_refl eq_refl eq_refl _ eq_refl eq_refl eq_refl).
  - cbn. lia.
  - discriminate.
Defined.


